(** * KuiperInfer runtime graph: shape resolution, build and the forward scheduler

    A shallow embedding of [source/runtime/runtime_ir.cpp].

    - Objects held through [std::shared_ptr] live in three heaps (operator
      nodes, operands, tensors); a pointer is an index into its heap and
      pointer equality is index equality.
    - [std::map<std::string, V>] is a key-sorted association list, so that
      iteration visits the entries in the order the C++ container does.
    - A failed [CHECK], a [LOG(FATAL)], an uncaught [std::out_of_range] and a
      null dereference all end the process; they are the [Fatal] outcome of a
      state-and-error monad, which keeps the state reached at the abort. *)

From Stdlib Require Import ZArith String Lia.
From Stdlib Require OrdersEx.
From stdpp Require Import base list strings.

Open Scope Z_scope.

(** ** Outcomes and the state-and-error monad *)

Inductive Failure :=
  | ErrGraphState        (* "Graph need be build!" / "Graph status error" *)
  | ErrInitFailed        (* "Init graph failed!" *)
  | ErrNoOperators       (* "Graph operators is empty, may be no init" *)
  | ErrLayerCreate       (* "Layer create failed!" / "Layer init failed" *)
  | ErrInputNode         (* "Can not find the input node" *)
  | ErrOutputNode        (* "Can not find the output node" *)
  | ErrDataType          (* "The graph only support float32 yet!" *)
  | ErrDynamicBatch      (* "Dynamic batch size is not supported!" *)
  | ErrShapeRank         (* "Unsupported shape sizes" *)
  | ErrBatchSize         (* "Batch size is wrong!" *)
  | ErrBufferShape       (* CHECK on a buffer's dimensions *)
  | ErrOperatorCount     (* CHECK on the two operator lists of the output pass *)
  | ErrMultiOutput       (* "Only support one node one output yet!" *)
  | ErrNullOperand       (* "Operand output is null" *)
  | ErrOutputOperand     (* CHECK on an existing output operand *)
  | ErrOperandType       (* "Unknown input operand type" *)
  | ErrParameterType     (* "Unknown parameter type" *)
  | ErrAttributeType     (* "Unknown attribute type" *)
  | ErrMeetNum           (* CHECK(op->meet_num <= op->input_operands.size()) *)
  | ErrNoInputData       (* CHECK(!layer_input_datas.empty()) *)
  | ErrNoOutputOperand   (* CHECK(current_op->output_operands != nullptr) *)
  | ErrInfer             (* "layer forward failed" *)
  | ErrDataSize          (* SetOpInputData: "src size: ... dest size: ..." *)
  | ErrOutputPath        (* "The graph only support one path to the output node yet!" *)
  | ErrOutOfRange        (* std::out_of_range thrown by at() *)
  | ErrNullDeref.        (* dereference of a null or dangling pointer *)

Inductive outcome (A : Type) :=
  | Ret (a : A)
  | Fatal (e : Failure)
  | NoFuel.
Arguments Ret {A} a.
Arguments Fatal {A} e.
Arguments NoFuel {A}.

Definition M (S A : Type) : Type := S → outcome A * S.

#[export] Instance M_ret {S} : MRet (M S) := λ A a s, (Ret a, s).
#[export] Instance M_bind {S} : MBind (M S) := λ A B f m s,
  match m s with
  | (Ret a, s') => f a s'
  | (Fatal e, s') => (Fatal e, s')
  | (NoFuel, s') => (NoFuel, s')
  end.

Definition fatal {S A} (e : Failure) : M S A := λ s, (Fatal e, s).
Definition get {S} : M S S := λ s, (Ret s, s).
Definition modify {S} (f : S → S) : M S unit := λ s, (Ret tt, f s).

(** [CHECK(b) << e] *)
Definition CHECK {S} (b : bool) (e : Failure) : M S unit :=
  if b then mret tt else fatal e.

(** A range-based [for] over a container. *)
Fixpoint for_each {S A} (l : list A) (body : A → M S unit) : M S unit :=
  match l return M S unit with
  | [] => mret tt
  | x :: l' => body x ;; for_each l' body
  end.

(** [v.at(i)]: throws [std::out_of_range] past the end. *)
Definition at_ {S A} (v : list A) (i : nat) : M S A :=
  match v !! i with
  | Some x => mret x
  | None => fatal ErrOutOfRange
  end.

(** Short-circuit [&&] over conditions that may throw. *)
Definition and_then {S} (c1 c2 : M S bool) : M S bool :=
  c1 ≫= λ b : bool, if b then c2 else mret false.

(** ** [std::map<std::string, V>] *)

Module StdMap.
Definition t (V : Type) : Type := list (string * V).

Definition empty {V} : t V := [].

Fixpoint find {V} (k : string) (m : t V) : option V :=
  match m with
  | [] => None
  | (k', v) :: m' => if String.eqb k k' then Some v else find k m'
  end.

(** [m.insert({k, v})]: an entry whose key is present is left as it is. *)
Fixpoint insert {V} (k : string) (v : V) (m : t V) : t V :=
  match m with
  | [] => [(k, v)]
  | (k', v') :: m' =>
      match String.compare k k' with
      | Eq => (k', v') :: m'
      | Lt => (k, v) :: (k', v') :: m'
      | Gt => (k', v') :: insert k v m'
      end
  end.

Definition size {V} (m : t V) : nat := length m.
Definition is_empty {V} (m : t V) : bool := match m with [] => true | _ => false end.
Definition keys {V} (m : t V) : list string := m.*1.
Definition values {V} (m : t V) : list V := m.*2.
End StdMap.

(** ** Machine integers *)

(** Conversion of an [int32_t] to [uint32_t]. *)
Definition u32 (z : Z) : Z := z mod 2 ^ 32.

(** ** Data model *)

Abbreviation op_ref := nat (only parsing).       (* std::shared_ptr<RuntimeOperator> *)
Abbreviation operand_ref := nat (only parsing).  (* std::shared_ptr<RuntimeOperand> *)
Abbreviation tensor_ref := nat (only parsing).   (* std::shared_ptr<Tensor<float>> *)

(** Modelled from the spec: [Tensor<float>] is declared outside this source
    unit. A tensor is a cube of 32-bit floats, kept as their bit patterns,
    with its three dimensions; [Tensor(c, r, w)] makes a zero-filled cube,
    [shapes()] lists the dimensions as channels, rows, columns, and
    [set_data] copies a cube by value into the tensor. *)
Record Tensor := mkTensor {
  t_channels : Z;
  t_rows : Z;
  t_cols : Z;
  t_values : list Z
}.

Definition Tensor_new (channels rows cols : Z) : Tensor :=
  mkTensor (u32 channels) (u32 rows) (u32 cols)
           (replicate (Z.to_nat (u32 channels * u32 rows * u32 cols)) 0).

Definition Tensor_shapes (t : Tensor) : list Z := [t_channels t; t_rows t; t_cols t].
Definition Tensor_data (t : Tensor) : Tensor := t.
Definition Tensor_set_data (dest : Tensor) (data : Tensor) : Tensor := data.

(** Modelled from the spec: the enumerations of the runtime headers. Only
    [kTypeFloat32] and [kInferSuccess] are named by this source unit. *)
Inductive RuntimeDataType :=
  | kTypeUnknown
  | kTypeFloat32
  | kTypeOther (code : Z).

#[export] Instance RuntimeDataType_eq_dec : EqDecision RuntimeDataType.
Proof. solve_decision. Defined.

Inductive InferStatus :=
  | kInferSuccess
  | kInferFailed (code : Z).

(** Modelled from the spec: the lifecycle states, in their order. *)
Inductive GraphState :=
  | Uninitialized
  | NeedInit
  | NeedBuild
  | Complete.

#[export] Instance GraphState_eq_dec : EqDecision GraphState.
Proof. solve_decision. Defined.

Definition GraphState_rank (s : GraphState) : Z :=
  match s with
  | Uninitialized => -3
  | NeedInit => -2
  | NeedBuild => -1
  | Complete => 0
  end.

(** Modelled from the spec: the compute contract of a bound layer,
    [compute(flat inputs, preallocated outputs) -> outputs, status]. *)
Record Layer := mkLayer {
  layer_name : string;
  layer_Forward : list Tensor → list Tensor → InferStatus * list Tensor
}.

Record RuntimeOperand := mkRuntimeOperand {
  operand_name : string;
  shapes : list Z;
  datas : list tensor_ref;
  operand_type : RuntimeDataType
}.

Record RuntimeAttribute := mkRuntimeAttribute {
  weight_data : list Z;
  attr_shape : list Z;
  attr_type : RuntimeDataType
}.

Inductive RuntimeParameter :=
  | RuntimeParameterUnknown
  | RuntimeParameterBool (value : bool)
  | RuntimeParameterInt (value : Z)
  | RuntimeParameterFloat (value : Z)
  | RuntimeParameterString (value : string)
  | RuntimeParameterIntArray (value : list Z)
  | RuntimeParameterFloatArray (value : list Z)
  | RuntimeParameterStringArray (value : list string).

Record RuntimeOperator := mkRuntimeOperator {
  name : string;
  type : string;
  layer : option Layer;
  output_names : list string;
  output_operands : option operand_ref;
  input_operands : StdMap.t operand_ref;
  input_operands_seq : list operand_ref;
  output_operators : StdMap.t op_ref;
  params : StdMap.t RuntimeParameter;
  attribute : StdMap.t RuntimeAttribute;
  meet_num : Z
}.

(** Modelled from the spec: the external operator descriptors (pnnx). An
    input reference carries its shape, its element-type code and the name of
    its producer; an output reference carries its name, its shape and the
    names of its consumers. *)
Record PnnxParameter := mkPnnxParameter {
  p_type : Z;
  p_b : bool;
  p_i : Z;
  p_f : Z;
  p_s : string;
  p_ai : list Z;
  p_af : list Z;
  p_as : list string
}.

Record PnnxAttribute := mkPnnxAttribute {
  a_type : Z;
  a_shape : list Z;
  a_data : list Z
}.

Record PnnxOperand := mkPnnxOperand {
  pnnx_operand_name : string;
  pnnx_operand_type : Z;
  pnnx_operand_shape : list Z;
  producer_name : string;
  consumer_names : list string
}.

Record PnnxOperator := mkPnnxOperator {
  pnnx_name : string;
  pnnx_type : string;
  pnnx_inputs : list (option PnnxOperand);
  pnnx_outputs : list (option PnnxOperand);
  pnnx_params : StdMap.t PnnxParameter;
  pnnx_attrs : StdMap.t PnnxAttribute
}.

(** [pnnx::Graph]: its [ops], a vector of possibly null operator pointers. *)
Abbreviation PnnxGraph := (list (option PnnxOperator)) (only parsing).

(** The graph object, together with the heaps its shared pointers refer to. *)
Record RuntimeGraph := mkRuntimeGraph {
  input_name_ : string;
  output_name_ : string;
  param_path_ : string;
  bin_path_ : string;
  graph_state_ : GraphState;
  graph_ : option PnnxGraph;
  operators_ : list op_ref;
  input_operators_maps_ : StdMap.t op_ref;
  output_operators_maps_ : StdMap.t op_ref;
  operator_heap : list RuntimeOperator;
  operand_heap : list RuntimeOperand;
  tensor_heap : list Tensor
}.

(** *** Field updates *)

Definition with_datas (d : list tensor_ref) (o : RuntimeOperand) : RuntimeOperand :=
  mkRuntimeOperand (operand_name o) (shapes o) d (operand_type o).

Definition with_layer (l : option Layer) (o : RuntimeOperator) : RuntimeOperator :=
  mkRuntimeOperator (name o) (type o) l (output_names o) (output_operands o)
    (input_operands o) (input_operands_seq o) (output_operators o) (params o)
    (attribute o) (meet_num o).

Definition with_output_names (l : list string) (o : RuntimeOperator) : RuntimeOperator :=
  mkRuntimeOperator (name o) (type o) (layer o) l (output_operands o)
    (input_operands o) (input_operands_seq o) (output_operators o) (params o)
    (attribute o) (meet_num o).

Definition with_output_operands (r : option operand_ref) (o : RuntimeOperator) : RuntimeOperator :=
  mkRuntimeOperator (name o) (type o) (layer o) (output_names o) r
    (input_operands o) (input_operands_seq o) (output_operators o) (params o)
    (attribute o) (meet_num o).

Definition with_input_operands (m : StdMap.t operand_ref) (o : RuntimeOperator) : RuntimeOperator :=
  mkRuntimeOperator (name o) (type o) (layer o) (output_names o) (output_operands o)
    m (input_operands_seq o) (output_operators o) (params o)
    (attribute o) (meet_num o).

Definition with_input_operands_seq (l : list operand_ref) (o : RuntimeOperator) : RuntimeOperator :=
  mkRuntimeOperator (name o) (type o) (layer o) (output_names o) (output_operands o)
    (input_operands o) l (output_operators o) (params o)
    (attribute o) (meet_num o).

Definition with_output_operators (m : StdMap.t op_ref) (o : RuntimeOperator) : RuntimeOperator :=
  mkRuntimeOperator (name o) (type o) (layer o) (output_names o) (output_operands o)
    (input_operands o) (input_operands_seq o) m (params o)
    (attribute o) (meet_num o).

Definition with_params (m : StdMap.t RuntimeParameter) (o : RuntimeOperator) : RuntimeOperator :=
  mkRuntimeOperator (name o) (type o) (layer o) (output_names o) (output_operands o)
    (input_operands o) (input_operands_seq o) (output_operators o) m
    (attribute o) (meet_num o).

Definition with_attribute (m : StdMap.t RuntimeAttribute) (o : RuntimeOperator) : RuntimeOperator :=
  mkRuntimeOperator (name o) (type o) (layer o) (output_names o) (output_operands o)
    (input_operands o) (input_operands_seq o) (output_operators o) (params o)
    m (meet_num o).

Definition with_meet_num (n : Z) (o : RuntimeOperator) : RuntimeOperator :=
  mkRuntimeOperator (name o) (type o) (layer o) (output_names o) (output_operands o)
    (input_operands o) (input_operands_seq o) (output_operators o) (params o)
    (attribute o) n.

Definition with_names (i o : string) (g : RuntimeGraph) : RuntimeGraph :=
  mkRuntimeGraph i o (param_path_ g) (bin_path_ g) (graph_state_ g) (graph_ g)
    (operators_ g) (input_operators_maps_ g) (output_operators_maps_ g)
    (operator_heap g) (operand_heap g) (tensor_heap g).

Definition with_graph_state (s : GraphState) (g : RuntimeGraph) : RuntimeGraph :=
  mkRuntimeGraph (input_name_ g) (output_name_ g) (param_path_ g) (bin_path_ g) s (graph_ g)
    (operators_ g) (input_operators_maps_ g) (output_operators_maps_ g)
    (operator_heap g) (operand_heap g) (tensor_heap g).

Definition with_graph (p : option PnnxGraph) (g : RuntimeGraph) : RuntimeGraph :=
  mkRuntimeGraph (input_name_ g) (output_name_ g) (param_path_ g) (bin_path_ g)
    (graph_state_ g) p
    (operators_ g) (input_operators_maps_ g) (output_operators_maps_ g)
    (operator_heap g) (operand_heap g) (tensor_heap g).

Definition with_operators (l : list op_ref) (g : RuntimeGraph) : RuntimeGraph :=
  mkRuntimeGraph (input_name_ g) (output_name_ g) (param_path_ g) (bin_path_ g)
    (graph_state_ g) (graph_ g)
    l (input_operators_maps_ g) (output_operators_maps_ g)
    (operator_heap g) (operand_heap g) (tensor_heap g).

Definition with_sentinel_maps (i o : StdMap.t op_ref) (g : RuntimeGraph) : RuntimeGraph :=
  mkRuntimeGraph (input_name_ g) (output_name_ g) (param_path_ g) (bin_path_ g)
    (graph_state_ g) (graph_ g)
    (operators_ g) i o
    (operator_heap g) (operand_heap g) (tensor_heap g).

Definition with_operator_heap (h : list RuntimeOperator) (g : RuntimeGraph) : RuntimeGraph :=
  mkRuntimeGraph (input_name_ g) (output_name_ g) (param_path_ g) (bin_path_ g)
    (graph_state_ g) (graph_ g)
    (operators_ g) (input_operators_maps_ g) (output_operators_maps_ g)
    h (operand_heap g) (tensor_heap g).

Definition with_operand_heap (h : list RuntimeOperand) (g : RuntimeGraph) : RuntimeGraph :=
  mkRuntimeGraph (input_name_ g) (output_name_ g) (param_path_ g) (bin_path_ g)
    (graph_state_ g) (graph_ g)
    (operators_ g) (input_operators_maps_ g) (output_operators_maps_ g)
    (operator_heap g) h (tensor_heap g).

Definition with_tensor_heap (h : list Tensor) (g : RuntimeGraph) : RuntimeGraph :=
  mkRuntimeGraph (input_name_ g) (output_name_ g) (param_path_ g) (bin_path_ g)
    (graph_state_ g) (graph_ g)
    (operators_ g) (input_operators_maps_ g) (output_operators_maps_ g)
    (operator_heap g) (operand_heap g) h.

(** *** Heap access *)

Abbreviation G := (M RuntimeGraph) (only parsing).

(** [*p] for a pointer to an operator node, an operand, a tensor. *)
Definition deref_operator (p : op_ref) : G RuntimeOperator := λ g,
  match operator_heap g !! p with
  | Some o => (Ret o, g)
  | None => (Fatal ErrNullDeref, g)
  end.

Definition deref_operand (p : operand_ref) : G RuntimeOperand := λ g,
  match operand_heap g !! p with
  | Some o => (Ret o, g)
  | None => (Fatal ErrNullDeref, g)
  end.

Definition deref_tensor (p : tensor_ref) : G Tensor := λ g,
  match tensor_heap g !! p with
  | Some t => (Ret t, g)
  | None => (Fatal ErrNullDeref, g)
  end.

(** Assignment through a pointer. *)
Definition update_operator (p : op_ref) (f : RuntimeOperator → RuntimeOperator) : G unit := λ g,
  match operator_heap g !! p with
  | Some o => (Ret tt, with_operator_heap (<[p := f o]> (operator_heap g)) g)
  | None => (Fatal ErrNullDeref, g)
  end.

Definition update_operand (p : operand_ref) (f : RuntimeOperand → RuntimeOperand) : G unit := λ g,
  match operand_heap g !! p with
  | Some o => (Ret tt, with_operand_heap (<[p := f o]> (operand_heap g)) g)
  | None => (Fatal ErrNullDeref, g)
  end.

Definition update_tensor (p : tensor_ref) (f : Tensor → Tensor) : G unit := λ g,
  match tensor_heap g !! p with
  | Some t => (Ret tt, with_tensor_heap (<[p := f t]> (tensor_heap g)) g)
  | None => (Fatal ErrNullDeref, g)
  end.

(** [std::make_shared<T>(...)]: a fresh object at the end of its heap. *)
Definition new_operator (o : RuntimeOperator) : G op_ref := λ g,
  (Ret (length (operator_heap g)), with_operator_heap (operator_heap g ++ [o]) g).

Definition new_operand (o : RuntimeOperand) : G operand_ref := λ g,
  (Ret (length (operand_heap g)), with_operand_heap (operand_heap g ++ [o]) g).

Definition new_tensor (t : Tensor) : G tensor_ref := λ g,
  (Ret (length (tensor_heap g)), with_tensor_heap (tensor_heap g ++ [t]) g).

(** ** Shape resolver *)

(** Conversion of an [int32_t] to [size_t]. *)
Definition usize (z : Z) : Z := z mod 2 ^ 64.

Definition is_nil {A} (l : list A) : bool := match l with [] => true | _ => false end.

(** [a.at(i) == b.at(j)] with [a] unsigned and [b] signed 32-bit. *)
Definition eq_at_u32 (a : list Z) (i : nat) (b : list Z) (j : nat) : G bool :=
  x ← at_ a i; y ← at_ b j; mret (x =? u32 y)%Z.

(** [a.at(i) == b.at(j)] on two vectors of the same element type. *)
Definition eq_at (a : list Z) (i : nat) (b : list Z) (j : nat) : G bool :=
  x ← at_ a i; y ← at_ b j; mret (x =? y)%Z.

(** [a.at(i) == c] for a literal [c]. *)
Definition eq_at_const (a : list Z) (i : nat) (c : Z) : G bool :=
  x ← at_ a i; mret (x =? c)%Z.

(** One fresh buffer for the declared shape: [Tensor(c, h, w)] for rank 4,
    [Tensor(1, f, 1)] otherwise. *)
Definition make_buffer (shapes : list Z) : G tensor_ref :=
  if decide (length shapes = 4%nat) then
    c ← at_ shapes 1; h ← at_ shapes 2; w ← at_ shapes 3;
    new_tensor (Tensor_new c h w)
  else
    f ← at_ shapes 1;
    new_tensor (Tensor_new 1 f 1).

(** The allocation loops ([i] from 0 to [batch]) of both passes. *)
Fixpoint make_buffers (batch : nat) (shapes : list Z) : G (list tensor_ref) :=
  match batch return G (list tensor_ref) with
  | O => mret []
  | S batch' =>
      t ← make_buffer shapes;
      ts ← make_buffers batch' shapes;
      mret (t :: ts)
  end.

(** Lines 36-43: the check of the existing buffer [i]. *)
Definition check_input_buffer (current_shape : list Z) (input_datas : list tensor_ref)
    (i : nat) : G unit :=
  p ← at_ input_datas i;
  tensor ← deref_tensor p;
  let origin_shape := Tensor_shapes tensor in
  if decide (length current_shape = 4%nat) then
    ok ← and_then (eq_at_u32 origin_shape 0 current_shape 1)
         (and_then (eq_at_u32 origin_shape 1 current_shape 2)
                   (eq_at_u32 origin_shape 2 current_shape 3));
    CHECK ok ErrBufferShape
  else
    ok ← and_then (eq_at_u32 origin_shape 1 current_shape 1)
         (and_then (eq_at_const origin_shape 0 1)
                   (eq_at_const origin_shape 2 1));
    CHECK ok ErrBufferShape.

(** Lines 23-54: the body of the loop over the input operands of a node. *)
Definition init_input_operand (input_operand : operand_ref) : G unit :=
  opd ← deref_operand input_operand;
  CHECK (bool_decide (operand_type opd = kTypeFloat32)) ErrDataType;;
  batch ← at_ (shapes opd) 0;
  CHECK (0 <=? batch) ErrDynamicBatch;;
  CHECK (bool_decide (length (shapes opd) = 2%nat ∨ length (shapes opd) = 4%nat))
        ErrShapeRank;;
  if negb (is_nil (datas opd)) then
    CHECK (Z.of_nat (length (datas opd)) =? usize batch) ErrBatchSize;;
    for_each (seq 0 (Z.to_nat batch)) (check_input_buffer (shapes opd) (datas opd))
  else
    input_datas ← make_buffers (Z.to_nat batch) (shapes opd);
    update_operand input_operand (with_datas input_datas).

Definition InitOperatorInputTensor (operators : list op_ref) : G unit :=
  if is_nil operators then mret tt
  else
    for_each operators (λ op,
      o ← deref_operator op;
      if StdMap.is_empty (input_operands o) then mret tt
      else for_each (StdMap.values (input_operands o)) init_input_operand).

(** Lines 102-108: the check run once per existing output buffer. It reads
    the operand's own shape vector. *)
Definition check_output_buffer (tensor_shapes shapes : list Z) : G unit :=
  if decide (length shapes = 4%nat) then
    ok ← and_then (eq_at tensor_shapes 1 shapes 1)
         (and_then (eq_at tensor_shapes 2 shapes 2)
                   (eq_at tensor_shapes 3 shapes 3));
    CHECK ok ErrBufferShape
  else
    ok ← and_then (eq_at_const tensor_shapes 0 1)
         (and_then (eq_at tensor_shapes 1 shapes 1)
                   (eq_at_const tensor_shapes 2 1));
    CHECK ok ErrBufferShape.

(** Lines 66-110: the body of the loop over the paired operator lists. *)
Definition init_output_operand (pnnx_operators : PnnxGraph) (operators : list op_ref)
    (i : nat) : G unit :=
  pnnx_op ← at_ pnnx_operators i;
  match pnnx_op with
  | None => fatal ErrNullDeref
  | Some pnnx_op =>
      let operands := pnnx_outputs pnnx_op in
      CHECK (length operands <=? 1)%nat ErrMultiOutput;;
      match operands with
      | [] => mret tt
      | operand :: _ =>
          runtime_op ← at_ operators i;
          match operand with
          | None => fatal ErrNullOperand
          | Some operand =>
              let shapes' := pnnx_operand_shape operand in
              rop ← deref_operator runtime_op;
              let output_tensors := output_operands rop in
              batch ← at_ shapes' 0;
              CHECK (0 <=? batch) ErrDynamicBatch;;
              CHECK (bool_decide (length shapes' = 2%nat ∨ length shapes' = 4%nat))
                    ErrShapeRank;;
              match output_tensors with
              | None =>
                  bufs ← make_buffers (Z.to_nat batch) shapes';
                  output_operand ← new_operand
                    (mkRuntimeOperand (String.append (pnnx_operand_name operand) "_output")
                                      shapes' bufs kTypeFloat32);
                  update_operator runtime_op (with_output_operands (Some output_operand))
              | Some output_tensors =>
                  out ← deref_operand output_tensors;
                  CHECK (usize batch =? Z.of_nat (length (datas out))) ErrOutputOperand;;
                  CHECK (bool_decide (operand_type out = kTypeFloat32)) ErrOutputOperand;;
                  CHECK (bool_decide (shapes out = shapes')) ErrOutputOperand;;
                  for_each (datas out) (λ _, check_output_buffer (shapes out) shapes')
              end
          end
      end
  end.

Definition InitOperatorOutputTensor (pnnx_operators : PnnxGraph) (operators : list op_ref)
    : G unit :=
  CHECK (negb (is_nil pnnx_operators) && negb (is_nil operators)) ErrOperatorCount;;
  CHECK (length pnnx_operators =? length operators)%nat ErrOperatorCount;;
  for_each (seq 0 (length pnnx_operators)) (init_output_operand pnnx_operators operators).

(** ** Graph builder *)

Definition with_name_type (n t : string) (o : RuntimeOperator) : RuntimeOperator :=
  mkRuntimeOperator n t (layer o) (output_names o) (output_operands o)
    (input_operands o) (input_operands_seq o) (output_operators o) (params o)
    (attribute o) (meet_num o).

Definition with_operand_type (t : RuntimeDataType) (o : RuntimeOperand) : RuntimeOperand :=
  mkRuntimeOperand (operand_name o) (shapes o) (datas o) t.

(** Modelled from the spec: the default-constructed node and operand of the
    runtime headers (no handler, no operands, delivery counter zero). *)
Definition RuntimeOperator_default : RuntimeOperator :=
  mkRuntimeOperator "" "" None [] None [] [] [] [] [] 0.

Definition RuntimeOperand_default : RuntimeOperand :=
  mkRuntimeOperand "" [] [] kTypeUnknown.

Definition InitInputOperators (inputs : list (option PnnxOperand)) (runtime_operator : op_ref)
    : G unit :=
  for_each inputs (λ input,
    match input with
    | None => mret tt
    | Some input =>
        runtime_operand ← new_operand
          (mkRuntimeOperand (producer_name input) (pnnx_operand_shape input) [] kTypeUnknown);
        (if decide (pnnx_operand_type input = 1)
         then update_operand runtime_operand (with_operand_type kTypeFloat32)
         else fatal ErrOperandType);;
        update_operator runtime_operator (λ o,
          with_input_operands_seq (input_operands_seq o ++ [runtime_operand])
            (with_input_operands
               (StdMap.insert (producer_name input) runtime_operand (input_operands o)) o))
    end).

Definition InitOutputOperators (outputs : list (option PnnxOperand)) (runtime_operator : op_ref)
    : G unit :=
  for_each outputs (λ output,
    match output with
    | None => mret tt
    | Some output =>
        for_each (consumer_names output) (λ c,
          update_operator runtime_operator (λ o,
            with_output_names (output_names o ++ [c]) o))
    end).

(** Modelled from the spec: the eight parameter kinds, numbered as the
    descriptor numbers them (unknown, bool, int, float, string and the three
    array kinds). *)
Definition RuntimeParameter_of (p : PnnxParameter) : option RuntimeParameter :=
  if decide (p_type p = 0) then Some RuntimeParameterUnknown
  else if decide (p_type p = 1) then Some (RuntimeParameterBool (p_b p))
  else if decide (p_type p = 2) then Some (RuntimeParameterInt (p_i p))
  else if decide (p_type p = 3) then Some (RuntimeParameterFloat (p_f p))
  else if decide (p_type p = 4) then Some (RuntimeParameterString (p_s p))
  else if decide (p_type p = 5) then Some (RuntimeParameterIntArray (p_ai p))
  else if decide (p_type p = 6) then Some (RuntimeParameterFloatArray (p_af p))
  else if decide (p_type p = 7) then Some (RuntimeParameterStringArray (p_as p))
  else None.

Definition InitGraphParams (params' : StdMap.t PnnxParameter) (runtime_operator : op_ref)
    : G unit :=
  for_each params' (λ pair,
    match RuntimeParameter_of pair.2 with
    | Some runtime_parameter =>
        update_operator runtime_operator (λ o,
          with_params (StdMap.insert pair.1 runtime_parameter (params o)) o)
    | None => fatal ErrParameterType
    end).

Definition InitGraphAttrs (attrs : StdMap.t PnnxAttribute) (runtime_operator : op_ref)
    : G unit :=
  for_each attrs (λ pair,
    if decide (a_type pair.2 = 1) then
      update_operator runtime_operator (λ o,
        with_attribute
          (StdMap.insert pair.1
             (mkRuntimeAttribute (a_data pair.2) (a_shape pair.2) kTypeFloat32)
             (attribute o)) o)
    else fatal ErrAttributeType).

(** Lines 193-203: the consumer edges of [current_op]. *)
Definition wire_operator (operators : list op_ref) (current_op : op_ref) : G unit :=
  for_each operators (λ next_op,
    if decide (next_op = current_op) then mret tt
    else
      cur ← deref_operator current_op;
      nxt ← deref_operator next_op;
      if bool_decide (name nxt ∈ output_names cur) then
        update_operator current_op (λ o,
          with_output_operators (StdMap.insert (name nxt) next_op (output_operators o)) o)
      else mret tt).

Section Collaborators.

(** The descriptor loader: the result code of [pnnx::Graph::load] and the
    operators it leaves in the graph. *)
Variable pnnx_load : string → string → Z * PnnxGraph.

(** The layer factory, [LayerRegisterer::CreateLayer]; [None] is a null
    layer pointer. *)
Variable LayerRegisterer_CreateLayer : RuntimeOperator → option Layer.

Definition Init : G bool :=
  g ← get;
  if String.eqb (bin_path_ g) "" || String.eqb (param_path_ g) "" then mret false
  else
    let loaded := pnnx_load (param_path_ g) (bin_path_ g) in
    modify (with_graph (Some loaded.2));;
    if negb (loaded.1 =? 0) then mret false
    else
      let operators := loaded.2 in
      if is_nil operators then mret false
      else
        modify (with_operators []);;
        for_each operators (λ op : option PnnxOperator,
          match op with
          | None => mret tt
          | Some op =>
              runtime_operator ← new_operator RuntimeOperator_default;
              update_operator runtime_operator (with_name_type (pnnx_name op) (pnnx_type op));;
              (if negb (is_nil (pnnx_inputs op))
               then InitInputOperators (pnnx_inputs op) runtime_operator else mret tt);;
              (if negb (is_nil (pnnx_outputs op))
               then InitOutputOperators (pnnx_outputs op) runtime_operator else mret tt);;
              (if negb (StdMap.is_empty (pnnx_attrs op))
               then InitGraphAttrs (pnnx_attrs op) runtime_operator else mret tt);;
              (if negb (StdMap.is_empty (pnnx_params op))
               then InitGraphParams (pnnx_params op) runtime_operator else mret tt);;
              modify (λ g, with_operators (operators_ g ++ [runtime_operator]) g)
          end);;
        g ← get;
        for_each (operators_ g) (wire_operator (operators_ g));;
        modify (with_graph_state NeedBuild);;
        mret true.

Definition CreateLayer (op : op_ref) : G Layer :=
  o ← deref_operator op;
  match LayerRegisterer_CreateLayer o with
  | Some layer => mret layer
  | None => fatal ErrLayerCreate
  end.

(** Lines 221-233: the body of the binding loop. *)
Definition bind_operator (kOperator : op_ref) : G unit :=
  o ← deref_operator kOperator;
  if String.eqb (type o) "pnnx.Input" then
    modify (λ g, with_sentinel_maps
                   (StdMap.insert (name o) kOperator (input_operators_maps_ g))
                   (output_operators_maps_ g) g)
  else if String.eqb (type o) "pnnx.Output" then
    modify (λ g, with_sentinel_maps
                   (input_operators_maps_ g)
                   (StdMap.insert (name o) kOperator (output_operators_maps_ g)) g)
  else
    layer ← CreateLayer kOperator;
    update_operator kOperator (with_layer (Some layer)).

Definition Build (input_name output_name : string) : G unit :=
  g ← get;
  (if decide (graph_state_ g = NeedInit)
   then Init ≫= λ init_graph : bool, CHECK init_graph ErrInitFailed
   else mret tt);;
  g ← get;
  CHECK (GraphState_rank NeedBuild <=? GraphState_rank (graph_state_ g)) ErrGraphState;;
  CHECK (negb (is_nil (operators_ g))) ErrNoOperators;;
  modify (with_sentinel_maps [] []);;
  for_each (operators_ g) bind_operator;;
  InitOperatorInputTensor (operators_ g);;
  match graph_ g with
  | None => fatal ErrNullDeref
  | Some ops => InitOperatorOutputTensor ops (operators_ g)
  end;;
  modify (with_graph_state Complete);;
  modify (with_names input_name output_name).

End Collaborators.

(** ** Scheduler *)

(** What a pass does, in the order it does it; each event keeps the graph
    (and, for a delivery, the queue) it happened in. *)
Inductive Event :=
  | EvDequeue (op : op_ref) (g : RuntimeGraph)
      (* line 284: a node that is neither sentinel has been taken from the queue *)
  | EvRetry (op : op_ref)
      (* line 286: the node is pushed back unready *)
  | EvLayerForward (op : op_ref) (g : RuntimeGraph)
      (* line 305: the node's handler is invoked *)
  | EvDeliver (producer consumer : op_ref) (queue : list op_ref) (g : RuntimeGraph)
              (pushed : bool).
      (* lines 496-505 done for one consumer edge: the queue before, the graph
         after, and whether line 501 pushed the consumer *)

(** The state of a pass: the graph, the local work queue, and the events so far. *)
Record Sched := mkSched {
  graph : RuntimeGraph;
  operator_queue : list op_ref;
  trace : list Event
}.

Abbreviation P := (M Sched) (only parsing).

Definition liftG {A} (m : G A) : P A := λ s,
  let r := m (graph s) in (r.1, mkSched r.2 (operator_queue s) (trace s)).

Definition set_queue (q : list op_ref) : P unit :=
  modify (λ s, mkSched (graph s) q (trace s)).

Definition push_back (op : op_ref) : P unit :=
  modify (λ s, mkSched (graph s) (operator_queue s ++ [op]) (trace s)).

(** Records an event together with the graph it happens in. *)
Definition emit (e : RuntimeGraph → Event) : P unit :=
  modify (λ s, mkSched (graph s) (operator_queue s) (trace s ++ [e (graph s)])).

(** Modelled from the spec: the declaration of the counter [meet_num] is
    outside this source unit; it is a signed 32-bit number that starts at
    zero. *)

(** [m <= n] and [m == n] for a signed counter [m] and a container size [n],
    a [size_t]: the counter is converted to [size_t] first, which sends a
    negative counter above the size of every container. *)
Definition le_size_t (m : Z) (n : nat) : bool := (0 <=? m) && (m <=? Z.of_nat n).
Definition eq_size_t (m : Z) (n : nat) : bool := (0 <=? m) && (m =? Z.of_nat n).

Definition CheckOperatorReady (op : op_ref) : G bool :=
  o ← deref_operator op;
  CHECK (le_size_t (meet_num o) (StdMap.size (input_operands o))) ErrMeetNum;;
  if eq_size_t (meet_num o) (StdMap.size (input_operands o)) then mret true else mret false.

Definition SetOpInputData (src dest : list tensor_ref) : G unit :=
  CHECK (length src =? length dest)%nat ErrDataSize;;
  for_each (seq 0 (length src)) (λ i,
    s ← at_ src i;
    d ← at_ dest i;
    data ← deref_tensor s;
    update_tensor d (λ t, Tensor_set_data t (Tensor_data data))).

(** Lines 493-506: the body of the loop over the consumer edges. *)
Definition deliver (current_op : op_ref) (layer_output_datas : list tensor_ref)
    (next_rt_operator : op_ref) : P unit :=
  cur ← liftG (deref_operator current_op);
  nxt ← liftG (deref_operator next_rt_operator);
  let next_input_operands := input_operands nxt in
  match StdMap.find (name cur) next_input_operands with
  | None => mret tt
  | Some operand =>
      dest ← liftG (deref_operand operand);
      liftG (SetOpInputData layer_output_datas (datas dest));;
      s ← get;
      (if bool_decide (next_rt_operator ∉ operator_queue s) then
         liftG (update_operator next_rt_operator (λ o, with_meet_num (meet_num o + 1) o));;
         liftG (CheckOperatorReady next_rt_operator) ≫= λ ready : bool,
         (if ready then push_back next_rt_operator else mret tt);;
         liftG (update_operator next_rt_operator (λ o, with_meet_num (meet_num o - 1) o));;
         mret ready
       else mret false) ≫= λ pushed : bool,
      liftG (update_operator next_rt_operator (λ o, with_meet_num (meet_num o + 1) o));;
      emit (λ g, EvDeliver current_op next_rt_operator (operator_queue s) g pushed)
  end.

Definition ProbeNextLayer (current_op : op_ref) (layer_output_datas : list tensor_ref) : P unit :=
  cur ← liftG (deref_operator current_op);
  for_each (StdMap.values (output_operators cur)) (deliver current_op layer_output_datas).

(** Lines 290-297: the flat input list of a node. *)
Fixpoint gather_inputs (input_operand_datas : list operand_ref) : G (list tensor_ref) :=
  match input_operand_datas return G (list tensor_ref) with
  | [] => mret []
  | p :: rest =>
      o ← deref_operand p;
      ts ← gather_inputs rest;
      mret (datas o ++ ts)%list
  end.

Fixpoint read_tensors (ps : list tensor_ref) : G (list Tensor) :=
  match ps return G (list Tensor) with
  | [] => mret []
  | p :: rest =>
      t ← deref_tensor p;
      ts ← read_tensors rest;
      mret (t :: ts)
  end.

(** Line 305: the handler reads the input buffers and writes the node's
    output buffers in place. *)
Definition run_layer (l : Layer) (inputs outputs : list tensor_ref) : G InferStatus :=
  ins ← read_tensors inputs;
  outs ← read_tensors outputs;
  let r := layer_Forward l ins outs in
  for_each (zip outputs r.2) (λ pt, update_tensor pt.1 (λ _, pt.2));;
  mret r.1.

(** Lines 268-321: one iteration of the scheduler loop on a non-empty queue;
    the result tells whether the loop goes on ([false] is the [break]). *)
Definition iteration (input_op output_op : op_ref) (inputs : list tensor_ref) : P bool :=
  s ← get;
  match operator_queue s with
  | [] => mret false
  | current_op :: rest =>
      set_queue rest;;
      if decide (current_op = output_op) then mret false
      else if decide (current_op = input_op) then
        ProbeNextLayer current_op inputs;;
        mret true
      else
        cur ← liftG (deref_operator current_op);
        emit (EvDequeue current_op);;
        liftG (CheckOperatorReady current_op) ≫= λ has_ready : bool,
        if negb has_ready then
          emit (λ _, EvRetry current_op);;
          push_back current_op;;
          mret true
        else
          layer_input_datas ← liftG (gather_inputs (input_operands_seq cur));
          CHECK (negb (is_nil layer_input_datas)) ErrNoInputData;;
          match output_operands cur with
          | None => fatal ErrNoOutputOperand
          | Some out =>
              o ← liftG (deref_operand out);
              let layer_output_datas := datas o in
              match layer cur with
              | None => fatal ErrNullDeref
              | Some l =>
                  emit (EvLayerForward current_op);;
                  liftG (run_layer l layer_input_datas layer_output_datas)
                    ≫= λ status : InferStatus,
                  match status with
                  | kInferSuccess =>
                      ProbeNextLayer current_op layer_output_datas;;
                      mret true
                  | kInferFailed _ => fatal ErrInfer
                  end
              end
          end
  end.

(** Lines 266-322: [while (!operator_queue.empty())]; [fuel] bounds the
    number of iterations. *)
Fixpoint schedule (fuel : nat) (input_op output_op : op_ref) (inputs : list tensor_ref)
    : P unit :=
  match fuel return P unit with
  | O => λ s, (NoFuel, s)
  | S fuel' =>
      iteration input_op output_op inputs ≫= λ go_on : bool,
      if go_on then schedule fuel' input_op output_op inputs else mret tt
  end.

Definition find_sentinel (n : string) (m : StdMap.t op_ref) (e : Failure) : P op_ref :=
  match StdMap.find n m with
  | Some p => mret p
  | None => fatal e
  end.

(** Lines 324-334: the counters are reset and the result is read. *)
Definition Forward_result (operators : list op_ref) (output_op : op_ref)
    : G (list tensor_ref) :=
  for_each operators (λ op, update_operator op (with_meet_num 0));;
  out ← deref_operator output_op;
  CHECK (StdMap.size (input_operands out) =? 1)%nat ErrOutputPath;;
  match input_operands out with
  | [] => fatal ErrOutputPath
  | output_op_input_operand :: _ =>
      output_operand ← deref_operand output_op_input_operand.2;
      mret (datas output_operand)
  end.

Definition Forward (fuel : nat) (inputs : list tensor_ref) (debug : bool)
    : P (list tensor_ref) :=
  s ← get;
  let g := graph s in
  (if GraphState_rank (graph_state_ g) <? GraphState_rank Complete
   then fatal ErrGraphState else mret tt);;
  CHECK (bool_decide (graph_state_ g = Complete)) ErrGraphState;;
  input_op ← find_sentinel (input_name_ g) (input_operators_maps_ g) ErrInputNode;
  output_op ← find_sentinel (output_name_ g) (output_operators_maps_ g) ErrOutputNode;
  set_queue [input_op];;
  schedule fuel input_op output_op inputs;;
  liftG (Forward_result (operators_ g) output_op).

(** A call of [Forward] on graph [g]: the pass starts with no queue and no event. *)
Definition run_Forward (fuel : nat) (inputs : list tensor_ref) (debug : bool)
    (g : RuntimeGraph) : outcome (list tensor_ref) * Sched :=
  Forward fuel inputs debug (mkSched g [] []).

(** ** Two small graphs *)

Module Examples.

(** Every operand below is one batch of a 1 x 1 x 3 cube. *)
Definition shape : list Z := [1; 1; 1; 3].

Definition edge (n producer : string) (consumers : list string) : option PnnxOperand :=
  Some (mkPnnxOperand n 1 shape producer consumers).

(** The linear chain [in -> A -> B -> out]. *)
Definition chain : PnnxGraph :=
  [ Some (mkPnnxOperator "in" "pnnx.Input" [] [edge "0" "in" ["A"%string]] [] []);
    Some (mkPnnxOperator "A" "nn.Identity" [edge "0" "in" ["A"%string]]
                         [edge "1" "A" ["B"%string]] [] []);
    Some (mkPnnxOperator "B" "nn.Identity" [edge "1" "A" ["B"%string]]
                         [edge "2" "B" ["out"%string]] [] []);
    Some (mkPnnxOperator "out" "pnnx.Output" [edge "2" "B" ["out"%string]] [] [] []) ].

(** The diamond [I -> A], [I -> B], [A -> C], [B -> C], [C -> O]. *)
Definition diamond : PnnxGraph :=
  [ Some (mkPnnxOperator "I" "pnnx.Input" [] [edge "0" "I" ["A"%string; "B"%string]] [] []);
    Some (mkPnnxOperator "A" "nn.Identity" [edge "0" "I" ["A"%string; "B"%string]]
                         [edge "1" "A" ["C"%string]] [] []);
    Some (mkPnnxOperator "B" "nn.Identity" [edge "0" "I" ["A"%string; "B"%string]]
                         [edge "2" "B" ["C"%string]] [] []);
    Some (mkPnnxOperator "C" "nn.Identity"
                         [edge "1" "A" ["C"%string]; edge "2" "B" ["C"%string]]
                         [edge "3" "C" ["O"%string]] [] []);
    Some (mkPnnxOperator "O" "pnnx.Output" [edge "3" "C" ["O"%string]] [] [] []) ].

(** Two paths that meet at the output: [I -> A], [I -> B], [A -> O], [B -> O]. *)
Definition converging : PnnxGraph :=
  [ Some (mkPnnxOperator "I" "pnnx.Input" [] [edge "0" "I" ["A"%string; "B"%string]] [] []);
    Some (mkPnnxOperator "A" "nn.Identity" [edge "0" "I" ["A"%string; "B"%string]]
                         [edge "1" "A" ["O"%string]] [] []);
    Some (mkPnnxOperator "B" "nn.Identity" [edge "0" "I" ["A"%string; "B"%string]]
                         [edge "2" "B" ["O"%string]] [] []);
    Some (mkPnnxOperator "O" "pnnx.Output"
                         [edge "1" "A" ["O"%string]; edge "2" "B" ["O"%string]] [] [] []) ].

(** A node that takes the output of [A] twice: [I -> A], [A -> C], [C -> O]. *)
Definition twice : PnnxGraph :=
  [ Some (mkPnnxOperator "I" "pnnx.Input" [] [edge "0" "I" ["A"%string]] [] []);
    Some (mkPnnxOperator "A" "nn.Identity" [edge "0" "I" ["A"%string]]
                         [edge "1" "A" ["C"%string; "C"%string]] [] []);
    Some (mkPnnxOperator "C" "nn.Identity"
                         [edge "1" "A" ["C"%string; "C"%string];
                          edge "1" "A" ["C"%string; "C"%string]]
                         [edge "2" "C" ["O"%string]] [] []);
    Some (mkPnnxOperator "O" "pnnx.Output" [edge "2" "C" ["O"%string]] [] [] []) ].

(** A node that waits for a producer that never runs: [I -> A], [A -> C],
    [A -> O], [B -> C], where [B] takes no input. *)
Definition starved : PnnxGraph :=
  [ Some (mkPnnxOperator "I" "pnnx.Input" [] [edge "0" "I" ["A"%string]] [] []);
    Some (mkPnnxOperator "A" "nn.Identity" [edge "0" "I" ["A"%string]]
                         [edge "1" "A" ["C"%string; "O"%string]] [] []);
    Some (mkPnnxOperator "B" "nn.Identity" [] [edge "2" "B" ["C"%string]] [] []);
    Some (mkPnnxOperator "C" "nn.Identity"
                         [edge "1" "A" ["C"%string; "O"%string]; edge "2" "B" ["C"%string]]
                         [edge "3" "C" []] [] []);
    Some (mkPnnxOperator "O" "pnnx.Output" [edge "1" "A" ["C"%string; "O"%string]] [] [] []) ].

Definition load (ops : PnnxGraph) (param_path bin_path : string) : Z * PnnxGraph :=
  (0, ops).

(** A handler that hands its inputs over as its outputs. *)
Definition identity : Layer := mkLayer "identity" (λ inputs outputs, (kInferSuccess, inputs)).

Definition factory (o : RuntimeOperator) : option Layer := Some identity.

Definition fresh : RuntimeGraph :=
  mkRuntimeGraph "" "" "model.param" "model.bin" NeedInit None [] [] [] [] [] [].

(** The caller's input tensor, placed in the tensor heap. *)
Definition input_tensor : Tensor := mkTensor 1 1 3 [1; 2; 3].

Definition with_input (g : RuntimeGraph) : RuntimeGraph :=
  with_tensor_heap (tensor_heap g ++ [input_tensor]) g.

Definition chain_graph : RuntimeGraph :=
  Eval vm_compute in with_input (Build (load chain) factory "in" "out" fresh).2.

Definition diamond_graph : RuntimeGraph :=
  Eval vm_compute in with_input (Build (load diamond) factory "I" "O" fresh).2.

Definition converging_graph : RuntimeGraph :=
  Eval vm_compute in with_input (Build (load converging) factory "I" "O" fresh).2.

Definition twice_graph : RuntimeGraph :=
  Eval vm_compute in with_input (Build (load twice) factory "I" "O" fresh).2.

Definition starved_graph : RuntimeGraph :=
  Eval vm_compute in with_input (Build (load starved) factory "I" "O" fresh).2.

(** The reference of the caller's tensor in a graph. *)
Definition input_of (g : RuntimeGraph) : list tensor_ref := [pred (length (tensor_heap g))].
Definition chain_input : list tensor_ref := Eval vm_compute in input_of chain_graph.
Definition diamond_input : list tensor_ref := Eval vm_compute in input_of diamond_graph.
Definition starved_input : list tensor_ref := Eval vm_compute in input_of starved_graph.

(** The pass over the graph with the starved node, run to its end. *)
Definition starved_pass : outcome (list tensor_ref) * Sched :=
  Eval vm_compute in run_Forward 10 starved_input false starved_graph.

(** The chain, built and in state [Complete]. *)
Definition chain_built : RuntimeGraph := Eval vm_compute in (Build (load chain) factory "in" "out" fresh).2.

(** The chain with operands of shape [1, 3]. *)
Definition flat_edge (n producer : string) (consumers : list string) : option PnnxOperand :=
  Some (mkPnnxOperand n 1 [1; 3] producer consumers).

Definition flat_chain : PnnxGraph :=
  [ Some (mkPnnxOperator "in" "pnnx.Input" [] [flat_edge "0" "in" ["A"%string]] [] []);
    Some (mkPnnxOperator "A" "nn.Identity" [flat_edge "0" "in" ["A"%string]]
                         [flat_edge "1" "A" ["B"%string]] [] []);
    Some (mkPnnxOperator "B" "nn.Identity" [flat_edge "1" "A" ["B"%string]]
                         [flat_edge "2" "B" ["out"%string]] [] []);
    Some (mkPnnxOperator "out" "pnnx.Output" [flat_edge "2" "B" ["out"%string]] [] [] []) ].

Definition flat_chain_built : RuntimeGraph :=
  Eval vm_compute in (Build (load flat_chain) factory "in" "out" fresh).2.

(** The chain after [Init], before any buffer or output operand exists. *)
Definition chain_initialised : RuntimeGraph := Eval vm_compute in (Init (load chain) fresh).2.

(** A graph that holds a single operand of shape [2, 3] and no buffer. *)
Definition flat_operand : RuntimeOperand := mkRuntimeOperand "x" [2; 3] [] kTypeFloat32.

Definition one_operand : RuntimeGraph :=
  mkRuntimeGraph "" "" "" "" NeedBuild None [] [] [] [] [flat_operand] [].

End Examples.

(** ** Vocabulary of the statements *)

(** The number of distinct producers of a node: the size of its input-operand
    map (its ordered input sequence may be longer). *)
Definition producers (o : RuntimeOperator) : Z := Z.of_nat (StdMap.size (input_operands o)).

(** The node's counter equals its number of distinct producers. *)
Definition ready_in (g : RuntimeGraph) (n : op_ref) : Prop :=
  ∃ o, operator_heap g !! n = Some o ∧ meet_num o = producers o.

(** The node's counter has reached its number of distinct producers. *)
Definition reached (h : list RuntimeOperator) (n : op_ref) : Prop :=
  ∃ o, h !! n = Some o ∧ producers o ≤ meet_num o.

(** The nodes whose handler a trace invokes, and the nodes it pushes. *)
Fixpoint invoked (tr : list Event) : list op_ref :=
  match tr with
  | [] => []
  | EvLayerForward n _ :: tr' => n :: invoked tr'
  | _ :: tr' => invoked tr'
  end.

Fixpoint pushed_by_delivery (tr : list Event) : list op_ref :=
  match tr with
  | [] => []
  | EvDeliver _ c _ _ true :: tr' => c :: pushed_by_delivery tr'
  | _ :: tr' => pushed_by_delivery tr'
  end.

Definition is_retry (e : Event) : bool :=
  match e with EvRetry _ => true | _ => false end.

(** A computation leaves a property of the state in place, whatever its outcome. *)
Definition preserves {S A} (I : S → Prop) (m : M S A) : Prop :=
  ∀ s, I s → I (m s).2.

(** Two heaps of nodes that differ in the counters only. *)
Definition same_wiring (h h' : list RuntimeOperator) : Prop :=
  with_meet_num 0 <$> h = with_meet_num 0 <$> h'.

(** *** The loop invariant of the scheduler *)

(** What holds of each event when it happens. *)
Definition event_ok (e : Event) : Prop :=
  match e with
  | EvDequeue n g => reached (operator_heap g) n
  | EvRetry _ => False
  | EvLayerForward n g => ready_in g n
  | EvDeliver p c q g pushed =>
      ∃ o, operator_heap g !! c = Some o ∧
           (pushed = true ↔ meet_num o = producers o) ∧
           (pushed = true → c ∉ q)
  end.

Record sched_inv (s : Sched) : Prop := mk_sched_inv {
  inv_queue : Forall (reached (operator_heap (graph s))) (operator_queue s);
  inv_queue_nodup : NoDup (operator_queue s);
  inv_invoked : Forall (λ n, reached (operator_heap (graph s)) n ∧ n ∉ operator_queue s)
                       (invoked (trace s));
  inv_invoked_nodup : NoDup (invoked (trace s));
  inv_pushed : Forall (reached (operator_heap (graph s))) (pushed_by_delivery (trace s));
  inv_pushed_nodup : NoDup (pushed_by_delivery (trace s));
  inv_events : Forall event_ok (trace s)
}.


(** The nodes whose counter is below their number of producers. *)
Definition unready (h : list RuntimeOperator) : nat :=
  length (filter (λ o, meet_num o < producers o) h).

Definition measure (s : Sched) : nat :=
  (length (operator_queue s) + unready (operator_heap (graph s)))%nat.


(** A computation without a fuel-bounded loop always ends. *)
Definition finishes {S A} (m : M S A) : Prop := ∀ s, (m s).1 ≠ NoFuel.

(** A computation that only reads the state. *)
Definition pure {S A} (m : M S A) : Prop := ∀ s, (m s).2 = s.

(** The outcome of an iteration that ends with a propagation. *)
Definition go_on_after (r : outcome unit) : outcome bool :=
  match r with
  | Ret _ => Ret true
  | Fatal e => Fatal e
  | NoFuel => NoFuel
  end.

Definition aborted {A} (r : outcome A) : Prop :=
  match r with Ret _ => False | _ => True end.

(** What a whole pass guarantees of its trace. *)
Record pass_ok (tr : list Event) : Prop := mk_pass_ok {
  pass_events : Forall event_ok tr;
  pass_invoked : NoDup (invoked tr);
  pass_pushed : NoDup (pushed_by_delivery tr)
}.

(** The counter of node [n] is zero. *)
Definition counter_zero (g : RuntimeGraph) (n : op_ref) : Prop :=
  ∃ op, operator_heap g !! n = Some op ∧ meet_num op = 0.

(** *** Shapes and buffers *)

(** The values an [int32_t] holds. *)
Definition int32 (z : Z) : Prop := - 2 ^ 31 ≤ z < 2 ^ 31.

(** The dimensions (channels, rows, columns) of a buffer of the declared
    shape: those of [b, c, h, w], or 1 x f x 1 for [b, f], as [uint32_t]. *)
Definition expected_dims (shapes : list Z) : list Z :=
  match shapes with
  | [_; c; h; w] => [u32 c; u32 h; u32 w]
  | [_; f] => [1; u32 f; 1]
  | _ => []
  end.

(** The zero-filled buffer the passes allocate for the declared shape. *)
Definition fresh_buffer (shapes : list Z) : Tensor :=
  match shapes with
  | [_; c; h; w] => Tensor_new c h w
  | [_; f] => Tensor_new 1 f 1
  | _ => Tensor_new 0 0 0
  end.

(** The buffer behind [t] has the dimensions of the declared shape. *)
Definition buffer_fits (g : RuntimeGraph) (shapes : list Z) (t : tensor_ref) : Prop :=
  ∃ tensor, tensor_heap g !! t = Some tensor ∧ Tensor_shapes tensor = expected_dims shapes.

Definition rank_ok (shapes : list Z) : Prop :=
  length shapes = 2%nat ∨ length shapes = 4%nat.




(** An existing output operand agrees with the descriptor's shape: one buffer
    per batch element, float32, the same shape vector. *)
Definition agrees (out : RuntimeOperand) (shape : list Z) : Prop :=
  ∃ batch, shape !! 0%nat = Some batch ∧
    Z.of_nat (length (datas out)) = batch ∧
    operand_type out = kTypeFloat32 ∧
    shapes out = shape.


(** *** Nodes and edges *)

(** A node without its bound handler and its output operand: its name, type,
    input operands, consumer names and edges, parameters, weights, counter. *)
Definition strip (o : RuntimeOperator) : RuntimeOperator :=
  with_layer None (with_output_operands None o).

(** The node list of a graph and the nodes behind it. *)
Definition nodes_of (g : RuntimeGraph) : list op_ref * list RuntimeOperator :=
  (operators_ g, strip <$> operator_heap g).

(** A computation that never fails with [bad]. *)
Definition avoids {S A} (bad : Failure) (m : M S A) : Prop :=
  ∀ s, (m s).1 ≠ Fatal bad.

(** *** Well-formed graphs *)

(** The consumers a node has an edge to. *)
Definition targets (h : list RuntimeOperator) (p : op_ref) : list op_ref :=
  match h !! p with
  | Some po => StdMap.values (output_operators po)
  | None => []
  end.

(** The consumer lists the producer's name among its input operands. *)
Definition listed (h : list RuntimeOperator) (p c : op_ref) : bool :=
  match h !! p, h !! c with
  | Some po, Some co => bool_decide (is_Some (StdMap.find (name po) (input_operands co)))
  | _, _ => false
  end.

(** A propagation from [p] delivers to [c]. *)
Definition delivers (h : list RuntimeOperator) (p c : op_ref) : bool :=
  bool_decide (c ∈ targets h p) && listed h p c.

(** How many of the nodes [done] deliver to [c]. *)
Definition deliveries (h : list RuntimeOperator) (done : list op_ref) (c : op_ref) : nat :=
  length (filter (λ p, delivers h p c) done).

(** A node taken from the queue is ready in the graph it is taken in. *)
Definition dequeue_ready (e : Event) : Prop :=
  match e with
  | EvDequeue n g => ready_in g n
  | _ => True
  end.

(** A graph as the builder makes it from descriptors with distinct names whose
    input sentinel takes no input, before a pass. *)
Record well_formed (g : RuntimeGraph) : Prop := mk_well_formed {
  wf_counters : Forall (λ o, meet_num o = 0) (operator_heap g);
  wf_names : NoDup (name <$> operator_heap g);
  wf_edges : Forall (λ o, NoDup (StdMap.values (output_operators o))) (operator_heap g);
  wf_input : ∀ i o,
    StdMap.find (input_name_ g) (input_operators_maps_ g) = Some i →
    operator_heap g !! i = Some o → input_operands o = []
}.

(** The node takes no input. *)
Definition no_inputs (h : list RuntimeOperator) (i : op_ref) : Prop :=
  ∀ o, h !! i = Some o → input_operands o = [].


(** What a delivery keeps, whatever its outcome: the input sentinel stays out
    of the queue, no handler is invoked, no node is taken from the queue. *)
Definition delivery_frame (h0 : list RuntimeOperator) (i : op_ref) (v : list op_ref)
    (s : Sched) : Prop :=
  same_wiring h0 (operator_heap (graph s)) ∧
  (i ∉ operator_queue s) ∧
  invoked (trace s) = v ∧
  Forall dequeue_ready (trace s).

(** The loop invariant of a pass over a well-formed graph. *)
Definition wf_inv (h0 : list RuntimeOperator) (i : op_ref) (s : Sched) : Prop :=
  delivery_frame h0 i (invoked (trace s)) s ∧
  (i ∉ invoked (trace s)) ∧
  ∀ c o, operator_heap (graph s) !! c = Some o →
    meet_num o = Z.of_nat (deliveries h0 (i :: invoked (trace s)) c).

(** *** The shape passes as a whole *)

(** The input operands the input pass visits, in the order it visits them:
    those of every node of the list. *)
Definition visited_operands (g : RuntimeGraph) (operators : list op_ref)
    : list operand_ref :=
  operators ≫= λ op,
    match operator_heap g !! op with
    | Some o => StdMap.values (input_operands o)
    | None => []
    end.








(** *** Frames *)

(** A computation leaves a component of the graph as it was, whatever its
    outcome. *)
Definition keeps {A B} (f : RuntimeGraph → B) (m : M RuntimeGraph A) : Prop :=
  ∀ v, preserves (λ g, f g = v) m.

(** The same for a computation of a pass. *)
Definition keeps_in_pass {A B} (f : RuntimeGraph → B) (m : M Sched A) : Prop :=
  ∀ v, preserves (λ s, f (graph s) = v) m.

(** A graph without the counters of its nodes and the contents of its
    buffers: what is left is the node list, the sentinel maps, the state, the
    names, every node up to its counter, every operand, and the number of
    buffers. *)
Definition skeleton (g : RuntimeGraph) : RuntimeGraph * nat :=
  (with_operator_heap (with_meet_num 0 <$> operator_heap g) (with_tensor_heap [] g),
   length (tensor_heap g)).


(** *** Maps *)

(** Strictly increasing keys, the order a [std::map] keeps its entries in. *)
Fixpoint increasing (ks : list string) : Prop :=
  match ks with
  | [] => True
  | k :: ks' => Forall (λ k', String.compare k k' = Lt) ks' ∧ increasing ks'
  end.

(** The entries are inserted one after the other, from the left. *)
Definition insert_all {V} (kvs : list (string * V)) (m : StdMap.t V) : StdMap.t V :=
  foldl (λ m kv, StdMap.insert kv.1 kv.2 m) m kvs.

(** The first value a list of entries gives a key. *)
Fixpoint first_of {V} (k : string) (kvs : list (string * V)) : option V :=
  match kvs with
  | [] => None
  | (k', v) :: kvs' => if String.eqb k k' then Some v else first_of k kvs'
  end.

(** *** The builder *)

(** The pointers of a vector that are not null. *)
Definition non_null {A} (l : list (option A)) : list A := omap id l.

(** The operand [InitInputOperators] makes of an input reference. *)
Definition operand_of (input : PnnxOperand) : RuntimeOperand :=
  mkRuntimeOperand (producer_name input) (pnnx_operand_shape input) [] kTypeFloat32.

(** Lines 155-190: the body of the loop of [Init] over the descriptors. *)
Definition init_operator (op : option PnnxOperator) : M RuntimeGraph unit :=
  match op with
  | None => mret tt
  | Some op =>
      runtime_operator ← new_operator RuntimeOperator_default;
      update_operator runtime_operator (with_name_type (pnnx_name op) (pnnx_type op));;
      (if negb (is_nil (pnnx_inputs op))
       then InitInputOperators (pnnx_inputs op) runtime_operator else mret tt);;
      (if negb (is_nil (pnnx_outputs op))
       then InitOutputOperators (pnnx_outputs op) runtime_operator else mret tt);;
      (if negb (StdMap.is_empty (pnnx_attrs op))
       then InitGraphAttrs (pnnx_attrs op) runtime_operator else mret tt);;
      (if negb (StdMap.is_empty (pnnx_params op))
       then InitGraphParams (pnnx_params op) runtime_operator else mret tt);;
      modify (λ g, with_operators (operators_ g ++ [runtime_operator]) g)
  end.

(** Lines 154-206: what [Init] does with the descriptors it has loaded. *)
Definition init_operators (operators : list (option PnnxOperator)) : M RuntimeGraph bool :=
  modify (with_operators []);;
  for_each operators init_operator;;
  g ← get;
  for_each (operators_ g) (wire_operator (operators_ g));;
  modify (with_graph_state NeedBuild);;
  mret true.

(** The entries [InitGraphParams] and [InitGraphAttrs] insert. *)
Definition parameter_entry (pair : string * PnnxParameter) : string * RuntimeParameter :=
  (pair.1, default RuntimeParameterUnknown (RuntimeParameter_of pair.2)).

Definition attribute_of (a : PnnxAttribute) : RuntimeAttribute :=
  mkRuntimeAttribute (a_data a) (a_shape a) kTypeFloat32.

Definition attribute_entry (pair : string * PnnxAttribute) : string * RuntimeAttribute :=
  (pair.1, attribute_of pair.2).

(** The parameter kinds the builder knows. *)
Definition known_parameter (p : PnnxParameter) : Prop := 0 ≤ p_type p ≤ 7.


(** The consumer edges [wire_operator] inserts at node [p], in order: one for
    every other node of the list whose name is among the consumer names. *)
Definition edges_of (h : list RuntimeOperator) (p : op_ref) (names : list string)
    (operators : list op_ref) : list (string * op_ref) :=
  omap (λ q, if decide (q = p) then None
             else h !! q ≫= λ oq,
                  if bool_decide (name oq ∈ names) then Some (name oq, q) else None)
       operators.

(** A descriptor the builder accepts: float32 inputs, float32 weights,
    parameters of a known kind. *)
Definition descriptor_ok (d : PnnxOperator) : Prop :=
  Forall (λ i, pnnx_operand_type i = 1) (non_null (pnnx_inputs d)) ∧
  Forall (λ kv, a_type kv.2 = 1) (pnnx_attrs d) ∧
  Forall (λ kv, known_parameter kv.2) (pnnx_params d).

(** The node [Init] makes of a descriptor, before the edges are added; [n] is
    the reference of the first operand made for it. *)
Definition node_of (d : PnnxOperator) (n : nat) : RuntimeOperator :=
  let ins := non_null (pnnx_inputs d) in
  let refs := seq n (length ins) in
  mkRuntimeOperator (pnnx_name d) (pnnx_type d) None
    (concat (consumer_names <$> non_null (pnnx_outputs d))) None
    (insert_all (zip (producer_name <$> ins) refs) []) refs []
    (insert_all (parameter_entry <$> pnnx_params d) [])
    (insert_all (attribute_entry <$> pnnx_attrs d) []) 0.

Fixpoint nodes_of_descriptors (ds : list PnnxOperator) (n : nat) : list RuntimeOperator :=
  match ds with
  | [] => []
  | d :: ds' =>
      node_of d n :: nodes_of_descriptors ds' (n + length (non_null (pnnx_inputs d)))
  end.

Definition operands_of_descriptors (ds : list PnnxOperator) : list RuntimeOperand :=
  ds ≫= λ d, operand_of <$> non_null (pnnx_inputs d).

(** A node with the consumer edges [wire_operator] gives it. *)
Definition wired (h : list RuntimeOperator) (ops : list op_ref) (p : op_ref)
    (o : RuntimeOperator) : RuntimeOperator :=
  with_output_operators
    (insert_all (edges_of h p (output_names o) ops) (output_operators o)) o.

(** The name, the type and the handler of every node. *)
Definition bindings (g : RuntimeGraph) : list (string * string * option Layer) :=
  (λ o, (name o, type o, layer o)) <$> operator_heap g.

(** What the binding loop of [Build] has established once it has gone through
    the nodes [done]: their handlers are bound, and the sentinel maps hold
    exactly the sentinels among them, under their names. *)
Record bound (done : list op_ref) (g : RuntimeGraph) : Prop := mk_bound {
  bound_layers : ∀ p nd, p ∈ done → operator_heap g !! p = Some nd →
    type nd ≠ "pnnx.Input"%string → type nd ≠ "pnnx.Output"%string → is_Some (layer nd);
  bound_inputs : ∀ k p, (k, p) ∈ input_operators_maps_ g →
    p ∈ done ∧ ∃ nd, operator_heap g !! p = Some nd ∧
                     type nd = "pnnx.Input"%string ∧ name nd = k;
  bound_outputs : ∀ k p, (k, p) ∈ output_operators_maps_ g →
    p ∈ done ∧ ∃ nd, operator_heap g !! p = Some nd ∧
                     type nd = "pnnx.Output"%string ∧ name nd = k;
  bound_all_inputs : ∀ p nd, p ∈ done → operator_heap g !! p = Some nd →
    type nd = "pnnx.Input"%string →
    is_Some (StdMap.find (name nd) (input_operators_maps_ g));
  bound_all_outputs : ∀ p nd, p ∈ done → operator_heap g !! p = Some nd →
    type nd = "pnnx.Output"%string →
    is_Some (StdMap.find (name nd) (output_operators_maps_ g))
}.

(** An operand as it was, or as it was but for the buffers it has been given
    when it had none. *)
Definition given_buffers (o o' : RuntimeOperand) : Prop :=
  o' = o ∨ (datas o = [] ∧ with_datas [] o' = o).

(** [g'] is [g] with buffers added at the end of the buffer heap and given to
    operands that had none; nothing else differs. *)
Definition allocated (g g' : RuntimeGraph) : Prop :=
  with_tensor_heap [] (with_operand_heap [] g') = with_tensor_heap [] (with_operand_heap [] g) ∧
  tensor_heap g `prefix_of` tensor_heap g' ∧
  Forall2 given_buffers (operand_heap g) (operand_heap g').

(** *** Further small graphs and descriptors *)

Module Cases.

(** The built chain, asked for an input node that does not exist. *)
Definition misnamed_chain : RuntimeGraph :=
  Eval vm_compute in with_names "nowhere" "out" Examples.chain_built.


(** A node fed twice by the node [A]. *)
Definition twice_inputs : list (option PnnxOperand) :=
  [Examples.edge "1" "A" ["C"%string]; None; Examples.edge "1" "A" ["C"%string]].

(** An input reference whose element type is not float32. *)
Definition int_input : option PnnxOperand :=
  Some (mkPnnxOperand "1" 2 Examples.shape "A" ["C"%string]).

Definition stride : PnnxParameter := mkPnnxParameter 2 false 2 0 "" [] [] [].
Definition odd_parameter : PnnxParameter := mkPnnxParameter 8 false 0 0 "" [] [] [].
Definition weight : PnnxAttribute := mkPnnxAttribute 1 [2] [0; 0].
Definition odd_weight : PnnxAttribute := mkPnnxAttribute 3 [2] [0; 0].

End Cases.

(** ** The monad *)

Lemma bind_inv {S A B} (m : M S A) (f : A → M S B) s r s' :
  (m ≫= f) s = (r, s') →
  (∃ a s1, m s = (Ret a, s1) ∧ f a s1 = (r, s')) ∨
  (∃ e, m s = (Fatal e, s') ∧ r = Fatal e) ∨
  (m s = (NoFuel, s') ∧ r = NoFuel).
Proof.
  unfold mbind, M_bind. destruct (m s) as [[a|e|] s1]; intros H.
  - left. eauto.
  - right. left. inversion H. eauto.
  - right. right. inversion H. eauto.
Qed.

Lemma bind_Ret {S A B} (m : M S A) (f : A → M S B) s a s1 :
  m s = (Ret a, s1) → (m ≫= f) s = f a s1.
Proof. intros H. unfold mbind, M_bind. by rewrite H. Qed.

Lemma bind_Fatal {S A B} (m : M S A) (f : A → M S B) s e s1 :
  m s = (Fatal e, s1) → (m ≫= f) s = (Fatal e, s1).
Proof. intros H. unfold mbind, M_bind. by rewrite H. Qed.

Section Preserves.
Context {S : Type} (I : S → Prop).

Lemma preserves_ret {A} (a : A) : preserves I (mret a : M S A).
Proof. by intros s. Qed.

Lemma preserves_fatal {A} e : preserves I (fatal e : M S A).
Proof. by intros s. Qed.

Lemma preserves_get : preserves I (get : M S S).
Proof. by intros s. Qed.

Lemma preserves_bind {A B} (m : M S A) (f : A → M S B) :
  preserves I m → (∀ a, preserves I (f a)) → preserves I (m ≫= f).
Proof.
  intros Hm Hf s Hs. specialize (Hm s Hs). unfold mbind, M_bind.
  destruct (m s) as [[a|e|] s1]; simpl in *; auto. by apply Hf.
Qed.

Lemma preserves_CHECK b e : preserves I (CHECK b e : M S unit).
Proof. by destruct b; intros s. Qed.

Lemma preserves_at {A} (v : list A) i : preserves I (at_ v i : M S A).
Proof. unfold at_. by destruct (v !! i); intros s. Qed.

Lemma preserves_for_each {A} (l : list A) (body : A → M S unit) :
  (∀ x, preserves I (body x)) → preserves I (for_each l body).
Proof.
  intros Hb. induction l as [|x l IH]; simpl.
  - apply preserves_ret.
  - apply preserves_bind; auto.
Qed.

Lemma preserves_and_then (c1 c2 : M S bool) :
  preserves I c1 → preserves I c2 → preserves I (and_then c1 c2).
Proof.
  intros H1 H2. apply preserves_bind; [done|]. intros []; [done|apply preserves_ret].
Qed.

Lemma preserves_modify (f : S → S) :
  (∀ s, I s → I (f s)) → preserves I (modify f).
Proof. intros H s Hs. by apply H. Qed.
End Preserves.

Create HintDb preserves.
#[export] Hint Resolve preserves_ret preserves_fatal preserves_get preserves_CHECK
  preserves_at preserves_and_then : preserves.

(** Steps through a computation: binds, loops and branches. *)
Ltac preserves_step :=
  first
    [ apply preserves_bind; [|intros ?]
    | apply preserves_for_each; intros ?
    | apply preserves_ret | apply preserves_fatal | apply preserves_get
    | apply preserves_CHECK | apply preserves_at
    | apply preserves_and_then
    | match goal with
      | |- preserves _ (if ?b then _ else _) => destruct b
      | |- preserves _ (match ?x with _ => _ end) => destruct x
      end ].

(** ** Which heap a computation writes *)

(** The computation writes no operator node. *)
Definition reads_operators {A} (m : G A) : Prop :=
  ∀ h, preserves (λ g, operator_heap g = h) m.

Lemma reads_operators_eq {A} (m : G A) g :
  reads_operators m → operator_heap (m g).2 = operator_heap g.
Proof. intros H. by apply (H (operator_heap g) g). Qed.

Lemma deref_operator_reads p : reads_operators (deref_operator p).
Proof. intros h g Hg. unfold deref_operator. by destruct (_ !! _). Qed.

Lemma deref_operand_reads p : reads_operators (deref_operand p).
Proof. intros h g Hg. unfold deref_operand. by destruct (_ !! _). Qed.

Lemma deref_tensor_reads p : reads_operators (deref_tensor p).
Proof. intros h g Hg. unfold deref_tensor. by destruct (_ !! _). Qed.

Lemma update_operand_reads p f : reads_operators (update_operand p f).
Proof. intros h g Hg. unfold update_operand. by destruct (_ !! _). Qed.

Lemma update_tensor_reads p f : reads_operators (update_tensor p f).
Proof. intros h g Hg. unfold update_tensor. by destruct (_ !! _). Qed.

Lemma new_operand_reads o : reads_operators (new_operand o).
Proof. by intros h g Hg. Qed.

Lemma new_tensor_reads t : reads_operators (new_tensor t).
Proof. by intros h g Hg. Qed.

#[export] Hint Resolve deref_operator_reads deref_operand_reads deref_tensor_reads
  update_operand_reads update_tensor_reads new_operand_reads new_tensor_reads : preserves.

Ltac reads_auto :=
  intros ?; repeat (first [ match goal with H : reads_operators _ |- _ => apply H end
                          | apply deref_operator_reads | apply deref_operand_reads
                          | apply deref_tensor_reads | apply update_operand_reads
                          | apply update_tensor_reads | apply new_operand_reads
                          | apply new_tensor_reads | preserves_step ]).

Lemma CheckOperatorReady_reads op : reads_operators (CheckOperatorReady op).
Proof. unfold CheckOperatorReady. reads_auto. Qed.

Lemma SetOpInputData_reads src dest : reads_operators (SetOpInputData src dest).
Proof. unfold SetOpInputData. reads_auto. Qed.

Lemma gather_inputs_reads l : reads_operators (gather_inputs l).
Proof. induction l as [|p l IH]; simpl; reads_auto. Qed.

Lemma read_tensors_reads l : reads_operators (read_tensors l).
Proof. induction l as [|p l IH]; simpl; reads_auto. Qed.

Lemma run_layer_reads l ins outs : reads_operators (run_layer l ins outs).
Proof.
  unfold run_layer. pose proof read_tensors_reads as Hr. unfold reads_operators in Hr.
  intros h.
  apply preserves_bind; [apply Hr|intros ?].
  apply preserves_bind; [apply Hr|intros ?].
  revert h. reads_auto.
Qed.

(** ** Steps of a pass *)

Lemma liftG_eq {A} (m : M RuntimeGraph A) s :
  liftG m s = ((m (graph s)).1, mkSched (m (graph s)).2 (operator_queue s) (trace s)).
Proof. reflexivity. Qed.

Lemma Sched_eta s : mkSched (graph s) (operator_queue s) (trace s) = s.
Proof. by destruct s. Qed.

Lemma with_operator_heap_id g : with_operator_heap (operator_heap g) g = g.
Proof. by destruct g. Qed.

Lemma liftG_deref_operator p s r s' :
  liftG (deref_operator p) s = (r, s') →
  s' = s ∧ match operator_heap (graph s) !! p with
           | Some o => r = Ret o
           | None => r = Fatal ErrNullDeref
           end.
Proof.
  rewrite liftG_eq. unfold deref_operator.
  destruct (_ !! _); simpl; rewrite Sched_eta; intros H; by inversion H.
Qed.

Lemma liftG_deref_operand p s r s' :
  liftG (deref_operand p) s = (r, s') →
  s' = s ∧ match operand_heap (graph s) !! p with
           | Some o => r = Ret o
           | None => r = Fatal ErrNullDeref
           end.
Proof.
  rewrite liftG_eq. unfold deref_operand.
  destruct (_ !! _); simpl; rewrite Sched_eta; intros H; by inversion H.
Qed.

Lemma liftG_update_operator p f s r s' :
  liftG (update_operator p f) s = (r, s') →
  match operator_heap (graph s) !! p with
  | Some o => r = Ret tt ∧
      s' = mkSched (with_operator_heap (<[p := f o]> (operator_heap (graph s))) (graph s))
                   (operator_queue s) (trace s)
  | None => r = Fatal ErrNullDeref ∧ s' = s
  end.
Proof.
  rewrite liftG_eq. unfold update_operator.
  destruct (_ !! _); simpl; intros H; inversion H; auto. by rewrite Sched_eta.
Qed.

Lemma liftG_reads {A} (m : M RuntimeGraph A) s r s' :
  reads_operators m → liftG m s = (r, s') →
  operator_heap (graph s') = operator_heap (graph s) ∧
  operator_queue s' = operator_queue s ∧ trace s' = trace s.
Proof.
  intros Hm. rewrite liftG_eq. intros H. inversion H. simpl.
  split; [|done]. by apply reads_operators_eq.
Qed.

Lemma liftG_CheckOperatorReady p s r s' :
  liftG (CheckOperatorReady p) s = (r, s') →
  s' = s ∧ match operator_heap (graph s) !! p with
           | Some o => if meet_num o <=? producers o
                       then if 0 <=? meet_num o
                            then r = Ret (meet_num o =? producers o)
                            else r = Fatal ErrMeetNum
                       else r = Fatal ErrMeetNum
           | None => r = Fatal ErrNullDeref
           end.
Proof.
  destruct s as [g q tr].
  unfold liftG, CheckOperatorReady, deref_operator, mbind, M_bind, producers,
    le_size_t, eq_size_t. simpl.
  destruct (_ !! _) as [o|]; simpl.
  - destruct (0 <=? meet_num o); destruct (meet_num o <=? _); simpl;
      [destruct (_ =? _)|..]; simpl; intros H; by inversion H.
  - intros H; by inversion H.
Qed.

Ltac inv_bind H :=
  apply bind_inv in H as [(? & ? & ? & H)|[(? & ? & ->)|[? ->]]].

Lemma deliver_spec cur src next s r s' :
  deliver cur src next s = (r, s') →
  let h := operator_heap (graph s) in
  let q := operator_queue s in
  (operator_heap (graph s') = h ∧ operator_queue s' = q ∧ trace s' = trace s ∧
     (r = Ret tt → s' = s ∧ ∃ c nxt, h !! cur = Some c ∧ h !! next = Some nxt ∧
                     StdMap.find (name c) (input_operands nxt) = None)) ∨
  (∃ e nxt, r = Fatal e ∧ h !! next = Some nxt ∧
     operator_heap (graph s') = <[next := with_meet_num (meet_num nxt + 1) nxt]> h ∧
     operator_queue s' = q ∧ trace s' = trace s) ∨
  (∃ c nxt operand, r = Ret tt ∧ h !! cur = Some c ∧ h !! next = Some nxt ∧
     StdMap.find (name c) (input_operands nxt) = Some operand ∧
     operator_heap (graph s') = <[next := with_meet_num (meet_num nxt + 1) nxt]> h ∧
     let pushed := bool_decide (next ∉ q) && (meet_num nxt + 1 =? producers nxt) in
     operator_queue s' = (if pushed then q ++ [next] else q)%list ∧
     trace s' = (trace s ++ [EvDeliver cur next q (graph s') pushed])%list).
Proof.
  intros H h q. unfold deliver in H.
  apply bind_inv in H as [(c & s1 & E1 & H)|[(e & E1 & ->)|[E1 ->]]];
    apply liftG_deref_operator in E1 as [-> E1]; fold h in E1;
    destruct (h !! cur) as [c'|] eqn:Hcur; try discriminate; [|by left].
  injection E1 as <-.
  apply bind_inv in H as [(nxt & s1 & E2 & H)|[(e & E2 & ->)|[E2 ->]]];
    apply liftG_deref_operator in E2 as [-> E2]; fold h in E2;
    destruct (h !! next) as [nxt'|] eqn:Hnext; try discriminate; [|by left].
  injection E2 as <-.
  destruct (StdMap.find _ _) as [operand|] eqn:Hfind.
  2:{ left. inversion H. subst. repeat split; eauto. }
  apply bind_inv in H as [(dest & s1 & E3 & H)|[(e & E3 & ->)|[E3 ->]]];
    apply liftG_deref_operand in E3 as [-> E3];
    destruct (operand_heap _ !! operand) as [dest'|] eqn:Hdest; try discriminate; [|by left].
  injection E3 as <-.
  apply bind_inv in H as [([] & s1 & E4 & H)|[(e & E4 & ->)|[E4 ->]]];
    apply liftG_reads in E4 as (Eh & Eq & Et); try apply SetOpInputData_reads;
    [|by left|by left].
  apply bind_inv in H as [(s2 & s3 & E5 & H)|[(e & E5 & ->)|[E5 ->]]]; try discriminate.
  injection E5 as <- <-.
  fold h in Eh. fold q in Eq. rewrite Eq in H.
  assert (Hlt : (next < length h)%nat) by (by eapply lookup_lt_Some).
  apply bind_inv in H as [(pushed & s2 & E6 & H)|[(e & E6 & ->)|[E6 ->]]].
  - (* the counter block ran to its end *)
    assert (pushed = bool_decide (next ∉ q) && (meet_num nxt + 1 =? producers nxt) ∧
            operator_heap (graph s2) = h ∧
            operator_queue s2 = (if pushed then q ++ [next] else q)%list ∧
            trace s2 = trace s) as (Hp & Eh2 & Eq2 & Et2).
    { destruct (bool_decide (next ∉ q)) eqn:Hin; simpl.
      2:{ inversion E6. subst. by rewrite Eq. }
      apply bind_inv in E6 as [([] & s4 & E7 & E6)|[(e & E7 & E6)|[E7 E6]]]; try discriminate.
      apply liftG_update_operator in E7. rewrite Eh, Hnext in E7. destruct E7 as [_ ->].
      apply bind_inv in E6 as [(ready & s5 & E8 & E6)|[(e & E8 & E6)|[E8 E6]]]; try discriminate.
      apply liftG_CheckOperatorReady in E8 as [-> E8]. simpl in E8.
      rewrite list_lookup_insert_eq in E8 by (rewrite ?Eh; done).
      unfold producers in *. simpl in E8.
      destruct (meet_num nxt + 1 <=? _) eqn:Hle; [|discriminate].
      destruct (0 <=? meet_num nxt + 1) eqn:Hnn; [|discriminate]. injection E8 as ->.
      apply bind_inv in E6 as [([] & s6 & E9 & E6)|[(e & E9 & E6)|[E9 E6]]];
        [|by destruct (_ =? _)..].
      apply bind_inv in E6 as [([] & s7 & E10 & E6)|[(e & E10 & E6)|[E10 E6]]]; try discriminate.
      inversion E6; subst; clear E6.
      apply liftG_update_operator in E10.
      destruct (meet_num nxt + 1 =? _) eqn:Hready; inversion E9; subst; clear E9; simpl in *;
        rewrite list_lookup_insert_eq in E10 by (rewrite ?Eh; done); destruct E10 as [_ ->]; simpl.
      all: split; [done|]; (split; [|by rewrite Eq, Et]);
        rewrite list_insert_insert_eq; apply list_insert_id; rewrite Hnext; f_equal;
        destruct nxt; unfold with_meet_num; simpl; f_equal; lia. }
    apply bind_inv in H as [([] & s4 & E7 & H)|[(e & E7 & ->)|[E7 ->]]];
      apply liftG_update_operator in E7; rewrite Eh2, Hnext in E7; destruct E7 as [? ->];
      try discriminate.
    inversion H; subst s'; clear H. simpl.
    right. right. exists c, nxt, operand. rewrite <- Hp, Eq2, Et2. by repeat split.
  - (* abort inside the counter block *)
    destruct (bool_decide (next ∉ q)) eqn:Hin; [|discriminate].
    apply bind_inv in E6 as [([] & s4 & E7 & E6)|[(e' & E7 & E6)|[E7 E6]]];
      apply liftG_update_operator in E7; rewrite Eh, Hnext in E7; destruct E7 as [? E7];
      try discriminate.
    subst s4.
    apply bind_inv in E6 as [(ready & s5 & E8 & E6)|[(e' & E8 & E6)|[E8 E6]]].
    + apply liftG_CheckOperatorReady in E8 as [-> E8]. 
      apply bind_inv in E6 as [([] & s6 & E9 & E6)|[(e' & E9 & E6)|[E9 E6]]];
        [|by destruct ready..].
      apply bind_inv in E6 as [([] & s7 & E10 & E6)|[(e' & E10 & E6)|[E10 E6]]]; try discriminate.
      apply liftG_update_operator in E10.
      destruct ready; inversion E9; subst; clear E9; simpl in *;
        rewrite list_lookup_insert_eq in E10 by (rewrite ?Eh; done); by destruct E10.
    + apply liftG_CheckOperatorReady in E8 as [-> E8]. injection E6 as <-. simpl.
      right. left. exists e, nxt. rewrite Eq, Et. by repeat split.
    + apply liftG_CheckOperatorReady in E8 as [_ E8]. simpl in E8.
      rewrite list_lookup_insert_eq in E8 by (rewrite ?Eh; done).
      simpl in E8. by destruct (_ <=? _); [destruct (0 <=? _)|].
  - destruct (bool_decide (next ∉ q)) eqn:Hin; [|discriminate].
    apply bind_inv in E6 as [([] & s4 & E7 & E6)|[(e' & E7 & E6)|[E7 E6]]];
      apply liftG_update_operator in E7; rewrite Eh, Hnext in E7; destruct E7 as [? E7];
      try discriminate.
    subst s4.
    apply bind_inv in E6 as [(ready & s5 & E8 & E6)|[(e' & E8 & E6)|[E8 E6]]].
    + apply liftG_CheckOperatorReady in E8 as [-> E8]. 
      apply bind_inv in E6 as [([] & s6 & E9 & E6)|[(e' & E9 & E6)|[E9 E6]]];
        [|by destruct ready..].
      apply bind_inv in E6 as [([] & s7 & E10 & E6)|[(e' & E10 & E6)|[E10 E6]]]; try discriminate.
      apply liftG_update_operator in E10.
      destruct ready; inversion E9; subst; clear E9; simpl in *;
        rewrite list_lookup_insert_eq in E10 by (rewrite ?Eh; done); by destruct E10.
    + discriminate.
    + apply liftG_CheckOperatorReady in E8 as [_ E8]. simpl in E8.
      rewrite list_lookup_insert_eq in E8 by (rewrite ?Eh; done).
      simpl in E8. by destruct (_ <=? _); [destruct (0 <=? _)|].
Qed.


(** ** Propagation keeps the loop invariant *)

Lemma invoked_app tr tr' : invoked (tr ++ tr') = (invoked tr ++ invoked tr')%list.
Proof. induction tr as [|[] tr IH]; simpl; by rewrite ?IH. Qed.

Lemma pushed_by_delivery_app tr tr' :
  pushed_by_delivery (tr ++ tr') = (pushed_by_delivery tr ++ pushed_by_delivery tr')%list.
Proof. induction tr as [|[? ?|?|? ?|? ? ? ? []] tr IH]; simpl; by rewrite ?IH. Qed.

Lemma reached_bump h c o n :
  h !! c = Some o → reached h n →
  reached (<[c := with_meet_num (meet_num o + 1) o]> h) n.
Proof.
  intros Hc (o' & Hn & Hle). destruct (decide (c = n)) as [->|Hne].
  - exists (with_meet_num (meet_num o + 1) o). split.
    + apply list_lookup_insert_eq. by eapply lookup_lt_Some.
    + rewrite Hn in Hc. injection Hc as ->. unfold producers in *. simpl. lia.
  - exists o'. split; [|done]. by rewrite list_lookup_insert_ne.
Qed.

Lemma sched_inv_ext s s' :
  operator_heap (graph s') = operator_heap (graph s) →
  operator_queue s' = operator_queue s → trace s' = trace s →
  sched_inv s → sched_inv s'.
Proof. intros Eh Eq Et [? ? ? ? ? ? ?]. split; by rewrite ?Eh, ?Eq, ?Et. Qed.

Lemma deliver_inv cur src next : preserves sched_inv (deliver cur src next).
Proof.
  intros s Hs. destruct (deliver cur src next s) as [r s'] eqn:E. simpl.
  apply deliver_spec in E as [(Eh & Eq & Et & _)|[(e & nxt & -> & Hn & Eh & Eq & Et)|
    (c & nxt & operand & -> & Hc & Hn & Hf & Eh & Eq & Et)]].
  - by eapply sched_inv_ext.
  - destruct Hs as [H1 H2 H3 H4 H5 H6 H7]. split; rewrite ?Eh, ?Eq, ?Et; try done.
    + eapply Forall_impl; [done|]. intros n. by apply reached_bump.
    + eapply Forall_impl; [done|]. intros n [? ?]. split; [by apply reached_bump|done].
    + eapply Forall_impl; [done|]. intros n. by apply reached_bump.
  - destruct Hs as [H1 H2 H3 H4 H5 H6 H7]. simpl in Eq, Et.
    set (h := operator_heap (graph s)) in *. set (q := operator_queue s) in *.
    assert (Hlt : (next < length h)%nat) by (by eapply lookup_lt_Some).
    assert (Hnew : <[next := with_meet_num (meet_num nxt + 1) nxt]> h !! next
                   = Some (with_meet_num (meet_num nxt + 1) nxt))
      by (by apply list_lookup_insert_eq).
    assert (Hunready : meet_num nxt + 1 = producers nxt → ¬ reached h next).
    { intros Hm (o & Ho & Hle). rewrite Hn in Ho. injection Ho as <-. lia. }
    destruct (bool_decide (next ∉ q)) eqn:Hq; simpl in *.
    + apply bool_decide_eq_true in Hq.
      destruct (meet_num nxt + 1 =? producers nxt) eqn:Hm.
      * apply Z.eqb_eq in Hm.
        split; rewrite ?Eh, ?Eq, ?Et, ?invoked_app, ?pushed_by_delivery_app; simpl;
          rewrite ?app_nil_r.
        -- apply Forall_app. split.
           ++ eapply Forall_impl; [done|]. intros n. by apply reached_bump.
           ++ apply Forall_singleton. eexists. split; [done|]. unfold producers in *. simpl. lia.
        -- apply NoDup_app. split; [done|]. split; [|apply NoDup_singleton].
           intros x Hx ->%list_elem_of_singleton. done.
        -- eapply Forall_impl; [done|]. intros n [Hr Hnq]. split; [by apply reached_bump|].
           intros [?| ->%list_elem_of_singleton]%elem_of_app; [done|]. by apply Hunready.
        -- done.
        -- apply Forall_app. split.
           ++ eapply Forall_impl; [done|]. intros n. by apply reached_bump.
           ++ apply Forall_singleton. eexists. split; [done|]. unfold producers in *. simpl. lia.
        -- apply NoDup_app. split; [done|]. split; [|apply NoDup_singleton].
           intros x Hx ->%list_elem_of_singleton. apply Hunready; [done|].
           by eapply Forall_forall in H5.
        -- apply Forall_app. split; [done|]. apply Forall_singleton. simpl.
           rewrite Eh. eexists. split; [done|]. unfold producers in *. simpl. done.
      * apply Z.eqb_neq in Hm.
        split; rewrite ?Eh, ?Eq, ?Et, ?invoked_app, ?pushed_by_delivery_app; simpl;
          rewrite ?app_nil_r; try done.
        -- eapply Forall_impl; [done|]. intros n. by apply reached_bump.
        -- eapply Forall_impl; [done|]. intros n [? ?]. split; [by apply reached_bump|done].
        -- eapply Forall_impl; [done|]. intros n. by apply reached_bump.
        -- apply Forall_app. split; [done|]. apply Forall_singleton. simpl.
           rewrite Eh. eexists. split; [done|]. unfold producers in *. simpl.
           split; [|done]. split; [done|]. intros ?. lia.
    + apply bool_decide_eq_false in Hq. apply dec_stable in Hq.
      split; rewrite ?Eh, ?Eq, ?Et, ?invoked_app, ?pushed_by_delivery_app; simpl;
        rewrite ?app_nil_r; try done.
      * eapply Forall_impl; [done|]. intros n. by apply reached_bump.
      * eapply Forall_impl; [done|]. intros n [? ?]. split; [by apply reached_bump|done].
      * eapply Forall_impl; [done|]. intros n. by apply reached_bump.
      * apply Forall_app. split; [done|]. apply Forall_singleton. simpl.
        rewrite Eh. eexists. split; [done|]. unfold producers in *. simpl.
        split; [|done]. split; [done|]. intros Hm.
        eapply Forall_forall in H1; [|done]. destruct H1 as (o & Ho & Hle).
        rewrite Hn in Ho. injection Ho as <-. unfold producers in *. lia.
Qed.

Lemma liftG_inv {A} (m : M RuntimeGraph A) :
  reads_operators m → preserves sched_inv (liftG m).
Proof.
  intros Hm s Hs. destruct (liftG m s) as [r s'] eqn:E.
  apply liftG_reads in E as (? & ? & ?); [|done]. by eapply sched_inv_ext.
Qed.

Lemma ProbeNextLayer_inv cur src : preserves sched_inv (ProbeNextLayer cur src).
Proof.
  unfold ProbeNextLayer. apply preserves_bind.
  - apply liftG_inv, deref_operator_reads.
  - intros c. apply preserves_for_each. intros next. apply deliver_inv.
Qed.


(** ** The measure of the loop *)

Lemma filter_insert_length {A} (P : A → Prop) `{∀ x, Decision (P x)} (h : list A) c o o' :
  h !! c = Some o →
  (length (filter P (<[c := o']> h)) + (if decide (P o) then 1 else 0) =
   length (filter P h) + (if decide (P o') then 1 else 0))%nat.
Proof.
  revert c. induction h as [|x h IH]; intros [|c] Hc; try discriminate; simpl in *.
  - injection Hc as ->. rewrite !filter_cons.
    destruct (decide (P o)), (decide (P o')); simpl; lia.
  - specialize (IH c Hc). rewrite !filter_cons. destruct (decide (P x)); simpl; lia.
Qed.

Lemma unready_bump h c o :
  h !! c = Some o →
  (unready (<[c := with_meet_num (meet_num o + 1)%Z o]> h) +
     (if decide (meet_num o + 1 = producers o)%Z then 1 else 0) ≤ unready h)%nat.
Proof.
  intros Hc. unfold unready.
  pose proof (filter_insert_length (λ o, meet_num o < producers o) h c o
                (with_meet_num (meet_num o + 1) o) Hc) as E.
  unfold producers in *. simpl in E.
  repeat destruct (decide _); lia.
Qed.

Lemma deliver_measure cur src next s s' :
  deliver cur src next s = (Ret tt, s') → (measure s' ≤ measure s)%nat.
Proof.
  intros E.
  apply deliver_spec in E as [(Eh & Eq & Et & _)|[(e & nxt & ? & _)|
    (c & nxt & operand & _ & Hc & Hn & Hf & Eh & Eq & Et)]]; try discriminate.
  - unfold measure. by rewrite Eh, Eq.
  - unfold measure. rewrite Eh, Eq. pose proof (unready_bump _ _ _ Hn) as Hb.
    destruct (bool_decide _); simpl; [|lia].
    destruct (_ =? _) eqn:Hm.
    + apply Z.eqb_eq in Hm. rewrite length_app. simpl. destruct (decide _); [lia|done].
    + lia.
Qed.

Lemma for_each_measure {A} (l : list A) (body : A → M Sched unit) s s' :
  (∀ x s s', body x s = (Ret tt, s') → (measure s' ≤ measure s)%nat) →
  for_each l body s = (Ret tt, s') → (measure s' ≤ measure s)%nat.
Proof.
  intros Hb. revert s. induction l as [|x l IH]; intros s E; simpl in E.
  - by inversion E.
  - apply bind_inv in E as [([] & s1 & E1 & E)|[(? & ? & ?)|[? ?]]]; try discriminate.
    apply Hb in E1. apply IH in E. lia.
Qed.

Lemma ProbeNextLayer_measure cur src s s' :
  ProbeNextLayer cur src s = (Ret tt, s') → (measure s' ≤ measure s)%nat.
Proof.
  unfold ProbeNextLayer. intros E.
  apply bind_inv in E as [(c & s1 & E1 & E)|[(? & ? & ?)|[? ?]]]; try discriminate.
  apply liftG_deref_operator in E1 as [-> _].
  eapply for_each_measure; [|done]. intros. by eapply deliver_measure.
Qed.

Lemma CHECK_inv {S} b e (s : S) r s' :
  CHECK b e s = (r, s') → s' = s ∧ (if b then r = Ret tt else r = Fatal e).
Proof. destruct b; intros H; by inversion H. Qed.

Lemma measure_ext s s' :
  operator_heap (graph s') = operator_heap (graph s) →
  operator_queue s' = operator_queue s → measure s' = measure s.
Proof. intros Eh Eq. unfold measure. by rewrite Eh, Eq. Qed.


(** ** Everything but the scheduler loop ends *)

Section Finishes.
Context {S : Type}.

Lemma finishes_ret {A} (a : A) : finishes (mret a : M S A).
Proof. by intros s. Qed.

Lemma finishes_fatal {A} e : finishes (fatal e : M S A).
Proof. by intros s. Qed.

Lemma finishes_get : finishes (get : M S S).
Proof. by intros s. Qed.

Lemma finishes_modify f : finishes (modify f : M S unit).
Proof. by intros s. Qed.

Lemma finishes_bind {A B} (m : M S A) (f : A → M S B) :
  finishes m → (∀ a, finishes (f a)) → finishes (m ≫= f).
Proof.
  intros Hm Hf s. specialize (Hm s). unfold mbind, M_bind.
  destruct (m s) as [[a|e|] s1]; simpl in *; auto. apply Hf.
Qed.

Lemma finishes_CHECK b e : finishes (CHECK b e : M S unit).
Proof. by destruct b; intros s. Qed.

Lemma finishes_at {A} (v : list A) i : finishes (at_ v i : M S A).
Proof. unfold at_. by destruct (v !! i); intros s. Qed.

Lemma finishes_for_each {A} (l : list A) (body : A → M S unit) :
  (∀ x, finishes (body x)) → finishes (for_each l body).
Proof.
  intros Hb. induction l as [|x l IH]; simpl.
  - apply finishes_ret.
  - apply finishes_bind; auto.
Qed.
End Finishes.

Lemma finishes_NoFuel {S A} (m : M S A) s s' : finishes m → m s ≠ (NoFuel, s').
Proof. intros Hm E. specialize (Hm s). by rewrite E in Hm. Qed.

Lemma finishes_deref_operator p : finishes (deref_operator p).
Proof. intros g. unfold deref_operator. by destruct (_ !! _). Qed.

Lemma finishes_deref_operand p : finishes (deref_operand p).
Proof. intros g. unfold deref_operand. by destruct (_ !! _). Qed.

Lemma finishes_deref_tensor p : finishes (deref_tensor p).
Proof. intros g. unfold deref_tensor. by destruct (_ !! _). Qed.

Lemma finishes_update_operator p f : finishes (update_operator p f).
Proof. intros g. unfold update_operator. by destruct (_ !! _). Qed.

Lemma finishes_update_operand p f : finishes (update_operand p f).
Proof. intros g. unfold update_operand. by destruct (_ !! _). Qed.

Lemma finishes_update_tensor p f : finishes (update_tensor p f).
Proof. intros g. unfold update_tensor. by destruct (_ !! _). Qed.

Lemma finishes_liftG {A} (m : M RuntimeGraph A) : finishes m → finishes (liftG m).
Proof. intros Hm s. apply Hm. Qed.

Ltac finishes_auto :=
  repeat (first
    [ match goal with H : _ |- _ => apply H end
    | apply finishes_liftG
    | apply finishes_bind; [|intros ?]
    | apply finishes_for_each; intros ?
    | apply finishes_ret | apply finishes_fatal | apply finishes_get | apply finishes_modify
    | apply finishes_CHECK | apply finishes_at
    | apply finishes_deref_operator | apply finishes_deref_operand
    | apply finishes_deref_tensor | apply finishes_update_operator
    | apply finishes_update_operand | apply finishes_update_tensor
    | match goal with
      | |- finishes (if ?b then _ else _) => destruct b
      | |- finishes (match ?x with _ => _ end) => destruct x
      end ]).

Lemma finishes_CheckOperatorReady op : finishes (CheckOperatorReady op).
Proof. unfold CheckOperatorReady. finishes_auto. Qed.

Lemma finishes_SetOpInputData src dest : finishes (SetOpInputData src dest).
Proof. unfold SetOpInputData. finishes_auto. Qed.

Lemma finishes_gather_inputs l : finishes (gather_inputs l).
Proof. induction l as [|p l IH]; simpl; finishes_auto. Qed.

Lemma finishes_read_tensors l : finishes (read_tensors l).
Proof. induction l as [|p l IH]; simpl; finishes_auto. Qed.

Lemma finishes_run_layer l ins outs : finishes (run_layer l ins outs).
Proof.
  unfold run_layer. pose proof finishes_read_tensors.
  apply finishes_bind; [done|intros ?]. apply finishes_bind; [done|intros ?].
  finishes_auto.
Qed.

Lemma finishes_deliver cur src next : finishes (deliver cur src next).
Proof.
  unfold deliver, push_back, emit.
  pose proof finishes_SetOpInputData. pose proof finishes_CheckOperatorReady.
  finishes_auto.
Qed.

Lemma finishes_ProbeNextLayer cur src : finishes (ProbeNextLayer cur src).
Proof. unfold ProbeNextLayer. pose proof finishes_deliver. finishes_auto. Qed.


(** ** Computations that only read *)

Section Pure.
Context {S : Type}.

Lemma pure_ret {A} (a : A) : pure (mret a : M S A).
Proof. by intros s. Qed.

Lemma pure_fatal {A} e : pure (fatal e : M S A).
Proof. by intros s. Qed.

Lemma pure_bind {A B} (m : M S A) (f : A → M S B) :
  pure m → (∀ a, pure (f a)) → pure (m ≫= f).
Proof.
  intros Hm Hf s. specialize (Hm s). unfold mbind, M_bind.
  destruct (m s) as [[a|e|] s1]; simpl in *; subst; auto. apply Hf.
Qed.

Lemma pure_CHECK b e : pure (CHECK b e : M S unit).
Proof. by destruct b; intros s. Qed.

Lemma pure_at {A} (v : list A) i : pure (at_ v i : M S A).
Proof. unfold at_. by destruct (v !! i); intros s. Qed.
End Pure.

Lemma pure_deref_operator p : pure (deref_operator p).
Proof. intros g. unfold deref_operator. by destruct (_ !! _). Qed.

Lemma pure_deref_operand p : pure (deref_operand p).
Proof. intros g. unfold deref_operand. by destruct (_ !! _). Qed.

Lemma pure_deref_tensor p : pure (deref_tensor p).
Proof. intros g. unfold deref_tensor. by destruct (_ !! _). Qed.

Ltac pure_auto :=
  repeat (first
    [ match goal with H : _ |- _ => apply H end
    | apply pure_bind; [|intros ?]
    | apply pure_ret | apply pure_fatal | apply pure_CHECK | apply pure_at
    | apply pure_deref_operator | apply pure_deref_operand | apply pure_deref_tensor
    | match goal with
      | |- pure (if ?b then _ else _) => destruct b
      | |- pure (match ?x with _ => _ end) => destruct x
      end ]).

Lemma pure_CheckOperatorReady op : pure (CheckOperatorReady op).
Proof. unfold CheckOperatorReady. pure_auto. Qed.

Lemma pure_gather_inputs l : pure (gather_inputs l).
Proof. induction l as [|p l IH]; simpl; pure_auto. Qed.

Lemma liftG_pure {A} (m : M RuntimeGraph A) s r s' :
  pure m → liftG m s = (r, s') → s' = s.
Proof.
  intros Hm. rewrite liftG_eq. intros H. inversion H. rewrite Hm. by destruct s.
Qed.

(** ** One iteration of the scheduler loop *)

Lemma go_on_after_bind (m : M Sched unit) s r s' :
  (m ;; mret true) s = (r, s') → ∃ r1, m s = (r1, s') ∧ r = go_on_after r1.
Proof.
  intros E. apply bind_inv in E as [([] & s1 & E1 & E)|[(e & E1 & ->)|[E1 ->]]].
  - inversion E; subst. by exists (Ret tt).
  - by exists (Fatal e).
  - by exists NoFuel.
Qed.

Lemma iteration_spec i o inputs s r s' :
  iteration i o inputs s = (r, s') →
  match operator_queue s with
  | [] => r = Ret false ∧ s' = s
  | cur :: rest =>
      let g := graph s in
      let s1 := mkSched g rest (trace s) in
      if decide (cur = o) then r = Ret false ∧ s' = s1
      else if decide (cur = i) then
        ∃ r1, ProbeNextLayer cur inputs s1 = (r1, s') ∧ r = go_on_after r1
      else
        match operator_heap g !! cur with
        | None => aborted r ∧ s' = s1
        | Some c =>
            let s2 := mkSched g rest (trace s ++ [EvDequeue cur g]) in
            if decide (meet_num c < producers c) then
              if decide (0 ≤ meet_num c) then
                r = Ret true ∧
                s' = mkSched g (rest ++ [cur]) ((trace s ++ [EvDequeue cur g]) ++ [EvRetry cur])
              else aborted r ∧ s' = s2
            else if decide (producers c < meet_num c) then aborted r ∧ s' = s2
            else
              (aborted r ∧ s' = s2) ∨
              ∃ src s5,
                operator_heap (graph s5) = operator_heap g ∧
                operator_queue s5 = rest ∧
                trace s5 = (trace s ++ [EvDequeue cur g]) ++ [EvLayerForward cur g] ∧
                ((aborted r ∧ s' = s5) ∨
                 ∃ r1, ProbeNextLayer cur src s5 = (r1, s') ∧ r = go_on_after r1)
        end
  end.
Proof.
  intros E. unfold iteration in E. rewrite (bind_Ret get _ s s s eq_refl) in E.
  destruct (operator_queue s) as [|cur rest] eqn:Hq.
  { by inversion E. }
  set (g := graph s). set (s1 := mkSched g rest (trace s)).
  rewrite (bind_Ret (set_queue rest) _ s tt s1 eq_refl) in E.
  simpl. fold g. fold s1.
  destruct (decide (cur = o)) as [_|_].
  { by inversion E. }
  destruct (decide (cur = i)) as [_|_].
  { by apply go_on_after_bind. }
  apply bind_inv in E as [(c & s2 & E1 & E)|[(e & E1 & ->)|[E1 ->]]];
    apply liftG_deref_operator in E1 as [-> E1]; simpl in E1;
    destruct (operator_heap g !! cur) as [c'|] eqn:Hc; try discriminate; [|done].
  injection E1 as <-.
  set (s2 := mkSched g rest (trace s ++ [EvDequeue cur g])).
  rewrite (bind_Ret (emit (EvDequeue cur)) _ s1 tt s2 eq_refl) in E.
  apply bind_inv in E as [(has_ready & s3 & E1 & E)|[(e & E1 & ->)|[E1 ->]]];
    apply liftG_CheckOperatorReady in E1 as [-> E1]; simpl in E1; fold g in E1;
    rewrite Hc in E1; destruct (meet_num c <=? producers c) eqn:Hle;
    destruct (0 <=? meet_num c) eqn:Hnn; try discriminate.
  all: assert (0 ≤ producers c) by (unfold producers; lia).
  all: try apply Z.leb_gt in Hle; try apply Z.leb_le in Hle.
  all: try apply Z.leb_gt in Hnn; try apply Z.leb_le in Hnn.
  2-4: by repeat (destruct (decide _); try lia).
  injection E1 as ->.
  destruct (meet_num c =? producers c) eqn:Hm; simpl in E.
  2:{ apply Z.eqb_neq in Hm. destruct (decide (meet_num c < _)); [|lia].
      destruct (decide (0 ≤ _)); [|lia]. inversion E. by subst. }
  apply Z.eqb_eq in Hm.
  destruct (decide (meet_num c < _)); [lia|]. destruct (decide (producers c < _)); [lia|].
  apply bind_inv in E as [(layer_input_datas & s3 & E3 & E)|[(e & E3 & ->)|[E3 ->]]];
    apply liftG_pure in E3 as ->; try apply pure_gather_inputs; try by left.
  apply bind_inv in E as [([] & s4 & E4 & E)|[(e & E4 & ->)|[E4 ->]]];
    apply CHECK_inv in E4 as [-> E4]; try by left.
  destruct (output_operands c) as [out|]; [|inversion E; by left].
  apply bind_inv in E as [(dest & s4 & E5 & E)|[(e & E5 & ->)|[E5 ->]]];
    apply liftG_deref_operand in E5 as [-> E5]; try by left.
  destruct (layer c) as [l|]; [|inversion E; by left].
  set (s4 := mkSched g rest ((trace s ++ [EvDequeue cur g]) ++ [EvLayerForward cur g])).
  rewrite (bind_Ret (emit (EvLayerForward cur)) _ s2 tt s4 eq_refl) in E.
  right. exists (datas dest).
  apply bind_inv in E as [(status & s5 & E6 & E)|[(e & E6 & ->)|[E6 ->]]];
    apply liftG_reads in E6 as (Eh5 & Eq5 & Et5); try apply run_layer_reads.
  - exists s5. repeat split; try done. destruct status.
    + right. by apply go_on_after_bind.
    + left. by inversion E.
  - exists s'. repeat split; try done. by left.
  - exists s'. repeat split; try done. by left.
Qed.

Lemma finishes_iteration i o inputs : finishes (iteration i o inputs).
Proof.
  unfold iteration, set_queue, emit, push_back.
  pose proof finishes_ProbeNextLayer. pose proof finishes_CheckOperatorReady.
  pose proof finishes_gather_inputs. pose proof finishes_run_layer.
  finishes_auto.
Qed.

(** ** The scheduler loop keeps its invariant and ends *)

Lemma emit_dequeue_inv s cur :
  sched_inv s → reached (operator_heap (graph s)) cur →
  sched_inv (mkSched (graph s) (operator_queue s) (trace s ++ [EvDequeue cur (graph s)])).
Proof.
  intros [H1 H2 H3 H4 H5 H6 H7] Hr.
  split; simpl; rewrite ?invoked_app, ?pushed_by_delivery_app; simpl; rewrite ?app_nil_r;
    try done.
  apply Forall_app. split; [done|]. by apply Forall_singleton.
Qed.

Lemma emit_forward_inv s cur :
  sched_inv s → ready_in (graph s) cur →
  cur ∉ operator_queue s → cur ∉ invoked (trace s) →
  sched_inv (mkSched (graph s) (operator_queue s) (trace s ++ [EvLayerForward cur (graph s)])).
Proof.
  intros [H1 H2 H3 H4 H5 H6 H7] Hr Hq Hi.
  split; simpl; rewrite ?invoked_app, ?pushed_by_delivery_app; simpl; rewrite ?app_nil_r;
    try done.
  - apply Forall_app. split; [done|]. apply Forall_singleton. split; [|done].
    destruct Hr as (o & Ho & Hm). exists o. split; [done|lia].
  - apply NoDup_app. split; [done|]. split; [|apply NoDup_singleton].
    intros x Hx ->%list_elem_of_singleton. done.
  - apply Forall_app. split; [done|]. by apply Forall_singleton.
Qed.

Lemma pop_inv s cur rest :
  sched_inv s → operator_queue s = cur :: rest →
  sched_inv (mkSched (graph s) rest (trace s)) ∧
  reached (operator_heap (graph s)) cur ∧ (cur ∉ rest) ∧ (cur ∉ invoked (trace s)).
Proof.
  intros [H1 H2 H3 H4 H5 H6 H7] Hq. rewrite Hq in *.
  apply Forall_cons in H1 as [? ?]. apply NoDup_cons in H2 as [? ?].
  repeat split; simpl; try done.
  - eapply Forall_impl; [done|]. intros n [? Hn]. split; [done|].
    intros ?. apply Hn. by right.
  - intros Hin. eapply Forall_forall in H3 as [_ Hn]; [|done]. apply Hn. left.
Qed.

Lemma probe_step cur src s r s' :
  sched_inv s → ProbeNextLayer cur src s = (r, s') →
  sched_inv s' ∧ (go_on_after r = Ret true → (measure s' ≤ measure s)%nat).
Proof.
  intros Hs E. pose proof (ProbeNextLayer_inv cur src s Hs) as Hs'. rewrite E in Hs'.
  split; [done|]. destruct r as [[]| |]; try discriminate. intros _.
  by eapply ProbeNextLayer_measure.
Qed.

Lemma iteration_inv i o inputs s r s' :
  sched_inv s → iteration i o inputs s = (r, s') →
  sched_inv s' ∧ (r = Ret true → (measure s' < measure s)%nat).
Proof.
  intros Hs E. apply iteration_spec in E.
  destruct (operator_queue s) as [|cur rest] eqn:Hq.
  { destruct E as [-> ->]. done. }
  destruct (pop_inv s cur rest Hs Hq) as (Hs1 & Hreached & Hnotin & Hfresh).
  assert (Hm1 : measure s = S (measure (mkSched (graph s) rest (trace s))))
    by (unfold measure; by rewrite Hq).
  simpl in E.
  destruct (decide (cur = o)) as [_|_].
  { destruct E as [-> ->]. done. }
  destruct (decide (cur = i)) as [_|_].
  { destruct E as (r1 & E & ->). apply probe_step in E as [? Hm]; [|done].
    split; [done|]. intros Hr. specialize (Hm Hr). lia. }
  destruct (operator_heap (graph s) !! cur) as [c|] eqn:Hc.
  2:{ destruct E as [Hr ->]. split; [done|]. intros ->. done. }
  assert (Hs2 : sched_inv (mkSched (graph s) rest (trace s ++ [EvDequeue cur (graph s)])))
    by (by apply (emit_dequeue_inv (mkSched (graph s) rest (trace s)))).
  assert (Hle : producers c ≤ meet_num c).
  { destruct Hreached as (c' & Hc' & ?). rewrite Hc in Hc'. by injection Hc' as <-. }
  destruct (decide (meet_num c < producers c)) as [Hlt|_]; [lia|].
  destruct (decide (producers c < meet_num c)) as [Hgt|Hge].
  { destruct E as [Hr ->]. split; [done|]. intros ->. done. }
  destruct E as [[Hr ->]|(src & s5 & Eh & Eq & Et & E)].
  { split; [done|]. intros ->. done. }
  assert (Hs5 : sched_inv s5).
  { eapply (sched_inv_ext (mkSched (graph s) rest
              ((trace s ++ [EvDequeue cur (graph s)]) ++ [EvLayerForward cur (graph s)])));
      try done.
    apply (emit_forward_inv (mkSched (graph s) rest (trace s ++ [EvDequeue cur (graph s)])));
      simpl; try done.
    - exists c. split; [done|lia].
    - rewrite invoked_app. simpl. by rewrite app_nil_r. }
  assert (Hm5 : measure s5 = measure (mkSched (graph s) rest (trace s)))
    by (unfold measure; by rewrite Eh, Eq).
  destruct E as [[Hr ->]|(r1 & E & ->)].
  { split; [done|]. intros ->. done. }
  apply probe_step in E as [? Hm]; [|done].
  split; [done|]. intros Hr. specialize (Hm Hr). lia.
Qed.

Lemma schedule_sound fuel i o inputs : ∀ s r s',
  sched_inv s → schedule fuel i o inputs s = (r, s') →
  sched_inv s' ∧ ((measure s < fuel)%nat → r ≠ NoFuel).
Proof.
  induction fuel as [|fuel IH]; intros s r s' Hs E.
  { inversion E; subst. split; [done|lia]. }
  simpl in E. pose proof (finishes_iteration i o inputs s) as Hf.
  apply bind_inv in E as [(go_on & s1 & E1 & E)|[(e & E1 & ->)|[E1 ->]]];
    rewrite E1 in Hf; try done; apply iteration_inv in E1 as [Hs1 Hm]; try done.
  destruct go_on.
  - apply IH in E as [? Hn]; [|done]. split; [done|]. intros ?. apply Hn.
    specialize (Hm eq_refl). lia.
  - inversion E; subst. done.
Qed.

(** ** A pass leaves the wiring of the graph alone *)

Definition keeps_wiring_G {A} (m : G A) : Prop :=
  ∀ h0, preserves (λ g, same_wiring h0 (operator_heap g)) m.

Definition keeps_wiring {A} (m : P A) : Prop :=
  ∀ h0, preserves (λ s, same_wiring h0 (operator_heap (graph s))) m.

Lemma same_wiring_insert h0 h p o x :
  h !! p = Some o → same_wiring h0 h → same_wiring h0 (<[p := with_meet_num x o]> h).
Proof.
  unfold same_wiring. intros Hp ->. rewrite list_fmap_insert.
  symmetry. apply list_insert_id. rewrite list_lookup_fmap, Hp. done.
Qed.

Lemma reads_keeps_wiring {A} (m : G A) : reads_operators m → keeps_wiring_G m.
Proof. intros Hm h0 g Hg. by rewrite reads_operators_eq. Qed.

Lemma update_meet_keeps_wiring p (f : RuntimeOperator → Z) :
  keeps_wiring_G (update_operator p (λ o, with_meet_num (f o) o)).
Proof.
  intros h0 g Hg. unfold update_operator.
  destruct (_ !! _) eqn:Hp; simpl; [|done]. by apply same_wiring_insert.
Qed.

Lemma liftG_keeps_wiring {A} (m : G A) : keeps_wiring_G m → keeps_wiring (liftG m).
Proof. intros Hm h0 s Hs. by apply Hm. Qed.

Ltac wiring_auto :=
  repeat (first
    [ match goal with
      | |- keeps_wiring _ => intros ?
      | |- keeps_wiring_G _ => intros ?
      end
    | match goal with H : _ |- _ => apply H end
    | apply liftG_keeps_wiring
    | apply update_meet_keeps_wiring
    | apply reads_keeps_wiring;
      first [ apply deref_operator_reads | apply deref_operand_reads
            | apply CheckOperatorReady_reads | apply SetOpInputData_reads
            | apply gather_inputs_reads | apply run_layer_reads ]
    | by apply preserves_modify
    | preserves_step ]).

Lemma deliver_keeps_wiring cur src next : keeps_wiring (deliver cur src next).
Proof. unfold deliver, push_back, emit. wiring_auto. Qed.

Lemma ProbeNextLayer_keeps_wiring cur src : keeps_wiring (ProbeNextLayer cur src).
Proof. unfold ProbeNextLayer. pose proof deliver_keeps_wiring. wiring_auto. Qed.

Lemma iteration_keeps_wiring i o inputs : keeps_wiring (iteration i o inputs).
Proof.
  unfold iteration, set_queue, push_back, emit. pose proof ProbeNextLayer_keeps_wiring.
  wiring_auto.
Qed.

Lemma schedule_keeps_wiring fuel i o inputs : keeps_wiring (schedule fuel i o inputs).
Proof.
  induction fuel as [|fuel IH]; simpl; [by intros h0 s|].
  pose proof iteration_keeps_wiring. wiring_auto.
Qed.

Lemma Forward_result_keeps_wiring ops o : keeps_wiring_G (Forward_result ops o).
Proof. unfold Forward_result. wiring_auto. Qed.

(** ** The whole pass *)

Lemma sched_inv_pass_ok s : sched_inv s → pass_ok (trace s).
Proof. intros [H1 H2 H3 H4 H5 H6 H7]. by split. Qed.

Lemma pass_ok_nil : pass_ok [].
Proof. split; simpl; constructor. Qed.

Lemma sched_inv_start g : sched_inv (mkSched g [] []).
Proof. split; simpl; constructor. Qed.

Lemma unready_le_length h : (unready h ≤ length h)%nat.
Proof. apply length_filter. Qed.

(** The first iteration takes the input sentinel, whatever its counter. *)
Lemma schedule_start fuel i o inputs g r s' :
  schedule fuel i o inputs (mkSched g [i] []) = (r, s') →
  pass_ok (trace s') ∧ ((length (operator_heap g) + 1 < fuel)%nat → r ≠ NoFuel).
Proof.
  destruct fuel as [|fuel]; simpl; intros E.
  { inversion E; subst. split; [apply pass_ok_nil|lia]. }
  pose proof (finishes_iteration i o inputs (mkSched g [i] [])) as Hf.
  apply bind_inv in E as [(go_on & s1 & E1 & E)|[(e & E1 & ->)|[E1 ->]]];
    rewrite E1 in Hf; try done; apply iteration_spec in E1; simpl in E1.
  - destruct (decide (i = o)) as [_|_].
    { destruct E1 as [[= ->] ->]. inversion E; subst. split; [apply pass_ok_nil|done]. }
    destruct (decide (i = i)) as [_|]; [|done].
    destruct E1 as (r1 & E1 & Hr). apply probe_step in E1 as [Hs1 Hm]; [|apply sched_inv_start].
    rewrite <- Hr in Hm. destruct go_on.
    + apply schedule_sound in E as [? Hn]; [|done]. split; [by apply sched_inv_pass_ok|].
      intros ?. apply Hn. specialize (Hm eq_refl). unfold measure in Hm at 2. simpl in Hm.
      pose proof (unready_le_length (operator_heap g)). lia.
    + inversion E; subst. split; [by apply sched_inv_pass_ok|done].
  - destruct (decide (i = o)) as [_|_]; [by destruct E1|].
    destruct (decide (i = i)) as [_|]; [|done].
    destruct E1 as (r1 & E1 & Hr). apply probe_step in E1 as [Hs1 _]; [|apply sched_inv_start].
    split; [by apply sched_inv_pass_ok|done].
Qed.

Lemma Forward_spec fuel inputs debug g r s' :
  run_Forward fuel inputs debug g = (r, s') →
  if decide (graph_state_ g = Complete) then
    match StdMap.find (input_name_ g) (input_operators_maps_ g) with
    | None => r = Fatal ErrInputNode ∧ s' = mkSched g [] []
    | Some i =>
        match StdMap.find (output_name_ g) (output_operators_maps_ g) with
        | None => r = Fatal ErrOutputNode ∧ s' = mkSched g [] []
        | Some o =>
            ∃ r1 s1, schedule fuel i o inputs (mkSched g [i] []) = (r1, s1) ∧
              match r1 with
              | Ret _ => liftG (Forward_result (operators_ g) o) s1 = (r, s')
              | Fatal e => r = Fatal e ∧ s' = s1
              | NoFuel => r = NoFuel ∧ s' = s1
              end
        end
    end
  else r = Fatal ErrGraphState ∧ s' = mkSched g [] [].
Proof.
  unfold run_Forward, Forward. intros E.
  rewrite (bind_Ret get _ _ _ _ eq_refl) in E. simpl in E.
  destruct (decide (graph_state_ g = Complete)) as [Hc|Hc].
  - rewrite Hc in E. simpl in E. unfold find_sentinel in E.
    rewrite (bind_Ret (mret tt) _ _ tt _ eq_refl) in E.
    rewrite (bind_Ret (mret tt) _ _ tt _ eq_refl) in E.
    destruct (StdMap.find (input_name_ g) _) as [i|]; [|by inversion E].
    rewrite (bind_Ret (mret i) _ _ i _ eq_refl) in E.
    destruct (StdMap.find (output_name_ g) _) as [o|]; [|by inversion E].
    rewrite (bind_Ret (mret o) _ _ o _ eq_refl) in E.
    rewrite (bind_Ret (set_queue [i]) _ (mkSched g [] []) tt (mkSched g [i] []) eq_refl) in E.
    apply bind_inv in E as [([] & s1 & E1 & E)|[(e & E1 & ->)|[E1 ->]]].
    + by exists (Ret tt), s1.
    + by exists (Fatal e), s'.
    + by exists NoFuel, s'.
  - destruct (graph_state_ g); try done; by inversion E.
Qed.

Lemma Forward_pass_ok fuel inputs debug g :
  pass_ok (trace (run_Forward fuel inputs debug g).2).
Proof.
  destruct (run_Forward fuel inputs debug g) as [r s'] eqn:E. simpl.
  apply Forward_spec in E. destruct (decide _); [|destruct E as [_ ->]; apply pass_ok_nil].
  destruct (StdMap.find _ _) as [i|]; [|destruct E as [_ ->]; apply pass_ok_nil].
  destruct (StdMap.find _ _) as [o|]; [|destruct E as [_ ->]; apply pass_ok_nil].
  destruct E as (r1 & s1 & E1 & E). apply schedule_start in E1 as [H1 _].
  destruct r1; [|by destruct E as [_ ->]..].
  rewrite liftG_eq in E. inversion E; subst. done.
Qed.

Lemma finishes_Forward_result ops o : finishes (Forward_result ops o).
Proof. unfold Forward_result. finishes_auto. Qed.

Lemma Forward_finishes fuel inputs debug g :
  (length (operator_heap g) + 1 < fuel)%nat →
  (run_Forward fuel inputs debug g).1 ≠ NoFuel.
Proof.
  intros Hfuel. destruct (run_Forward fuel inputs debug g) as [r s'] eqn:E. simpl.
  apply Forward_spec in E. destruct (decide _); [|by destruct E as [-> _]].
  destruct (StdMap.find _ _) as [i|]; [|by destruct E as [-> _]].
  destruct (StdMap.find _ _) as [o|]; [|by destruct E as [-> _]].
  destruct E as (r1 & s1 & E1 & E). apply schedule_start in E1 as [_ H1].
  specialize (H1 Hfuel). destruct r1; [|by destruct E as [-> _]|done].
  intros ->. by apply finishes_NoFuel in E; [|apply finishes_liftG, finishes_Forward_result].
Qed.

Lemma Forward_keeps_wiring fuel inputs debug g :
  same_wiring (operator_heap g) (operator_heap (graph (run_Forward fuel inputs debug g).2)).
Proof.
  destruct (run_Forward fuel inputs debug g) as [r s'] eqn:E. simpl.
  apply Forward_spec in E. destruct (decide _); [|by destruct E as [_ ->]].
  destruct (StdMap.find _ _) as [i|]; [|by destruct E as [_ ->]].
  destruct (StdMap.find _ _) as [o|]; [|by destruct E as [_ ->]].
  destruct E as (r1 & s1 & E1 & E).
  pose proof (schedule_keeps_wiring fuel i o inputs (operator_heap g) (mkSched g [i] [])
                eq_refl) as H1.
  rewrite E1 in H1. simpl in H1.
  destruct r1; [|by destruct E as [_ ->]..].
  pose proof (liftG_keeps_wiring _ (Forward_result_keeps_wiring (operators_ g) o)
                (operator_heap g) s1 H1) as H2.
  by rewrite E in H2.
Qed.

Lemma reset_keeps_zero p n :
  preserves (λ g, counter_zero g n) (update_operator p (with_meet_num 0)).
Proof.
  intros g (op & Hn & Hz). unfold update_operator.
  destruct (operator_heap g !! p) as [o|] eqn:Hp; unfold counter_zero; simpl;
    [|by exists op].
  destruct (decide (p = n)) as [->|Hne].
  - exists (with_meet_num 0 o). split; [|done].
    apply list_lookup_insert_eq. by eapply lookup_lt_Some.
  - exists op. by rewrite list_lookup_insert_ne.
Qed.

Lemma reset_counters ops : ∀ g g',
  for_each ops (λ op, update_operator op (with_meet_num 0)) g = (Ret tt, g') →
  ∀ n, n ∈ ops → counter_zero g' n.
Proof.
  induction ops as [|p ops IH]; intros g g' E n Hn; [by apply elem_of_nil in Hn|].
  simpl in E. apply bind_inv in E as [([] & g1 & E1 & E)|[(e & E1 & ?)|[E1 ?]]];
    try discriminate.
  apply elem_of_cons in Hn as [->|Hn]; [|by eapply IH].
  assert (counter_zero g1 p) as Hz.
  { unfold update_operator in E1. destruct (operator_heap g !! p) as [o|] eqn:Hp;
      [|discriminate].
    inversion E1; subst. exists (with_meet_num 0 o). simpl. split; [|done].
    apply list_lookup_insert_eq. by eapply lookup_lt_Some. }
  pose proof (preserves_for_each _ ops _ (λ q, reset_keeps_zero q p) g1 Hz) as H.
  by rewrite E in H.
Qed.

Lemma reset_reads_operands ops :
  ∀ h, preserves (λ g, operand_heap g = h)
         (for_each ops (λ op, update_operator op (with_meet_num 0))).
Proof.
  intros h. apply preserves_for_each. intros p g Hg. unfold update_operator.
  by destruct (_ !! _).
Qed.

Lemma Forward_result_spec ops o g res g' :
  Forward_result ops o g = (Ret res, g') →
  (∀ n, n ∈ ops → counter_zero g' n) ∧
  ∃ out k operand opd,
    operator_heap g' !! o = Some out ∧
    input_operands out = [(k, operand)] ∧
    operand_heap g' !! operand = Some opd ∧
    res = datas opd.
Proof.
  unfold Forward_result. intros E.
  apply bind_inv in E as [([] & g1 & E1 & E)|[(e & E1 & ?)|[E1 ?]]]; try discriminate.
  pose proof (reset_counters _ _ _ E1) as Hz.
  apply bind_inv in E as [(out & g2 & E2 & E)|[(e & E2 & ?)|[E2 ?]]]; try discriminate.
  unfold deref_operator in E2. destruct (operator_heap g1 !! o) eqn:Ho; [|discriminate].
  inversion E2; subst; clear E2.
  apply bind_inv in E as [([] & g3 & E3 & E)|[(e & E3 & ?)|[E3 ?]]]; try discriminate.
  apply CHECK_inv in E3 as [-> E3].
  destruct (StdMap.size (input_operands out) =? 1)%nat eqn:Hsz; [|discriminate].
  apply Nat.eqb_eq in Hsz. unfold StdMap.size in Hsz.
  destruct (input_operands out) as [|[k operand] [|]] eqn:Hin; try discriminate.
  simpl in E.
  apply bind_inv in E as [(opd & g4 & E4 & E)|[(e & E4 & ?)|[E4 ?]]]; try discriminate.
  unfold deref_operand in E4. destruct (operand_heap g2 !! operand) eqn:Hopd; [|discriminate].
  inversion E4; subst; clear E4. inversion E; subst; clear E.
  split; [done|]. by exists out, k, operand, opd.
Qed.

(** ** Shape resolver *)


Lemma for_each_pure {S A} (l : list A) (body : A → M S unit) s :
  (∀ x, pure (body x)) →
  (for_each l body s).2 = s ∧
  ((for_each l body s).1 = Ret tt ↔ ∀ x, x ∈ l → (body x s).1 = Ret tt).
Proof.
  intros Hp. induction l as [|x l [IH1 IH2]]; simpl.
  - split; [done|]. split; [|done]. intros _ x Hx. by apply elem_of_nil in Hx.
  - unfold mbind, M_bind. specialize (Hp x s). destruct (body x s) as [[[]|e|] s1] eqn:E;
      simpl in Hp; subst s1.
    + split; [done|]. rewrite IH2. split.
      * intros H y [->|Hy]%elem_of_cons; [by rewrite E|by apply H].
      * intros H y Hy. apply H. by right.
    + split; [done|]. split; [done|]. intros H. specialize (H x). rewrite E in H.
      by apply H; left.
    + split; [done|]. split; [done|]. intros H. specialize (H x). rewrite E in H.
      by apply H; left.
Qed.

Lemma make_buffers_spec n shapes g :
  rank_ok shapes →
  make_buffers n shapes g =
    (Ret (seq (length (tensor_heap g)) n),
     with_tensor_heap (tensor_heap g ++ replicate n (fresh_buffer shapes)) g).
Proof.
  intros Hr. revert g. induction n as [|n IH]; intros g; simpl.
  - unfold mret, M_ret. rewrite app_nil_r. by destruct g.
  - assert (make_buffer shapes g =
            (Ret (length (tensor_heap g)),
             with_tensor_heap (tensor_heap g ++ [fresh_buffer shapes]) g)) as E.
    { unfold make_buffer. destruct shapes as [|b [|c [|h [|w [|]]]]]; destruct Hr; done. }
    rewrite (bind_Ret _ _ _ _ _ E). rewrite (bind_Ret _ _ _ _ _ (IH _)). simpl.
    unfold mret, M_ret. f_equal.
    + f_equal. f_equal. rewrite length_app. simpl. f_equal. lia.
    + unfold with_tensor_heap. simpl. f_equal. by rewrite <- app_assoc.
Qed.

Lemma pure_and_then {S} (c1 c2 : M S bool) : pure c1 → pure c2 → pure (and_then c1 c2).
Proof. intros H1 H2. apply pure_bind; [done|]. intros []; [done|apply pure_ret]. Qed.

Lemma pure_check_input_buffer shp ds i : pure (check_input_buffer shp ds i).
Proof.
  unfold check_input_buffer, eq_at_u32, eq_at_const.
  repeat (first [ apply pure_and_then | progress pure_auto ]).
Qed.

Lemma check_input_buffer_spec shp ds i g :
  rank_ok shp →
  (check_input_buffer shp ds i g).1 = Ret tt ↔
  ∃ t, ds !! i = Some t ∧ buffer_fits g shp t.
Proof.
  intros Hr. unfold check_input_buffer, buffer_fits, at_, deref_tensor, and_then, eq_at_u32,
    eq_at_const, CHECK, mbind, M_bind, mret, M_ret, fatal.
  destruct (ds !! i) as [t|]; simpl; [|split; [done|by intros (? & ? & _)]].
  destruct (tensor_heap g !! t) as [[ch rows cols vals]|] eqn:Ht; simpl.
  2:{ split; [done|]. intros (t' & [= <-] & tensor & Ht' & _). by rewrite Ht in Ht'. }
  destruct shp as [|b [|c [|h [|w [|]]]]]; destruct Hr as [Hr|Hr]; try discriminate; simpl.
  - destruct (Z.eqb_spec rows (u32 c)), (Z.eqb_spec ch 1), (Z.eqb_spec cols 1); simpl;
      (split; [first [done|intros _; exists t; split; [done|]; eexists; split; [done|];
                                unfold Tensor_shapes; simpl; congruence]
              |intros (t' & [= <-] & tensor & Ht' & Hs); rewrite Ht in Ht';
               injection Ht' as <-; unfold Tensor_shapes in Hs; simpl in Hs; congruence]).
  - destruct (Z.eqb_spec ch (u32 c)), (Z.eqb_spec rows (u32 h)), (Z.eqb_spec cols (u32 w));
      simpl;
      (split; [first [done|intros _; exists t; split; [done|]; eexists; split; [done|];
                                unfold Tensor_shapes; simpl; congruence]
              |intros (t' & [= <-] & tensor & Ht' & Hs); rewrite Ht in Ht';
               injection Ht' as <-; unfold Tensor_shapes in Hs; simpl in Hs; congruence]).
Qed.

Lemma usize_int32 z : 0 ≤ z → int32 z → usize z = z.
Proof. intros ? [? ?]. unfold usize. apply Z.mod_small. lia. Qed.

(** The comparisons of [CheckOperatorReady] are those of the counter converted
    to [size_t], for a 32-bit counter and a container size. *)
Lemma usize_negative z : int32 z → z < 0 → usize z = z + 2 ^ 64.
Proof.
  intros [? ?] ?. unfold usize. symmetry. apply (Z.mod_unique _ _ (-1)); lia.
Qed.

Lemma le_size_t_unsigned m n :
  int32 m → Z.of_nat n < 2 ^ 63 → le_size_t m n = (usize m <=? Z.of_nat n).
Proof.
  intros Hm Hn. unfold le_size_t. destruct (Z.leb_spec 0 m) as [Hge|Hlt]; simpl.
  - by rewrite usize_int32.
  - rewrite usize_negative by done. symmetry. apply Z.leb_gt. destruct Hm. lia.
Qed.

Lemma eq_size_t_unsigned m n :
  int32 m → Z.of_nat n < 2 ^ 63 → eq_size_t m n = (usize m =? Z.of_nat n).
Proof.
  intros Hm Hn. unfold eq_size_t. destruct (Z.leb_spec 0 m) as [Hge|Hlt]; simpl.
  - by rewrite usize_int32.
  - rewrite usize_negative by done. symmetry. apply Z.eqb_neq. destruct Hm. lia.
Qed.




(** ** Building again *)

Definition keeps_nodes {A} (m : G A) : Prop :=
  ∀ v, preserves (λ g, nodes_of g = v) m.

Lemma keeps_nodes_deref_operator p : keeps_nodes (deref_operator p).
Proof. intros v g Hg. by rewrite pure_deref_operator. Qed.

Lemma keeps_nodes_deref_operand p : keeps_nodes (deref_operand p).
Proof. intros v g Hg. by rewrite pure_deref_operand. Qed.

Lemma keeps_nodes_deref_tensor p : keeps_nodes (deref_tensor p).
Proof. intros v g Hg. by rewrite pure_deref_tensor. Qed.

Lemma keeps_nodes_update_operand p f : keeps_nodes (update_operand p f).
Proof. intros v g Hg. unfold update_operand. by destruct (_ !! _). Qed.

Lemma keeps_nodes_new_operand o : keeps_nodes (new_operand o).
Proof. by intros v g Hg. Qed.

Lemma keeps_nodes_new_tensor t : keeps_nodes (new_tensor t).
Proof. by intros v g Hg. Qed.

Lemma keeps_nodes_update_operator p f :
  (∀ o, strip (f o) = strip o) → keeps_nodes (update_operator p f).
Proof.
  intros Hf v g <-. unfold update_operator. destruct (_ !! _) as [o|] eqn:Hp; [|done].
  unfold nodes_of. simpl. f_equal. rewrite list_fmap_insert, Hf.
  apply list_insert_id. by rewrite list_lookup_fmap, Hp.
Qed.

Ltac nodes_auto :=
  repeat (first
    [ match goal with |- keeps_nodes _ => intros ? end
    | match goal with H : _ |- _ => apply H end
    | apply keeps_nodes_deref_operator | apply keeps_nodes_deref_operand
    | apply keeps_nodes_deref_tensor | apply keeps_nodes_update_operand
    | apply keeps_nodes_new_operand | apply keeps_nodes_new_tensor
    | by apply keeps_nodes_update_operator
    | by apply preserves_modify
    | preserves_step ]).

Lemma keeps_nodes_make_buffers n shp : keeps_nodes (make_buffers n shp).
Proof. induction n as [|n IH]; simpl; unfold make_buffer; nodes_auto. Qed.

Lemma keeps_nodes_InitOperatorInputTensor ops : keeps_nodes (InitOperatorInputTensor ops).
Proof.
  unfold InitOperatorInputTensor, init_input_operand, check_input_buffer, eq_at_u32,
    eq_at_const.
  pose proof keeps_nodes_make_buffers. nodes_auto.
Qed.

Lemma keeps_nodes_InitOperatorOutputTensor pops ops :
  keeps_nodes (InitOperatorOutputTensor pops ops).
Proof.
  unfold InitOperatorOutputTensor, init_output_operand, check_output_buffer, eq_at,
    eq_at_const.
  pose proof keeps_nodes_make_buffers. nodes_auto.
Qed.

Section Avoids.
Context {S : Type} (bad : Failure).

Lemma avoids_ret {A} (a : A) : avoids bad (mret a : M S A).
Proof. by intros s. Qed.

Lemma avoids_fatal {A} e : e ≠ bad → avoids bad (fatal e : M S A).
Proof. intros He s. simpl. congruence. Qed.

Lemma avoids_get : avoids bad (get : M S S).
Proof. by intros s. Qed.

Lemma avoids_modify f : avoids bad (modify f : M S unit).
Proof. by intros s. Qed.

Lemma avoids_bind {A B} (m : M S A) (f : A → M S B) :
  avoids bad m → (∀ a, avoids bad (f a)) → avoids bad (m ≫= f).
Proof.
  intros Hm Hf s. specialize (Hm s). unfold mbind, M_bind.
  destruct (m s) as [[a|e|] s1]; simpl in *; [apply Hf| |done].
  intros [= ->]. by apply Hm.
Qed.

Lemma avoids_CHECK b e : e ≠ bad → avoids bad (CHECK b e : M S unit).
Proof. intros He. destruct b; [apply avoids_ret|by apply avoids_fatal]. Qed.

Lemma avoids_at {A} (v : list A) i : ErrOutOfRange ≠ bad → avoids bad (at_ v i : M S A).
Proof. intros He. unfold at_. destruct (v !! i); [apply avoids_ret|by apply avoids_fatal]. Qed.

Lemma avoids_for_each {A} (l : list A) (body : A → M S unit) :
  (∀ x, avoids bad (body x)) → avoids bad (for_each l body).
Proof.
  intros Hb. induction l as [|x l IH]; simpl.
  - apply avoids_ret.
  - apply avoids_bind; auto.
Qed.

Lemma avoids_and_then (c1 c2 : M S bool) :
  avoids bad c1 → avoids bad c2 → avoids bad (and_then c1 c2).
Proof. intros H1 H2. apply avoids_bind; [done|]. intros []; [done|apply avoids_ret]. Qed.
End Avoids.

Lemma avoids_deref_operator bad p : ErrNullDeref ≠ bad → avoids bad (deref_operator p).
Proof. intros He g. unfold deref_operator. destruct (_ !! _); simpl; congruence. Qed.

Lemma avoids_deref_operand bad p : ErrNullDeref ≠ bad → avoids bad (deref_operand p).
Proof. intros He g. unfold deref_operand. destruct (_ !! _); simpl; congruence. Qed.

Lemma avoids_deref_tensor bad p : ErrNullDeref ≠ bad → avoids bad (deref_tensor p).
Proof. intros He g. unfold deref_tensor. destruct (_ !! _); simpl; congruence. Qed.

Lemma avoids_update_operator bad p f : ErrNullDeref ≠ bad → avoids bad (update_operator p f).
Proof. intros He g. unfold update_operator. destruct (_ !! _); simpl; congruence. Qed.

Lemma avoids_update_operand bad p f : ErrNullDeref ≠ bad → avoids bad (update_operand p f).
Proof. intros He g. unfold update_operand. destruct (_ !! _); simpl; congruence. Qed.

Lemma avoids_new_operand bad o : avoids bad (new_operand o).
Proof. by intros g. Qed.

Lemma avoids_new_tensor bad t : avoids bad (new_tensor t).
Proof. by intros g. Qed.

(** Past its guard, [Build] raises no state error. *)
Ltac no_state_error :=
  repeat (first
    [ match goal with H : _ |- _ => apply H end
    | apply avoids_bind; [|intros ?]
    | apply avoids_for_each; intros ?
    | apply avoids_and_then
    | apply avoids_ret | apply avoids_get | apply avoids_modify
    | apply avoids_new_operand | apply avoids_new_tensor
    | by apply avoids_fatal | by apply avoids_CHECK | by apply avoids_at
    | by apply avoids_deref_operator | by apply avoids_deref_operand
    | by apply avoids_deref_tensor | by apply avoids_update_operator
    | by apply avoids_update_operand
    | match goal with
      | |- avoids _ (if ?b then _ else _) => destruct b
      | |- avoids _ (match ?x with _ => _ end) => destruct x
      end ]).

Lemma avoids_make_buffers n shp : avoids ErrGraphState (make_buffers n shp).
Proof. induction n as [|n IH]; simpl; unfold make_buffer; no_state_error. Qed.

Lemma avoids_InitOperatorInputTensor ops :
  avoids ErrGraphState (InitOperatorInputTensor ops).
Proof.
  unfold InitOperatorInputTensor, init_input_operand, check_input_buffer, eq_at_u32,
    eq_at_const.
  pose proof avoids_make_buffers. no_state_error.
Qed.

Lemma avoids_InitOperatorOutputTensor pops ops :
  avoids ErrGraphState (InitOperatorOutputTensor pops ops).
Proof.
  unfold InitOperatorOutputTensor, init_output_operand, check_output_buffer, eq_at,
    eq_at_const.
  pose proof avoids_make_buffers. no_state_error.
Qed.

(** ** A pass over a well-formed graph *)

Lemma same_wiring_lookup h h' n :
  same_wiring h h' → with_meet_num 0 <$> (h !! n) = with_meet_num 0 <$> (h' !! n).
Proof. intros H. rewrite <- !list_lookup_fmap. by rewrite H. Qed.

Lemma same_wiring_fields h h' n o :
  same_wiring h h' → h !! n = Some o →
  ∃ o', h' !! n = Some o' ∧ name o' = name o ∧ input_operands o' = input_operands o ∧
        output_operators o' = output_operators o.
Proof.
  intros H Hn. pose proof (same_wiring_lookup h h' n H) as E. rewrite Hn in E.
  destruct (h' !! n) as [o'|]; [|discriminate]. simpl in E.
  assert (E' : with_meet_num 0 o' = with_meet_num 0 o) by congruence.
  exists o'. split; [done|].
  split_and!; [by apply (f_equal name) in E'|by apply (f_equal input_operands) in E'
              |by apply (f_equal output_operators) in E'].
Qed.

Lemma same_wiring_sym h h' : same_wiring h h' → same_wiring h' h.
Proof. by unfold same_wiring. Qed.

Lemma targets_same_wiring h h' p : same_wiring h h' → targets h p = targets h' p.
Proof.
  intros H. unfold targets. destruct (h !! p) as [o|] eqn:Hp.
  - destruct (same_wiring_fields _ _ _ _ H Hp) as (o' & -> & _ & _ & ->). done.
  - destruct (h' !! p) as [o'|] eqn:Hp'; [|done].
    destruct (same_wiring_fields _ _ _ _ (same_wiring_sym _ _ H) Hp') as (? & ? & _).
    congruence.
Qed.

Lemma listed_same_wiring h h' p c : same_wiring h h' → listed h p c = listed h' p c.
Proof.
  intros H. unfold listed. destruct (h !! p) as [po|] eqn:Hp.
  - destruct (same_wiring_fields _ _ _ _ H Hp) as (po' & -> & -> & _ & _).
    destruct (h !! c) as [co|] eqn:Hc.
    + destruct (same_wiring_fields _ _ _ _ H Hc) as (co' & -> & _ & -> & _). done.
    + destruct (h' !! c) as [co'|] eqn:Hc'; [|done].
      destruct (same_wiring_fields _ _ _ _ (same_wiring_sym _ _ H) Hc') as (? & ? & _).
      congruence.
  - destruct (h' !! p) as [po'|] eqn:Hp'; [|done].
    destruct (same_wiring_fields _ _ _ _ (same_wiring_sym _ _ H) Hp') as (? & ? & _).
    congruence.
Qed.

Lemma delivers_same_wiring h h' p c : same_wiring h h' → delivers h p c = delivers h' p c.
Proof.
  intros H. unfold delivers. by rewrite (targets_same_wiring _ _ _ H), (listed_same_wiring _ _ _ _ H).
Qed.

Lemma same_wiring_bump h x o m :
  h !! x = Some o → same_wiring h (<[x := with_meet_num m o]> h).
Proof. intros Hx. by apply same_wiring_insert. Qed.

Lemma for_each_deliver_counts p src l :
  NoDup l → ∀ s s',
  for_each l (deliver p src) s = (Ret tt, s') →
  ∀ c o, operator_heap (graph s) !! c = Some o →
    ∃ o', operator_heap (graph s') !! c = Some o' ∧
          meet_num o' = meet_num o +
            (if bool_decide (c ∈ l) && listed (operator_heap (graph s)) p c then 1 else 0).
Proof.
  induction 1 as [|x l Hx Hl IH]; intros s s' E c o Hc; simpl in E.
  { inversion E; subst. exists o. split; [done|]. simpl. lia. }
  apply bind_inv in E as [([] & s1 & E1 & E)|[(? & _ & ?)|[_ ?]]]; try discriminate.
  apply deliver_spec in E1 as [(_ & _ & _ & Hskip)|[(e & ? & ? & _)|
    (po & nxt & operand & _ & Hp & Hn & Hf & Eh & _)]]; try discriminate.
  - destruct (Hskip eq_refl) as (-> & po & nxt & Hp & Hn & Hf).
    destruct (IH _ _ E c o Hc) as (o' & Ho' & Hm). exists o'. split; [done|].
    rewrite Hm. destruct (decide (c = x)) as [->|Hne].
    + assert (listed (operator_heap (graph s)) p x = false) as ->.
      { unfold listed. rewrite Hp, Hn, Hf. apply bool_decide_eq_false_2. by intros [? ?]. }
      by rewrite !andb_false_r.
    + assert (bool_decide (c ∈ x :: l) = bool_decide (c ∈ l)) as ->
        by (apply bool_decide_ext; rewrite elem_of_cons; split; [by intros [?|?]|by right]).
      done.
  - assert (Hw : same_wiring (operator_heap (graph s)) (operator_heap (graph s1)))
      by (rewrite Eh; by apply same_wiring_bump).
    destruct (decide (c = x)) as [->|Hne].
    + rewrite Hn in Hc. injection Hc as <-.
      assert (operator_heap (graph s1) !! x = Some (with_meet_num (meet_num nxt + 1) nxt)) as Hx1.
      { rewrite Eh. apply list_lookup_insert_eq. by eapply lookup_lt_Some. }
      destruct (IH _ _ E x _ Hx1) as (o' & Ho' & Hm). exists o'. split; [done|].
      rewrite Hm. simpl. rewrite (bool_decide_eq_false_2 (x ∈ l)) by done. simpl.
      rewrite (bool_decide_eq_true_2 (x ∈ x :: l)) by left.
      assert (listed (operator_heap (graph s)) p x = true) as ->.
      { unfold listed. rewrite Hp, Hn, Hf. by apply bool_decide_eq_true_2. }
      simpl. lia.
    + assert (operator_heap (graph s1) !! c = Some o) as Hc1.
      { rewrite Eh. by rewrite list_lookup_insert_ne. }
      destruct (IH _ _ E c o Hc1) as (o' & Ho' & Hm). exists o'. split; [done|].
      rewrite Hm. rewrite <- (listed_same_wiring _ _ _ _ Hw).
      assert (bool_decide (c ∈ x :: l) = bool_decide (c ∈ l)) as ->
        by (apply bool_decide_ext; rewrite elem_of_cons; split; [by intros [?|?]|by right]).
      done.
Qed.

Lemma ProbeNextLayer_counts h0 p src s s' :
  same_wiring h0 (operator_heap (graph s)) →
  NoDup (targets h0 p) →
  ProbeNextLayer p src s = (Ret tt, s') →
  ∀ c o, operator_heap (graph s) !! c = Some o →
    ∃ o', operator_heap (graph s') !! c = Some o' ∧
          meet_num o' = meet_num o + (if delivers h0 p c then 1 else 0).
Proof.
  intros Hw Hnd E c o Hc. unfold ProbeNextLayer in E.
  apply bind_inv in E as [(po & s1 & E1 & E)|[(? & _ & ?)|[_ ?]]]; try discriminate.
  apply liftG_deref_operator in E1 as [-> E1].
  destruct (operator_heap (graph s) !! p) as [po'|] eqn:Hp; [|discriminate].
  injection E1 as <-.
  assert (targets h0 p = StdMap.values (output_operators po)) as Ht.
  { rewrite (targets_same_wiring _ _ _ Hw). unfold targets. by rewrite Hp. }
  rewrite Ht in Hnd.
  destruct (for_each_deliver_counts p src _ Hnd _ _ E c o Hc) as (o' & Ho' & Hm).
  exists o'. split; [done|]. rewrite Hm. unfold delivers.
  by rewrite Ht, (listed_same_wiring _ _ _ _ Hw).
Qed.

Lemma find_Some_keys {V} k (m : StdMap.t V) v : StdMap.find k m = Some v → k ∈ m.*1.
Proof.
  induction m as [|[k' v'] m IH]; simpl; [done|].
  destruct (String.eqb_spec k k') as [->|Hne]; intros H.
  - left.
  - right. by apply IH.
Qed.

(** With distinct node names, no more nodes deliver to a consumer than it has
    producers. *)
Lemma deliveries_bound h done c co :
  NoDup (name <$> h) → NoDup done → h !! c = Some co →
  (deliveries h done c ≤ StdMap.size (input_operands co))%nat.
Proof.
  intros Hnames Hdone Hc. unfold deliveries, StdMap.size.
  set (senders := filter (λ p, delivers h p c) done).
  set (name_of := λ p : nat, default ""%string (name <$> h !! p)).
  assert (Hin : ∀ p, p ∈ senders →
            ∃ po, h !! p = Some po ∧ name po ∈ (input_operands co).*1).
  { intros p [Hd _]%list_elem_of_filter. unfold delivers, listed in Hd.
    apply andb_prop_elim in Hd as [_ Hl].
    destruct (h !! p) as [po|]; [|done]. rewrite Hc in Hl.
    apply bool_decide_unpack in Hl as [v Hv]. exists po. split; [done|].
    by eapply find_Some_keys. }
  rewrite <- (length_fmap fst (input_operands co)).
  rewrite <- (length_fmap name_of senders).
  apply submseteq_length, NoDup_submseteq.
  - apply NoDup_fmap_2_strong; [|by apply NoDup_filter].
    intros p q Hp Hq Heq.
    destruct (Hin p Hp) as (po & Hpo & _). destruct (Hin q Hq) as (qo & Hqo & _).
    unfold name_of in Heq. rewrite Hpo, Hqo in Heq. simpl in Heq.
    eapply NoDup_lookup; [exact Hnames| |];
      rewrite list_lookup_fmap; [by rewrite Hpo|by rewrite Hqo, Heq].
  - intros n (p & -> & Hp)%list_elem_of_fmap.
    destruct (Hin p Hp) as (po & Hpo & Hk). unfold name_of. by rewrite Hpo.
Qed.

Lemma no_inputs_same_wiring h h' i : same_wiring h h' → no_inputs h i → no_inputs h' i.
Proof.
  intros Hw Hi o' Ho'.
  destruct (same_wiring_fields _ _ _ _ (same_wiring_sym _ _ Hw) Ho') as (o & Ho & _ & <- & _).
  by apply Hi.
Qed.

Lemma invoked_deliver tr p c q g b : invoked (tr ++ [EvDeliver p c q g b]) = invoked tr.
Proof. rewrite invoked_app. simpl. by rewrite app_nil_r. Qed.

Lemma deliver_frame h0 i v p src c :
  no_inputs h0 i → preserves (delivery_frame h0 i v) (deliver p src c).
Proof.
  intros Hi s (Hw & Hq & Hv & Ht).
  pose proof (deliver_keeps_wiring p src c h0 s Hw) as Hw'.
  destruct (deliver p src c s) as [r s'] eqn:E. simpl in *.
  apply deliver_spec in E as [(Eh & Eq & Et & _)|[(e & nxt & -> & Hn & Eh & Eq & Et)|
    (po & nxt & operand & -> & Hp & Hn & Hf & Eh & Eq & Et)]].
  - split_and!; by rewrite ?Eq, ?Et.
  - split_and!; by rewrite ?Eq, ?Et.
  - simpl in Eq, Et. split_and!; rewrite ?Et, ?invoked_deliver; try done.
    + rewrite Eq. destruct (_ && _); [|done].
      intros [?| ->%list_elem_of_singleton]%elem_of_app; [done|].
      apply (no_inputs_same_wiring _ _ _ Hw) in Hi. rewrite (Hi _ Hn) in Hf. done.
    + apply Forall_app. split; [done|]. by apply Forall_singleton.
Qed.

Lemma ProbeNextLayer_frame h0 i v p src :
  no_inputs h0 i → preserves (delivery_frame h0 i v) (ProbeNextLayer p src).
Proof.
  intros Hi. unfold ProbeNextLayer. apply preserves_bind.
  - intros s Hs. destruct (liftG (deref_operator p) s) as [r s'] eqn:E.
    by apply liftG_deref_operator in E as [-> _].
  - intros po. apply preserves_for_each. intros c. by apply deliver_frame.
Qed.

Lemma deliveries_snoc h done p c :
  deliveries h (done ++ [p]) c = (deliveries h done c + (if delivers h p c then 1 else 0))%nat.
Proof.
  unfold deliveries. rewrite filter_app, length_app, filter_cons, filter_nil.
  destruct (decide (delivers h p c)) as [Hd|Hd].
  - apply Is_true_true in Hd. by rewrite Hd.
  - apply Is_true_false in Hd. by rewrite Hd.
Qed.

Lemma targets_NoDup h p :
  Forall (λ o, NoDup (StdMap.values (output_operators o))) h → NoDup (targets h p).
Proof.
  intros H. unfold targets. destruct (h !! p) as [po|] eqn:Hp; [|constructor].
  eapply Forall_forall in H; [done|]. by eapply list_elem_of_lookup_2.
Qed.

Lemma wf_ready h0 i s cur :
  NoDup (name <$> h0) → wf_inv h0 i s → NoDup (invoked (trace s)) →
  reached (operator_heap (graph s)) cur → ready_in (graph s) cur.
Proof.
  intros Hnames ((Hw & _) & Hi & Hcount) Hnd (o & Ho & Hle).
  exists o. split; [done|].
  destruct (same_wiring_fields _ _ _ _ (same_wiring_sym _ _ Hw) Ho) as (o0 & Ho0 & _ & Hin & _).
  assert (NoDup (i :: invoked (trace s))) as Hnd' by (by apply NoDup_cons).
  pose proof (deliveries_bound h0 (i :: invoked (trace s)) cur o0 Hnames Hnd' Ho0) as Hb.
  pose proof (Hcount _ _ Ho) as Hm. unfold producers in *. rewrite <- Hin in *. lia.
Qed.

Lemma probe_counts_step h0 i v done p src s r s' :
  Forall (λ o, NoDup (StdMap.values (output_operators o))) h0 → no_inputs h0 i →
  delivery_frame h0 i v s →
  (∀ c o, operator_heap (graph s) !! c = Some o →
     meet_num o = Z.of_nat (deliveries h0 done c)) →
  ProbeNextLayer p src s = (r, s') →
  delivery_frame h0 i v s' ∧
  (r = Ret tt → ∀ c o, operator_heap (graph s') !! c = Some o →
     meet_num o = Z.of_nat (deliveries h0 (done ++ [p]) c)).
Proof.
  intros Hedges Hi Hf Hcount E.
  pose proof (ProbeNextLayer_frame h0 i v p src Hi s Hf) as Hf'. rewrite E in Hf'.
  simpl in Hf'. split; [done|]. intros -> c o' Ho'.
  destruct Hf as (Hw & _). destruct Hf' as (Hw' & _).
  destruct (same_wiring_fields _ _ _ _ (same_wiring_sym _ _ Hw') Ho') as (o0 & Ho0 & _).
  destruct (same_wiring_fields _ _ _ _ Hw Ho0) as (o & Ho & _).
  destruct (ProbeNextLayer_counts h0 p src s s' Hw (targets_NoDup _ _ Hedges) E c o Ho)
    as (o'' & Ho'' & Hm).
  rewrite Ho' in Ho''. injection Ho'' as <-.
  rewrite Hm, (Hcount _ _ Ho), deliveries_snoc. destruct (delivers h0 p c); lia.
Qed.

Lemma iteration_wf h0 i o inputs s r s' :
  NoDup (name <$> h0) →
  Forall (λ o, NoDup (StdMap.values (output_operators o))) h0 →
  no_inputs h0 i →
  sched_inv s → wf_inv h0 i s →
  iteration i o inputs s = (r, s') →
  Forall dequeue_ready (trace s') ∧ (r = Ret true → wf_inv h0 i s').
Proof.
  intros Hnames Hedges Hi Hs Hwf E. apply iteration_spec in E.
  assert (Hrd : ∀ n, reached (operator_heap (graph s)) n → ready_in (graph s) n).
  { intros n Hn. apply (wf_ready h0 i); try done. by destruct Hs. }
  destruct Hwf as (Hf & Hni & Hcount). pose proof Hf as (Hw & Hq & _ & Ht).
  destruct (operator_queue s) as [|cur rest] eqn:Hqueue.
  { destruct E as [-> ->]. done. }
  destruct (pop_inv s cur rest Hs Hqueue) as (Hs1 & Hreached & Hnotin & Hfresh).
  simpl in E.
  destruct (decide (cur = o)) as [_|_].
  { destruct E as [-> ->]. done. }
  destruct (decide (cur = i)) as [->|Hne].
  { destruct Hq. left. }
  assert (Hready : ready_in (graph s) cur) by (by apply Hrd).
  assert (Ht2 : Forall dequeue_ready (trace s ++ [EvDequeue cur (graph s)])).
  { apply Forall_app. split; [done|]. by apply Forall_singleton. }
  destruct (operator_heap (graph s) !! cur) as [c|] eqn:Hc.
  2:{ destruct E as [Hr ->]. split; [done|]. intros ->. done. }
  destruct (decide (meet_num c < producers c)) as [Hlt|_].
  { destruct Hready as (c' & Hc' & ?). rewrite Hc in Hc'. injection Hc' as <-. lia. }
  destruct (decide (producers c < meet_num c)) as [Hgt|_].
  { destruct E as [Hr ->]. split; [done|]. intros ->. done. }
  destruct E as [[Hr ->]|(src & s5 & Eh & Eq & Et & E)].
  { split; [done|]. intros ->. done. }
  assert (Ht5 : Forall dequeue_ready (trace s5)).
  { rewrite Et. apply Forall_app. split; [done|]. by apply Forall_singleton. }
  assert (Hv5 : invoked (trace s5) = invoked (trace s) ++ [cur]).
  { rewrite Et, !invoked_app. simpl. by rewrite app_nil_r. }
  assert (Hf5 : delivery_frame h0 i (invoked (trace s5)) s5).
  { split_and!; try done.
    - by rewrite Eh.
    - rewrite Eq. intros ?. apply Hq. by right. }
  destruct E as [[Hr ->]|(r1 & E & ->)].
  { split; [done|]. intros ->. done. }
  eapply (probe_counts_step h0 i _ (i :: invoked (trace s))) in E as [Hf' Hcount']; try done.
  2:{ intros c' o' Ho'. apply Hcount. by rewrite <- Eh. }
  pose proof Hf' as (_ & _ & Hv' & Ht').
  split; [done|]. intros Hr. destruct r1 as [[]| |]; try discriminate.
  split_and!.
  - by rewrite Hv'.
  - rewrite Hv', Hv5. intros [?| ->%list_elem_of_singleton]%elem_of_app; done.
  - intros c' o' Ho'. rewrite Hv', Hv5. by apply Hcount'.
Qed.

Lemma schedule_wf h0 i o inputs fuel : ∀ s r s',
  NoDup (name <$> h0) →
  Forall (λ o, NoDup (StdMap.values (output_operators o))) h0 →
  no_inputs h0 i →
  sched_inv s → wf_inv h0 i s →
  schedule fuel i o inputs s = (r, s') →
  Forall dequeue_ready (trace s').
Proof.
  induction fuel as [|fuel IH]; intros s r s' Hnames Hedges Hi Hs Hwf E.
  { inversion E; subst. by destruct Hwf as ((_ & _ & _ & ?) & _). }
  simpl in E.
  apply bind_inv in E as [(go_on & s1 & E1 & E)|[(e & E1 & ->)|[E1 ->]]].
  - pose proof (iteration_inv _ _ _ _ _ _ Hs E1) as [Hs1 _].
    apply (iteration_wf h0) in E1 as [Ht1 Hwf1]; try done.
    destruct go_on; [|inversion E; by subst].
    eapply IH; try done. by apply Hwf1.
  - by apply (iteration_wf h0) in E1 as [Ht1 _].
  - by apply (iteration_wf h0) in E1 as [Ht1 _].
Qed.

Lemma first_iteration i o inputs g r s1 :
  iteration i o inputs (mkSched g [i] []) = (r, s1) →
  (r = Ret false ∧ s1 = mkSched g [] []) ∨
  (∃ r1, ProbeNextLayer i inputs (mkSched g [] []) = (r1, s1) ∧ r = go_on_after r1).
Proof.
  intros E. apply iteration_spec in E. simpl in E.
  destruct (decide (i = o)); [by left|]. destruct (decide (i = i)); [by right|done].
Qed.

Lemma schedule_start_wf i o inputs fuel g r s' :
  NoDup (name <$> operator_heap g) →
  Forall (λ o, NoDup (StdMap.values (output_operators o))) (operator_heap g) →
  Forall (λ o, meet_num o = 0) (operator_heap g) →
  no_inputs (operator_heap g) i →
  schedule fuel i o inputs (mkSched g [i] []) = (r, s') →
  Forall dequeue_ready (trace s').
Proof.
  intros Hnames Hedges Hzero Hi E. destruct fuel as [|fuel]; simpl in E.
  { inversion E; subst. constructor. }
  set (h0 := operator_heap g) in *.
  assert (Hf0 : delivery_frame h0 i [] (mkSched g [] [])).
  { split_and!; simpl; [done|apply not_elem_of_nil|done|constructor]. }
  assert (Hc0 : ∀ c co, operator_heap (graph (mkSched g [] [])) !! c = Some co →
                 meet_num co = Z.of_nat (deliveries h0 [] c)).
  { intros c co Ho. simpl in Ho. eapply Forall_forall in Hzero; [|by eapply list_elem_of_lookup_2].
    by rewrite Hzero. }
  assert (Hfirst : ∀ r1 s1, iteration i o inputs (mkSched g [i] []) = (r1, s1) →
            Forall dequeue_ready (trace s1) ∧
            (r1 = Ret true → sched_inv s1 ∧ wf_inv h0 i s1)).
  { intros r1 s1 E1. apply first_iteration in E1 as [[-> ->]|(r2 & E1 & ->)].
    { split; [constructor|done]. }
    pose proof (probe_step _ _ _ _ _ (sched_inv_start g) E1) as [Hs1 _].
    eapply (probe_counts_step h0 i [] []) in E1 as [Hf1 Hc1]; try done.
    pose proof Hf1 as (_ & _ & Hv1 & Ht1).
    split; [done|]. intros Hr. destruct r2 as [[]| |]; try discriminate.
    split; [done|]. split_and!.
    - by rewrite Hv1.
    - rewrite Hv1. apply not_elem_of_nil.
    - intros c o' Ho'. rewrite Hv1. by apply Hc1. }
  apply bind_inv in E as [(go_on & s1 & E1 & E)|[(e & E1 & ->)|[E1 ->]]];
    apply Hfirst in E1 as [Ht1 Hwf1]; try done.
  destruct go_on; [|inversion E; by subst].
  destruct (Hwf1 eq_refl) as [Hs1 Hw1].
  by eapply (schedule_wf h0 i).
Qed.

(** * The claims *)

(** The two example graphs build and run. *)
Example chain_builds :
  (Build (Examples.load Examples.chain) Examples.factory "in" "out" Examples.fresh).1 = Ret tt.
Proof. vm_compute. reflexivity. Qed.

Example chain_runs :
  (run_Forward 10 Examples.chain_input false Examples.chain_graph).1 = Ret [2%nat] ∧
  tensor_heap (graph (run_Forward 10 Examples.chain_input false Examples.chain_graph).2)
    !! 2%nat = Some Examples.input_tensor.
Proof. vm_compute. split; reflexivity. Qed.

Example diamond_runs :
  (run_Forward 10 Examples.diamond_input false Examples.diamond_graph).1 = Ret [4%nat] ∧
  invoked (trace (run_Forward 10 Examples.diamond_input false Examples.diamond_graph).2)
    = [1%nat; 2%nat; 3%nat].
Proof. vm_compute. split; reflexivity. Qed.

Example converging_is_fatal :
  (run_Forward 10 (Examples.input_of Examples.converging_graph) false
               Examples.converging_graph).1 = Fatal ErrOutputPath.
Proof. vm_compute. reflexivity. Qed.

(** A node fed twice by one producer has two operands in its ordered
    sequence and one producer; its handler runs after a single delivery. *)
Example twice_counts_one_producer :
  (input_operands_seq <$> operator_heap Examples.twice_graph !! 2%nat) = Some [1%nat; 2%nat] ∧
  (producers <$> operator_heap Examples.twice_graph !! 2%nat) = Some 1 ∧
  invoked (trace (run_Forward 10 (Examples.input_of Examples.twice_graph) false
                              Examples.twice_graph).2) = [1%nat; 2%nat].
Proof. vm_compute. repeat split; reflexivity. Qed.

(** C1. In every Forward pass the handler of a node is invoked only in a graph
    where the node's delivery counter equals the number of its distinct
    producers, the size of its input-operand map, and no node has its handler
    invoked twice in the pass. *)
Theorem C1_handler_runs_when_ready_and_once fuel inputs debug g :
  let tr := trace (run_Forward fuel inputs debug g).2 in
  (∀ n g0, EvLayerForward n g0 ∈ tr →
     ∃ o, operator_heap g0 !! n = Some o ∧
          meet_num o = Z.of_nat (StdMap.size (input_operands o))) ∧
  NoDup (invoked tr).
Proof.
  intros tr. destruct (Forward_pass_ok fuel inputs debug g) as [Hev Hinv _].
  split; [|done]. intros n g0 Hin.
  eapply Forall_forall in Hev; [|done]. exact Hev.
Qed.



Lemma starved_pass_eq :
  run_Forward 10 Examples.starved_input false Examples.starved_graph = Examples.starved_pass.
Proof. vm_compute. reflexivity. Qed.

(** C3, as stated: in a pass every consumer is enqueued by propagation exactly
    once. It fails on a built graph with a node that waits for a producer that
    never runs: the pass returns, node [C] (3) is delivered to by [A] (1), and
    no delivery enqueues it; it is in no queue a delivery starts from, it is
    never taken from the queue, and it is not in the queue the pass ends
    with. *)
Lemma C3_starved_consumer_is_never_enqueued :
  let r := run_Forward 10 Examples.starved_input false Examples.starved_graph in
  r.1 = Ret [3%nat] ∧
  ¬ (∀ p c q g0 pushed, EvDeliver p c q g0 pushed ∈ trace r.2 →
       length (filter (λ n, n = c) (pushed_by_delivery (trace r.2))) = 1%nat) ∧
  (∃ q g0, EvDeliver 1 3 q g0 false ∈ trace r.2) ∧
  pushed_by_delivery (trace r.2) = [1%nat; 4%nat] ∧
  (∀ p c q g0 pushed, EvDeliver p c q g0 pushed ∈ trace r.2 → 3%nat ∉ q) ∧
  (∀ g0, EvDequeue 3 g0 ∉ trace r.2) ∧
  3%nat ∉ operator_queue r.2.
Proof.
  cbv zeta. rewrite starved_pass_eq.
  assert (Hp : pushed_by_delivery (trace Examples.starved_pass.2) = [1%nat; 4%nat])
    by (vm_compute; reflexivity).
  assert (Hd : ∃ q g0, EvDeliver 1 3 q g0 false ∈ trace Examples.starved_pass.2).
  { eexists _, _. do 3 right. left. }
  split_and!.
  - reflexivity.
  - intros H. destruct Hd as (q & g0 & Hd). apply H in Hd. rewrite Hp in Hd.
    vm_compute in Hd. discriminate.
  - exact Hd.
  - exact Hp.
  - assert (Forall (λ e, match e with EvDeliver _ _ q _ _ => 3%nat ∉ q | _ => True end)
                   (trace Examples.starved_pass.2)) as Hall.
    { repeat (constructor; [first [exact I | apply not_elem_of_nil]|]). constructor. }
    intros p c q g0 pushed Hin. eapply Forall_forall in Hall; [|exact Hin]. exact Hall.
  - assert (Forall (λ e, match e with EvDequeue n _ => n ≠ 3%nat | _ => True end)
                   (trace Examples.starved_pass.2)) as Hall.
    { repeat (constructor; [first [exact I | discriminate]|]). constructor. }
    intros g0 Hin. eapply Forall_forall in Hall; [|exact Hin]. by apply Hall.
  - apply not_elem_of_nil.
Qed.

(** C3, amended. A delivery that returns, to a consumer that lists the
    producer, appends the consumer to the work queue exactly when the consumer
    is not in the queue and its counter, after the increment of this delivery,
    equals its number of distinct producers; otherwise it leaves the queue as
    it is; the event it records says which of the two happened; and a delivery
    that aborts leaves the queue as it is. In every pass, a delivery that
    enqueues its consumer leaves the consumer's counter equal to the number of
    its producers and finds the consumer outside the queue, a delivery that
    does not enqueue leaves a counter that differs from it, and no node is
    enqueued by two deliveries of the pass. *)
Theorem C3_pushed_once_on_becoming_ready fuel inputs debug g :
  (∀ cur src next s s' c nxt operand,
     operator_heap (graph s) !! cur = Some c →
     operator_heap (graph s) !! next = Some nxt →
     StdMap.find (name c) (input_operands nxt) = Some operand →
     deliver cur src next s = (Ret tt, s') →
     let pushed := bool_decide (next ∉ operator_queue s) &&
                   (meet_num nxt + 1 =? Z.of_nat (StdMap.size (input_operands nxt))) in
     operator_queue s' = (if pushed then operator_queue s ++ [next] else operator_queue s) ∧
     trace s' = trace s ++ [EvDeliver cur next (operator_queue s) (graph s') pushed]) ∧
  (∀ cur src next s e s',
     deliver cur src next s = (Fatal e, s') → operator_queue s' = operator_queue s) ∧
  let tr := trace (run_Forward fuel inputs debug g).2 in
  (∀ p c q g0 pushed, EvDeliver p c q g0 pushed ∈ tr →
     ∃ o, operator_heap g0 !! c = Some o ∧
          (pushed = true ↔ meet_num o = Z.of_nat (StdMap.size (input_operands o))) ∧
          (pushed = true → c ∉ q)) ∧
  NoDup (pushed_by_delivery tr).
Proof.
  split_and!.
  - intros cur src next s s' c nxt operand Hc Hn Hf E.
    apply deliver_spec in E as [(_ & _ & _ & Hskip)|[(e & ? & ? & _)|
      (c' & nxt' & operand' & _ & Hc' & Hn' & _ & _ & Hq & Ht)]]; try discriminate.
    + destruct (Hskip eq_refl) as (_ & c' & nxt' & Hc' & Hn' & Hf').
      rewrite Hc in Hc'. rewrite Hn in Hn'. injection Hc' as <-. injection Hn' as <-.
      by rewrite Hf in Hf'.
    + rewrite Hn in Hn'. injection Hn' as <-. done.
  - intros cur src next s e s' E.
    by apply deliver_spec in E as [(_ & ? & _)|[(? & ? & _ & _ & _ & ? & _)|
      (? & ? & ? & ? & _)]].
  - intros tr. destruct (Forward_pass_ok fuel inputs debug g) as [Hev _ Hpu].
    split; [|done]. intros p c q g0 pushed Hin.
    eapply Forall_forall in Hev; [|done]. exact Hev.
Qed.

Lemma C3_pushed_once_on_becoming_ready_witness :
  ∃ c nxt operand s',
    operator_heap Examples.chain_graph !! 0%nat = Some c ∧
    operator_heap Examples.chain_graph !! 1%nat = Some nxt ∧
    StdMap.find (name c) (input_operands nxt) = Some operand ∧
    deliver 0 Examples.chain_input 1 (mkSched Examples.chain_graph [] [])
      = (Ret tt, s') ∧
    operator_queue s' = [1%nat] ∧
    trace s' = [EvDeliver 0 1 [] (graph s') true].
Proof.
  eexists _, _, _, _. split_and!; [vm_compute; reflexivity..| |].
  - exact (proj1 (proj1 (C3_pushed_once_on_becoming_ready 10 Examples.chain_input false
                    Examples.chain_graph)
             0%nat Examples.chain_input 1%nat (mkSched Examples.chain_graph [] [])
             _ _ _ _ eq_refl eq_refl eq_refl eq_refl)).
  - exact (proj2 (proj1 (C3_pushed_once_on_becoming_ready 10 Examples.chain_input false
                    Examples.chain_graph)
             0%nat Examples.chain_input 1%nat (mkSched Examples.chain_graph [] [])
             _ _ _ _ eq_refl eq_refl eq_refl eq_refl)).
Defined.

(** C4. A Forward call that returns has set the counter of every node of the
    graph to zero, has found exactly one input operand at the output sentinel,
    and returns the buffer list of that operand. With enough fuel the call
    always ends, and it ends in a fatal error when the output sentinel has
    more than one input operand. *)
Theorem C4_Forward_result fuel inputs debug g :
  (∀ res s', run_Forward fuel inputs debug g = (Ret res, s') →
     (∀ n, n ∈ operators_ g → counter_zero (graph s') n) ∧
     ∃ output_op out k operand opd,
       StdMap.find (output_name_ g) (output_operators_maps_ g) = Some output_op ∧
       operator_heap (graph s') !! output_op = Some out ∧
       input_operands out = [(k, operand)] ∧
       operand_heap (graph s') !! operand = Some opd ∧
       res = datas opd) ∧
  ((length (operator_heap g) + 1 < fuel)%nat →
     (run_Forward fuel inputs debug g).1 ≠ NoFuel ∧
     ∀ output_op out,
       StdMap.find (output_name_ g) (output_operators_maps_ g) = Some output_op →
       operator_heap g !! output_op = Some out →
       (1 < StdMap.size (input_operands out))%nat →
       ∃ e, (run_Forward fuel inputs debug g).1 = Fatal e).
Proof.
  assert (Hret : ∀ res s', run_Forward fuel inputs debug g = (Ret res, s') →
     (∀ n, n ∈ operators_ g → counter_zero (graph s') n) ∧
     ∃ output_op out k operand opd,
       StdMap.find (output_name_ g) (output_operators_maps_ g) = Some output_op ∧
       operator_heap (graph s') !! output_op = Some out ∧
       input_operands out = [(k, operand)] ∧
       operand_heap (graph s') !! operand = Some opd ∧
       res = datas opd).
  { intros res s' E. apply Forward_spec in E.
    destruct (decide _); [|by destruct E].
    destruct (StdMap.find (input_name_ g) _) as [i|]; [|by destruct E].
    destruct (StdMap.find (output_name_ g) _) as [o|]; [|by destruct E].
    destruct E as (r1 & s1 & _ & E). destruct r1; [|by destruct E..].
    rewrite liftG_eq in E.
    destruct (Forward_result (operators_ g) o (graph s1)) as [r2 g2] eqn:E2.
    simpl in E. injection E as -> <-. simpl.
    apply Forward_result_spec in E2 as (Hz & out & k & operand & opd & ? & ? & ? & ?).
    split; [done|]. by exists o, out, k, operand, opd. }
  split; [done|]. intros Hfuel.
  pose proof (Forward_finishes fuel inputs debug g Hfuel) as Hfin.
  split; [done|]. intros o out Ho Hout Hsize.
  pose proof (Forward_keeps_wiring fuel inputs debug g) as Hw.
  destruct (run_Forward fuel inputs debug g) as [[res| |] s'] eqn:E; simpl in *;
    [|by eexists|done].
  destruct (Hret res s' eq_refl) as (_ & o' & out' & k & operand & opd & Ho' & Hout' & Hin & _).
  rewrite Ho in Ho'. injection Ho' as <-.
  unfold same_wiring in Hw.
  assert (with_meet_num 0 out = with_meet_num 0 out') as Heq.
  { apply (f_equal (λ l, l !! o)) in Hw. rewrite !list_lookup_fmap, Hout, Hout' in Hw.
    simpl in Hw. congruence. }
  apply (f_equal input_operands) in Heq. simpl in Heq. rewrite Heq, Hin in Hsize.
  simpl in Hsize. lia.
Qed.

Lemma C4_Forward_result_witness :
  ∃ res s',
    run_Forward 10 Examples.chain_input false Examples.chain_graph = (Ret res, s') ∧
    (∀ n, n ∈ operators_ Examples.chain_graph → counter_zero (graph s') n) ∧
    ∃ output_op out k operand opd,
      StdMap.find (output_name_ Examples.chain_graph)
                  (output_operators_maps_ Examples.chain_graph) = Some output_op ∧
      operator_heap (graph s') !! output_op = Some out ∧
      input_operands out = [(k, operand)] ∧
      operand_heap (graph s') !! operand = Some opd ∧
      res = datas opd.
Proof.
  eexists _, _. split; [vm_compute; reflexivity|].
  apply (proj1 (C4_Forward_result 10 Examples.chain_input false Examples.chain_graph)).
  vm_compute. reflexivity.
Defined.

(** C5. A Forward call on a graph whose state is not Complete ends in the
    state error at once: the graph, with every buffer and counter, is the one
    it was called on, and no event (no handler invocation, no delivery) has
    happened. *)
Theorem C5_Forward_needs_Complete fuel inputs debug g :
  graph_state_ g ≠ Complete →
  run_Forward fuel inputs debug g = (Fatal ErrGraphState, mkSched g [] []).
Proof.
  intros Hs. destruct (run_Forward fuel inputs debug g) as [r s'] eqn:E.
  apply Forward_spec in E. destruct (decide _); [done|]. by destruct E as [-> ->].
Qed.

Lemma C5_Forward_needs_Complete_witness :
  graph_state_ Examples.fresh ≠ Complete ∧
  run_Forward 10 [] false Examples.fresh = (Fatal ErrGraphState, mkSched Examples.fresh [] []).
Proof.
  split; [discriminate|].
  apply (C5_Forward_needs_Complete 10 [] false Examples.fresh). discriminate.
Defined.

(** C10. A consumer edge whose consumer does not list the producer's name
    among its input operands is skipped: the delivery returns with the whole
    state (buffers, counters, queue, events) as it was. *)
Theorem C10_unlisted_producer_is_skipped cur src next s c nxt :
  operator_heap (graph s) !! cur = Some c →
  operator_heap (graph s) !! next = Some nxt →
  StdMap.find (name c) (input_operands nxt) = None →
  deliver cur src next s = (Ret tt, s).
Proof.
  intros Hc Hn Hf. unfold deliver.
  rewrite (bind_Ret (liftG (deref_operator cur)) _ s c s).
  2:{ rewrite liftG_eq. unfold deref_operator. rewrite Hc. simpl. by rewrite Sched_eta. }
  rewrite (bind_Ret (liftG (deref_operator next)) _ s nxt s).
  2:{ rewrite liftG_eq. unfold deref_operator. rewrite Hn. simpl. by rewrite Sched_eta. }
  by rewrite Hf.
Qed.

Lemma C10_unlisted_producer_is_skipped_witness :
  ∃ c nxt,
    operator_heap Examples.chain_graph !! 0%nat = Some c ∧
    operator_heap Examples.chain_graph !! 2%nat = Some nxt ∧
    StdMap.find (name c) (input_operands nxt) = None ∧
    deliver 0 Examples.chain_input 2 (mkSched Examples.chain_graph [] [])
      = (Ret tt, mkSched Examples.chain_graph [] []).
Proof.
  eexists _, _. split_and!; [vm_compute; reflexivity..|].
  eapply (C10_unlisted_producer_is_skipped 0 Examples.chain_input 2
            (mkSched Examples.chain_graph [] [])); vm_compute; reflexivity.
Defined.


(** A fresh buffer has the dimensions of the declared shape. *)
Lemma fresh_buffer_dims shp :
  rank_ok shp → Tensor_shapes (fresh_buffer shp) = expected_dims shp.
Proof.
  intros Hr. destruct shp as [|b [|c [|h [|w [|]]]]]; destruct Hr; try discriminate;
    reflexivity.
Qed.


Example flat_operand_gets_two_buffers :
  (init_input_operand 0 Examples.one_operand).1 = Ret tt ∧
  tensor_heap (init_input_operand 0 Examples.one_operand).2
    = [mkTensor 1 3 1 [0; 0; 0]; mkTensor 1 3 1 [0; 0; 0]] ∧
  (datas <$> operand_heap (init_input_operand 0 Examples.one_operand).2 !! 0%nat)
    = Some [0%nat; 1%nat].
Proof. vm_compute. repeat split; reflexivity. Qed.


Example chain_output_operand_created :
  (init_output_operand Examples.chain [0; 1; 2; 3]%nat 1 Examples.chain_initialised).1
    = Ret tt ∧
  operand_heap (init_output_operand Examples.chain [0; 1; 2; 3]%nat 1
                  Examples.chain_initialised).2 !! 3%nat
    = Some (mkRuntimeOperand "1_output" [1; 1; 1; 3] [0%nat] kTypeFloat32).
Proof. vm_compute. split; reflexivity. Qed.

(** C7. A second Build is not always rejected or a no-op. The first Build of
    the chain whose operands have shape [1, 3] returns and leaves a Complete
    graph; Build again, with the same arguments, ends in [std::out_of_range]: it
    is neither rejected with the state error nor a no-op. The loop of lines
    101-108 reads
    the shape vector of the existing output operand where it means the
    dimensions of the buffer, and asks the two-element vector for a third
    element. On the chain whose operands have rank 4 the same loop compares
    the vector with itself, and the second Build returns and leaves the graph
    as it was. *)
Theorem C7_second_Build_of_rank2_graph_aborts :
  Build (Examples.load Examples.flat_chain) Examples.factory "in" "out" Examples.fresh
    = (Ret tt, Examples.flat_chain_built) ∧
  graph_state_ Examples.flat_chain_built = Complete ∧
  Build (Examples.load Examples.flat_chain) Examples.factory "in" "out"
        Examples.flat_chain_built
    = (Fatal ErrOutOfRange, Examples.flat_chain_built) ∧
  Build (Examples.load Examples.chain) Examples.factory "in" "out" Examples.fresh
    = (Ret tt, Examples.chain_built) ∧
  Build (Examples.load Examples.chain) Examples.factory "in" "out" Examples.chain_built
    = (Ret tt, Examples.chain_built).
Proof. split_and!; vm_compute; reflexivity. Qed.

(** C9. In a pass over a well-formed graph (distinct node names, no two
    consumer edges of a node to the same node, an input sentinel without input
    operands, all counters zero) every node taken from the queue that is
    neither sentinel has, in the graph it is taken in, a counter equal to its
    number of distinct producers; and in every pass, of any graph, the branch
    that pushes an unready node back is never taken. *)
Theorem C9_dequeued_nodes_are_ready fuel inputs debug g :
  well_formed g →
  let tr := trace (run_Forward fuel inputs debug g).2 in
  (∀ n g0, EvDequeue n g0 ∈ tr →
     ∃ o, operator_heap g0 !! n = Some o ∧
          meet_num o = Z.of_nat (StdMap.size (input_operands o))) ∧
  (∀ n, EvRetry n ∉ tr).
Proof.
  intros [Hzero Hnames Hedges Hinput] tr. split.
  - assert (Forall dequeue_ready tr) as Hall.
    { subst tr. destruct (run_Forward fuel inputs debug g) as [r s'] eqn:E. simpl.
      apply Forward_spec in E. destruct (decide _); [|destruct E as [_ ->]; constructor].
      destruct (StdMap.find (input_name_ g) _) as [i|] eqn:Hi;
        [|destruct E as [_ ->]; constructor].
      destruct (StdMap.find (output_name_ g) _) as [o|];
        [|destruct E as [_ ->]; constructor].
      destruct E as (r1 & s1 & E1 & E).
      apply schedule_start_wf in E1; try done.
      2:{ intros oi Hoi. by eapply Hinput. }
      destruct r1; [|by destruct E as [_ ->]..].
      rewrite liftG_eq in E. by inversion E. }
    intros n g0 Hin. eapply Forall_forall in Hall; [|done]. exact Hall.
  - intros n Hin. destruct (Forward_pass_ok fuel inputs debug g) as [Hev _ _].
    eapply Forall_forall in Hev; [|done]. exact Hev.
Qed.

Lemma diamond_well_formed : well_formed Examples.diamond_graph.
Proof.
  split.
  - repeat constructor.
  - compute_done.
  - repeat (constructor; [compute_done|]). constructor.
  - intros i o. vm_compute. intros [= <-] [= <-]. reflexivity.
Defined.

Lemma C9_dequeued_nodes_are_ready_witness :
  well_formed Examples.diamond_graph ∧
  let tr := trace (run_Forward 10 Examples.diamond_input false Examples.diamond_graph).2 in
  (∀ n g0, EvDequeue n g0 ∈ tr →
     ∃ o, operator_heap g0 !! n = Some o ∧
          meet_num o = Z.of_nat (StdMap.size (input_operands o))) ∧
  (∀ n, EvRetry n ∉ tr).
Proof.
  split; [exact diamond_well_formed|].
  exact (C9_dequeued_nodes_are_ready 10 Examples.diamond_input false Examples.diamond_graph
           diamond_well_formed).
Defined.

Example diamond_dequeues :
  (λ e, match e with EvDequeue n _ => Some n | _ => None end)
    <$> trace (run_Forward 10 Examples.diamond_input false Examples.diamond_graph).2
  = [None; None; Some 1%nat; None; None; Some 2%nat; None; None; Some 3%nat; None; None].
Proof. vm_compute. reflexivity. Qed.

(** * Further properties of the code *)

(** ** Frames *)

Lemma keeps_eq {A B} (f : RuntimeGraph → B) (m : M RuntimeGraph A) g :
  keeps f m → f (m g).2 = f g.
Proof. intros H. by apply (H (f g)). Qed.

Section Keeps.
Context {B : Type} (f : RuntimeGraph → B).

Lemma keeps_deref_operator p : keeps f (deref_operator p).
Proof. intros v g Hg. unfold deref_operator. by destruct (_ !! _). Qed.

Lemma keeps_deref_operand p : keeps f (deref_operand p).
Proof. intros v g Hg. unfold deref_operand. by destruct (_ !! _). Qed.

Lemma keeps_deref_tensor p : keeps f (deref_tensor p).
Proof. intros v g Hg. unfold deref_tensor. by destruct (_ !! _). Qed.

Lemma keeps_update_operator p u :
  (∀ g o, operator_heap g !! p = Some o →
     f (with_operator_heap (<[p := u o]> (operator_heap g)) g) = f g) →
  keeps f (update_operator p u).
Proof.
  intros H v g Hg. unfold update_operator.
  destruct (_ !! _) eqn:Hp; simpl; [|done]. by rewrite H.
Qed.

Lemma keeps_update_operand p u :
  (∀ g o, operand_heap g !! p = Some o →
     f (with_operand_heap (<[p := u o]> (operand_heap g)) g) = f g) →
  keeps f (update_operand p u).
Proof.
  intros H v g Hg. unfold update_operand.
  destruct (_ !! _) eqn:Hp; simpl; [|done]. by rewrite H.
Qed.

Lemma keeps_update_tensor p u :
  (∀ g t, tensor_heap g !! p = Some t →
     f (with_tensor_heap (<[p := u t]> (tensor_heap g)) g) = f g) →
  keeps f (update_tensor p u).
Proof.
  intros H v g Hg. unfold update_tensor.
  destruct (_ !! _) eqn:Hp; simpl; [|done]. by rewrite H.
Qed.

Lemma keeps_new_operator o :
  (∀ g, f (with_operator_heap (operator_heap g ++ [o]) g) = f g) → keeps f (new_operator o).
Proof. intros H v g Hg. unfold new_operator. simpl. by rewrite H. Qed.

Lemma keeps_new_operand o :
  (∀ g, f (with_operand_heap (operand_heap g ++ [o]) g) = f g) → keeps f (new_operand o).
Proof. intros H v g Hg. unfold new_operand. simpl. by rewrite H. Qed.

Lemma keeps_new_tensor t :
  (∀ g, f (with_tensor_heap (tensor_heap g ++ [t]) g) = f g) → keeps f (new_tensor t).
Proof. intros H v g Hg. unfold new_tensor. simpl. by rewrite H. Qed.

Lemma keeps_modify u : (∀ g, f (u g) = f g) → keeps f (modify u).
Proof. intros H v g Hg. unfold modify. simpl. by rewrite H. Qed.

Lemma keeps_liftG {A} (m : M RuntimeGraph A) : keeps f m → keeps_in_pass f (liftG m).
Proof. intros Hm v s Hs. by apply Hm. Qed.

Lemma keeps_in_pass_modify u : (∀ s, graph (u s) = graph s) → keeps_in_pass f (modify u).
Proof. intros H v s Hs. unfold modify. simpl. by rewrite H. Qed.

End Keeps.

Ltac keeps_auto :=
  repeat (first
    [ match goal with
      | |- keeps _ _ => intros ?
      | |- keeps_in_pass _ _ => intros ?
      end
    | match goal with H : _ |- _ => apply H end
    | apply keeps_liftG
    | apply keeps_deref_operator | apply keeps_deref_operand | apply keeps_deref_tensor
    | by apply keeps_update_operator | by apply keeps_update_operand
    | by apply keeps_update_tensor
    | by apply keeps_new_operator | by apply keeps_new_operand | by apply keeps_new_tensor
    | by apply keeps_modify | by apply keeps_in_pass_modify
    | preserves_step ]).

(** ** What a pass writes *)

Lemma skeleton_counter g p o x :
  operator_heap g !! p = Some o →
  skeleton (with_operator_heap (<[p := with_meet_num x o]> (operator_heap g)) g) = skeleton g.
Proof.
  intros Hp. unfold skeleton. simpl. rewrite list_fmap_insert. simpl.
  rewrite list_insert_id; [done|]. by rewrite list_lookup_fmap, Hp.
Qed.

Lemma skeleton_buffer g p t :
  skeleton (with_tensor_heap (<[p := t]> (tensor_heap g)) g) = skeleton g.
Proof. unfold skeleton. simpl. by rewrite length_insert. Qed.

Lemma keeps_skeleton_counter p (u : RuntimeOperator → Z) :
  keeps skeleton (update_operator p (λ o, with_meet_num (u o) o)).
Proof. apply keeps_update_operator. intros g o Hp. by apply skeleton_counter. Qed.

Lemma keeps_skeleton_reset p : keeps skeleton (update_operator p (with_meet_num 0)).
Proof. apply keeps_update_operator. intros g o Hp. by apply skeleton_counter. Qed.

Lemma keeps_skeleton_buffer p u : keeps skeleton (update_tensor p u).
Proof. apply keeps_update_tensor. intros g t _. apply skeleton_buffer. Qed.

Lemma keeps_CheckOperatorReady {B} (f : RuntimeGraph → B) op : keeps f (CheckOperatorReady op).
Proof. unfold CheckOperatorReady. keeps_auto. Qed.

Lemma keeps_gather_inputs {B} (f : RuntimeGraph → B) l : keeps f (gather_inputs l).
Proof. induction l; simpl; keeps_auto. Qed.

Lemma keeps_read_tensors {B} (f : RuntimeGraph → B) l : keeps f (read_tensors l).
Proof. induction l; simpl; keeps_auto. Qed.

Lemma keeps_skeleton_SetOpInputData src dest : keeps skeleton (SetOpInputData src dest).
Proof. unfold SetOpInputData. pose proof keeps_skeleton_buffer. keeps_auto. Qed.

Lemma keeps_skeleton_run_layer l ins outs : keeps skeleton (run_layer l ins outs).
Proof.
  unfold run_layer. pose proof keeps_skeleton_buffer.
  pose proof (keeps_read_tensors skeleton). keeps_auto.
Qed.

Lemma keeps_skeleton_deliver cur src next : keeps_in_pass skeleton (deliver cur src next).
Proof.
  unfold deliver, push_back, emit. pose proof keeps_skeleton_counter.
  pose proof keeps_skeleton_SetOpInputData. pose proof (keeps_CheckOperatorReady skeleton).
  keeps_auto.
Qed.

Lemma keeps_skeleton_ProbeNextLayer cur src : keeps_in_pass skeleton (ProbeNextLayer cur src).
Proof. unfold ProbeNextLayer. pose proof keeps_skeleton_deliver. keeps_auto. Qed.

Lemma keeps_skeleton_iteration i o inputs : keeps_in_pass skeleton (iteration i o inputs).
Proof.
  unfold iteration, set_queue, push_back, emit.
  pose proof keeps_skeleton_ProbeNextLayer. pose proof keeps_skeleton_run_layer.
  pose proof (keeps_CheckOperatorReady skeleton). pose proof (keeps_gather_inputs skeleton).
  keeps_auto.
Qed.

Lemma keeps_skeleton_schedule fuel i o inputs :
  keeps_in_pass skeleton (schedule fuel i o inputs).
Proof.
  induction fuel as [|fuel IH]; simpl; [by intros v s|].
  pose proof keeps_skeleton_iteration. keeps_auto.
Qed.

Lemma keeps_skeleton_Forward_result ops o : keeps skeleton (Forward_result ops o).
Proof. unfold Forward_result. pose proof keeps_skeleton_reset. keeps_auto. Qed.

Lemma Forward_skeleton fuel inputs debug g :
  skeleton (graph (run_Forward fuel inputs debug g).2) = skeleton g.
Proof.
  destruct (run_Forward fuel inputs debug g) as [r s'] eqn:E. simpl.
  apply Forward_spec in E. destruct (decide _); [|by destruct E as [_ ->]].
  destruct (StdMap.find _ _) as [i|]; [|by destruct E as [_ ->]].
  destruct (StdMap.find _ _) as [o|]; [|by destruct E as [_ ->]].
  destruct E as (r1 & s1 & E1 & E).
  pose proof (keeps_skeleton_schedule fuel i o inputs (skeleton g) (mkSched g [i] [])
                eq_refl) as H1.
  rewrite E1 in H1. simpl in H1.
  destruct r1; [|by destruct E as [_ ->]..].
  pose proof (keeps_liftG _ _ (keeps_skeleton_Forward_result (operators_ g) o)
                (skeleton g) s1 H1) as H2.
  by rewrite E in H2.
Qed.

(** ** The scheduler: frames, errors and fuel *)

(** X1. Whatever its outcome, a Forward call writes nothing but the counters
    of the nodes and the contents of the buffers: the node list, the sentinel
    maps, the state, the recorded names and the operands are the ones it was
    called with, no buffer is created or dropped, and every node is the one it
    was up to its counter. *)
Theorem Forward_writes_counters_and_buffers_only fuel inputs debug g :
  let g' := graph (run_Forward fuel inputs debug g).2 in
  operators_ g' = operators_ g ∧
  input_operators_maps_ g' = input_operators_maps_ g ∧
  output_operators_maps_ g' = output_operators_maps_ g ∧
  graph_state_ g' = graph_state_ g ∧
  input_name_ g' = input_name_ g ∧
  output_name_ g' = output_name_ g ∧
  operand_heap g' = operand_heap g ∧
  length (tensor_heap g') = length (tensor_heap g) ∧
  with_meet_num 0 <$> operator_heap g' = with_meet_num 0 <$> operator_heap g.
Proof.
  intros g'. pose proof (Forward_skeleton fuel inputs debug g) as H. fold g' in H.
  unfold skeleton in H. simpl in H. injection H as H1 H2 H3 H4 H5 H6 H7 H8 H9 H10 H11.
  by split_and!.
Qed.

(** X2. A Forward call on a Complete graph whose recorded input name, or
    output name, is not a key of the corresponding sentinel map ends in the
    error of the missing node, the input one first, before the queue is set up:
    the graph is untouched and no event has happened. *)
Theorem Forward_unknown_sentinel fuel inputs debug g :
  graph_state_ g = Complete →
  StdMap.find (input_name_ g) (input_operators_maps_ g) = None ∨
  StdMap.find (output_name_ g) (output_operators_maps_ g) = None →
  run_Forward fuel inputs debug g =
    (Fatal match StdMap.find (input_name_ g) (input_operators_maps_ g) with
           | None => ErrInputNode
           | Some _ => ErrOutputNode
           end,
     mkSched g [] []).
Proof.
  intros Hc Hmiss. destruct (run_Forward fuel inputs debug g) as [r s'] eqn:E.
  apply Forward_spec in E. destruct (decide _); [|done].
  destruct (StdMap.find (input_name_ g) _) as [i|]; [|by destruct E as [-> ->]].
  destruct Hmiss as [|Hmiss]; [done|]. rewrite Hmiss in E. by destruct E as [-> ->].
Qed.

Lemma Forward_unknown_sentinel_witness :
  graph_state_ Cases.misnamed_chain = Complete ∧
  run_Forward 10 [] false Cases.misnamed_chain
    = (Fatal ErrInputNode, mkSched Cases.misnamed_chain [] []).
Proof.
  split; [reflexivity|].
  apply (Forward_unknown_sentinel 10 [] false Cases.misnamed_chain); [reflexivity|].
  left. reflexivity.
Defined.

Lemma schedule_more_fuel fuel i o inputs : ∀ s r s' k,
  schedule fuel i o inputs s = (r, s') → r ≠ NoFuel →
  schedule (fuel + k) i o inputs s = (r, s').
Proof.
  induction fuel as [|fuel IH]; intros s r s' k E Hr.
  { inversion E; by subst. }
  change (S fuel + k)%nat with (S (fuel + k)). simpl in *.
  unfold mbind, M_bind in *.
  destruct (iteration i o inputs s) as [[[]|e|] s1]; try done. by apply IH.
Qed.

Lemma Forward_more_fuel fuel k inputs debug g :
  (run_Forward fuel inputs debug g).1 ≠ NoFuel →
  run_Forward (fuel + k) inputs debug g = run_Forward fuel inputs debug g.
Proof.
  destruct (run_Forward fuel inputs debug g) as [r s'] eqn:E.
  destruct (run_Forward (fuel + k) inputs debug g) as [r' s''] eqn:E'. simpl. intros Hr.
  apply Forward_spec in E, E'. destruct (decide _).
  2:{ destruct E as [-> ->], E' as [-> ->]. done. }
  destruct (StdMap.find (input_name_ g) _) as [i|].
  2:{ destruct E as [-> ->], E' as [-> ->]. done. }
  destruct (StdMap.find (output_name_ g) _) as [o|].
  2:{ destruct E as [-> ->], E' as [-> ->]. done. }
  destruct E as (r1 & s1 & E1 & E), E' as (r1' & s1' & E1' & E').
  assert (r1 ≠ NoFuel) as Hr1 by (intros ->; by destruct E).
  rewrite (schedule_more_fuel _ _ _ _ _ _ _ k E1 Hr1) in E1'. injection E1' as <- <-.
  destruct r1; [congruence| |done]. destruct E as [-> ->], E' as [-> ->]. done.
Qed.

(** X3. The loop of a pass ends within as many iterations as the graph has
    node objects, plus two: any two bounds above that give the same outcome and
    the same final state, so the bound of the model does not show in a
    result. *)
Theorem Forward_fuel_irrelevant fuel fuel' inputs debug g :
  (length (operator_heap g) + 1 < fuel)%nat →
  (length (operator_heap g) + 1 < fuel')%nat →
  run_Forward fuel inputs debug g = run_Forward fuel' inputs debug g.
Proof.
  intros H H'. destruct (decide (fuel ≤ fuel')%nat) as [Hle|Hle].
  - replace fuel' with (fuel + (fuel' - fuel))%nat by lia.
    symmetry. by apply Forward_more_fuel, Forward_finishes.
  - replace fuel with (fuel' + (fuel - fuel'))%nat by lia.
    by apply Forward_more_fuel, Forward_finishes.
Qed.

Lemma Forward_fuel_irrelevant_witness :
  run_Forward 6 Examples.chain_input false Examples.chain_graph
    = run_Forward 1000 Examples.chain_input false Examples.chain_graph.
Proof.
  apply (Forward_fuel_irrelevant 6 1000 Examples.chain_input false Examples.chain_graph);
    vm_compute; lia.
Defined.

(** ** Propagation and the queue *)

Lemma for_each_deliver_appends cur src l : ∀ s,
  ∃ added,
    operator_queue (for_each l (deliver cur src) s).2 = (operator_queue s ++ added)%list ∧
    NoDup added ∧
    ∀ n, n ∈ added → n ∈ l ∧ n ∉ operator_queue s.
Proof.
  induction l as [|x l IH]; intros s; simpl.
  { exists []. rewrite app_nil_r. split_and!; [done|constructor|].
    intros n Hn. by apply elem_of_nil in Hn. }
  unfold mbind, M_bind. destruct (deliver cur src x s) as [r s1] eqn:E.
  assert (∃ a1, operator_queue s1 = (operator_queue s ++ a1)%list ∧ NoDup a1 ∧
                (∀ n, n ∈ a1 → n = x ∧ n ∉ operator_queue s)) as (a1 & Eq1 & Hnd1 & Ha1).
  { apply deliver_spec in E as [(_ & Eq & _)|[(e & nxt & _ & _ & _ & Eq & _)|
      (c & nxt & operand & _ & _ & _ & _ & _ & Eq & _)]].
    1,2: exists []; rewrite app_nil_r; split_and!; [done|constructor|];
         intros n Hn; by apply elem_of_nil in Hn.
    simpl in Eq. destruct (bool_decide (x ∉ operator_queue s)) eqn:Hin; simpl in Eq.
    2:{ exists []. rewrite app_nil_r. split_and!; [done|constructor|].
        intros n Hn. by apply elem_of_nil in Hn. }
    apply bool_decide_eq_true_1 in Hin.
    destruct (_ =? _).
    - exists [x]. split_and!; [done|apply NoDup_singleton|].
      by intros n ->%list_elem_of_singleton.
    - exists []. rewrite app_nil_r. split_and!; [done|constructor|].
      intros n Hn. by apply elem_of_nil in Hn. }
  destruct r as [[]|e|]; simpl.
  - destruct (IH s1) as (a2 & Eq2 & Hnd2 & Ha2). exists (a1 ++ a2)%list.
    rewrite Eq2, Eq1, <- app_assoc. split_and!; [done| |].
    + apply NoDup_app. split_and!; [done| |done].
      intros n Hn1 Hn2. destruct (Ha2 n Hn2) as [_ Hn]. apply Hn. rewrite Eq1.
      apply elem_of_app. by right.
    + intros n [Hn|Hn]%elem_of_app.
      * destruct (Ha1 n Hn) as [-> ?]. split; [left|done].
      * destruct (Ha2 n Hn) as [? Hq]. split; [by right|].
        intros ?. apply Hq. rewrite Eq1. apply elem_of_app. by left.
  - exists a1. split_and!; [done..|]. intros n Hn. destruct (Ha1 n Hn) as [-> ?].
    split; [left|done].
  - exists a1. split_and!; [done..|]. intros n Hn. destruct (Ha1 n Hn) as [-> ?].
    split; [left|done].
Qed.

(** X4. Whatever its outcome, a propagation only appends to the work queue:
    the queue it ends with is the queue it started with followed by nodes that
    are consumers of the propagating node, were not in the queue, and are
    pairwise distinct. Nothing is taken from the queue or reordered. *)
Theorem ProbeNextLayer_appends_to_queue cur src s :
  ∃ added,
    operator_queue (ProbeNextLayer cur src s).2 = (operator_queue s ++ added)%list ∧
    NoDup added ∧
    ∀ n, n ∈ added →
      n ∈ targets (operator_heap (graph s)) cur ∧ n ∉ operator_queue s.
Proof.
  unfold ProbeNextLayer, mbind, M_bind.
  destruct (liftG (deref_operator cur) s) as [r s1] eqn:E.
  apply liftG_deref_operator in E as [-> E]. unfold targets.
  destruct (operator_heap (graph s) !! cur) as [c|]; subst r.
  - apply for_each_deliver_appends.
  - exists []. simpl. rewrite app_nil_r. split_and!; [done|constructor|].
    intros n Hn. by apply elem_of_nil in Hn.
Qed.

(** ** Copying a propagated result *)

Lemma for_each_app {S A} (l1 l2 : list A) (body : A → M S unit) s :
  for_each (l1 ++ l2) body s = (for_each l1 body ;; for_each l2 body) s.
Proof.
  revert s. induction l1 as [|x l1 IH]; intros s; simpl.
  { unfold mbind, M_bind, mret, M_ret. by destruct (for_each l2 body s) as [[[]| |] ?]. }
  unfold mbind, M_bind in *. by destruct (body x s) as [[[]| |] s1].
Qed.

(** The loop of [SetOpInputData] over the first [n] positions. *)
Lemma copy_loop src dest g : ∀ n,
  (n ≤ length src)%nat → (n ≤ length dest)%nat →
  NoDup dest →
  (∀ p, p ∈ src → p ∉ dest) →
  (∀ p, p ∈ src ++ dest → is_Some (tensor_heap g !! p)) →
  ∃ h,
    for_each (seq 0 n) (λ i,
      s ← at_ src i;
      d ← at_ dest i;
      data ← deref_tensor s;
      update_tensor d (λ t, Tensor_set_data t (Tensor_data data))) g
      = (Ret tt, with_tensor_heap h g) ∧
    length h = length (tensor_heap g) ∧
    (∀ i s d, (i < n)%nat → src !! i = Some s → dest !! i = Some d →
       h !! d = tensor_heap g !! s) ∧
    (∀ p, p ∉ take n dest → h !! p = tensor_heap g !! p).
Proof.
  intros n. induction n as [|n IH]; intros Hs Hd Hnd Hdis Hval.
  { exists (tensor_heap g). simpl. split_and!; [by destruct g|done|lia|done]. }
  destruct IH as (h & E & Hlen & Hcp & Hrest); [lia..|done|done|done|].
  rewrite seq_S, for_each_app. simpl.
  rewrite (bind_Ret _ _ _ _ _ E). simpl.
  destruct (lookup_lt_is_Some_2 src n) as [s Hsn]; [lia|].
  destruct (lookup_lt_is_Some_2 dest n) as [d Hdn]; [lia|].
  assert (Hsd : s ∉ dest) by (apply Hdis; by eapply list_elem_of_lookup_2).
  assert (Hs_old : h !! s = tensor_heap g !! s).
  { apply Hrest. intros (j & Hj & _)%elem_of_take. apply Hsd.
    by eapply list_elem_of_lookup_2. }
  destruct (Hval s) as [ts Hts].
  { apply elem_of_app. left. by eapply list_elem_of_lookup_2. }
  destruct (Hval d) as [td Htd].
  { apply elem_of_app. right. by eapply list_elem_of_lookup_2. }
  assert (Hdtake : d ∉ take n dest).
  { intros (j & Hj & Hlt)%elem_of_take.
    pose proof (NoDup_lookup _ _ _ _ Hnd Hj Hdn). lia. }
  assert (Hd_old : h !! d = Some td) by (rewrite Hrest by done; done).
  unfold at_, mbind, M_bind, mret, M_ret, deref_tensor, update_tensor. simpl.
  rewrite Hsn, Hdn. simpl. rewrite Hs_old, Hts. simpl. rewrite Hd_old. simpl.
  exists (<[d := ts]> h). split_and!.
  - done.
  - by rewrite length_insert.
  - intros i s' d' Hi Hs' Hd'. destruct (decide (i = n)) as [->|Hne].
    + rewrite Hsn in Hs'. rewrite Hdn in Hd'. injection Hs' as <-. injection Hd' as <-.
      rewrite list_lookup_insert_eq by (by eapply lookup_lt_Some). done.
    + assert (d' ≠ d).
      { intros ->. pose proof (NoDup_lookup _ _ _ _ Hnd Hd' Hdn). lia. }
      rewrite list_lookup_insert_ne by done. apply (Hcp i); [lia|done..].
  - intros p Hp. assert (p ≠ d).
    { intros ->. apply Hp. rewrite (take_S_r _ _ _ Hdn). apply elem_of_app. right. left. }
    rewrite list_lookup_insert_ne by done. apply Hrest.
    intros Hin. apply Hp. rewrite (take_S_r _ _ _ Hdn). apply elem_of_app. by left.
Qed.

(** X5. [SetOpInputData] copies by position. When both lists have the same
    length and refer to live buffers, the destinations are pairwise distinct and
    no source is a destination, the call returns, buffer [dest[i]] then holds
    what buffer [src[i]] held, every other buffer holds what it held, and the
    nodes and operands are untouched. *)
Theorem SetOpInputData_copies src dest g :
  length src = length dest →
  NoDup dest →
  (∀ p, p ∈ src → p ∉ dest) →
  (∀ p, p ∈ src ++ dest → is_Some (tensor_heap g !! p)) →
  let r := SetOpInputData src dest g in
  r.1 = Ret tt ∧
  (∀ i s d, src !! i = Some s → dest !! i = Some d →
     tensor_heap r.2 !! d = tensor_heap g !! s) ∧
  (∀ p, p ∉ dest → tensor_heap r.2 !! p = tensor_heap g !! p) ∧
  length (tensor_heap r.2) = length (tensor_heap g) ∧
  operator_heap r.2 = operator_heap g ∧
  operand_heap r.2 = operand_heap g.
Proof.
  intros Hlen Hnd Hdis Hval r.
  destruct (copy_loop src dest g (length src)) as (h & E & Hh & Hcp & Hrest);
    [lia|lia|done..|].
  assert (r = (Ret tt, with_tensor_heap h g)) as ->.
  { unfold r, SetOpInputData. rewrite Hlen, Nat.eqb_refl. simpl.
    rewrite (bind_Ret (mret tt) _ g tt g eq_refl). rewrite <- Hlen. exact E. }
  simpl. split_and!; try done.
  - intros i s d Hs Hd. apply (Hcp i); [by eapply lookup_lt_Some|done..].
  - intros p Hp. apply Hrest. rewrite Hlen, firstn_all. done.
Qed.

Lemma SetOpInputData_copies_witness :
  let r := SetOpInputData [6%nat] [0%nat] Examples.chain_graph in
  r.1 = Ret tt ∧ tensor_heap r.2 !! 0%nat = Some Examples.input_tensor.
Proof.
  destruct (SetOpInputData_copies [6%nat] [0%nat] Examples.chain_graph) as (H1 & H2 & _).
  - reflexivity.
  - apply NoDup_singleton.
  - intros p ->%list_elem_of_singleton [=]%list_elem_of_singleton.
  - intros p [->%list_elem_of_singleton| ->%list_elem_of_singleton]%elem_of_app;
      vm_compute; eauto.
  - split; [exact H1|]. exact (H2 0%nat 6%nat 0%nat eq_refl eq_refl).
Defined.

(** ** The end of a pass *)

Lemma avoids_liftG {A} bad (m : M RuntimeGraph A) : avoids bad m → avoids bad (liftG m).
Proof. intros H s. rewrite liftG_eq. simpl. apply H. Qed.

Lemma avoids_update_tensor bad p f : ErrNullDeref ≠ bad → avoids bad (update_tensor p f).
Proof. intros H g. unfold update_tensor. destruct (_ !! _); simpl; congruence. Qed.

Lemma avoids_gather_inputs bad l : ErrNullDeref ≠ bad → avoids bad (gather_inputs l).
Proof. intros H. induction l; simpl; no_state_error. Qed.

Lemma avoids_read_tensors bad l : ErrNullDeref ≠ bad → avoids bad (read_tensors l).
Proof. intros H. induction l; simpl; no_state_error. Qed.

Lemma schedule_avoids_ErrOutputPath fuel i o inputs :
  avoids ErrOutputPath (schedule fuel i o inputs).
Proof.
  assert (Hread : ∀ l, avoids ErrOutputPath (read_tensors l))
    by (intros l; by apply avoids_read_tensors).
  assert (Hgather : ∀ l, avoids ErrOutputPath (gather_inputs l))
    by (intros l; by apply avoids_gather_inputs).
  assert (Hupd : ∀ p f, avoids ErrOutputPath (update_tensor p f))
    by (intros p f; by apply avoids_update_tensor).
  assert (Hlift : ∀ A (m : M RuntimeGraph A),
            avoids ErrOutputPath m → avoids ErrOutputPath (liftG m))
    by (intros A m; apply avoids_liftG).
  assert (Hprobe : ∀ cur src, avoids ErrOutputPath (ProbeNextLayer cur src)).
  { intros cur src.
    unfold ProbeNextLayer, deliver, SetOpInputData, CheckOperatorReady, push_back, emit.
    no_state_error. }
  induction fuel as [|fuel IH]; simpl; [by intros s|].
  unfold iteration, run_layer, CheckOperatorReady, set_queue, push_back, emit.
  no_state_error.
Qed.

Lemma Forward_result_ErrOutputPath ops o g g' :
  Forward_result ops o g = (Fatal ErrOutputPath, g') →
  (∀ n, n ∈ ops → counter_zero g' n) ∧
  ∃ out, operator_heap g' !! o = Some out ∧ StdMap.size (input_operands out) ≠ 1%nat.
Proof.
  unfold Forward_result. intros E.
  apply bind_inv in E as [([] & g1 & E1 & E)|[(e & E1 & [= <-])|[E1 ?]]]; try discriminate.
  2:{ assert (avoids ErrOutputPath
                (for_each ops (λ op, update_operator op (with_meet_num 0)))) as Ha
        by no_state_error.
      specialize (Ha g). by rewrite E1 in Ha. }
  pose proof (reset_counters _ _ _ E1) as Hz.
  apply bind_inv in E as [(out & g2 & E2 & E)|[(e & E2 & [= <-])|[E2 ?]]]; try discriminate.
  2:{ unfold deref_operator in E2. by destruct (operator_heap _ !! _). }
  unfold deref_operator in E2. destruct (operator_heap g1 !! o) eqn:Ho; [|discriminate].
  inversion E2; subst; clear E2.
  apply bind_inv in E as [([] & g3 & E3 & E)|[(e & E3 & [= <-])|[E3 ?]]]; try discriminate.
  - apply CHECK_inv in E3 as [-> E3].
    destruct (StdMap.size (input_operands out) =? 1)%nat eqn:Hsz; [|discriminate].
    apply Nat.eqb_eq in Hsz. unfold StdMap.size in Hsz.
    destruct (input_operands out) as [|[k operand] [|]] eqn:Hin; try discriminate.
    simpl in E. apply bind_inv in E as [(opd & g4 & E4 & E)|[(e & E4 & [= <-])|[E4 ?]]];
      [by inversion E| |discriminate].
    unfold deref_operand in E4. by destruct (operand_heap _ !! _).
  - apply CHECK_inv in E3 as [-> E3].
    destruct (StdMap.size (input_operands out) =? 1)%nat eqn:Hsz; [discriminate|].
    apply Nat.eqb_neq in Hsz. split; [done|]. by exists out.
Qed.

(** X6. The counters are reset before the output sentinel is inspected: a
    Forward call that ends in the error of the single output path has run its
    loop to the end, has set the counter of every node of the graph to zero, and
    has found an output sentinel whose input-operand map does not hold exactly
    one entry. *)
Theorem Forward_output_path_error_after_reset fuel inputs debug g s' :
  run_Forward fuel inputs debug g = (Fatal ErrOutputPath, s') →
  (∀ n, n ∈ operators_ g → counter_zero (graph s') n) ∧
  ∃ output_op out,
    StdMap.find (output_name_ g) (output_operators_maps_ g) = Some output_op ∧
    operator_heap (graph s') !! output_op = Some out ∧
    StdMap.size (input_operands out) ≠ 1%nat.
Proof.
  intros E. apply Forward_spec in E.
  destruct (decide _); [|by destruct E].
  destruct (StdMap.find (input_name_ g) _) as [i|]; [|by destruct E].
  destruct (StdMap.find (output_name_ g) _) as [o|]; [|by destruct E].
  destruct E as (r1 & s1 & E1 & E). destruct r1 as [[]|e1|]; [| |by destruct E].
  2:{ destruct E as [[= <-] _].
      pose proof (schedule_avoids_ErrOutputPath fuel i o inputs (mkSched g [i] [])) as Ha.
      by rewrite E1 in Ha. }
  rewrite liftG_eq in E.
  destruct (Forward_result (operators_ g) o (graph s1)) as [r2 g2] eqn:E2.
  simpl in E. injection E as -> <-. simpl.
  apply Forward_result_ErrOutputPath in E2 as (Hz & out & Hout & Hsz).
  split; [done|]. by exists o, out.
Qed.

Lemma Forward_output_path_error_after_reset_witness :
  ∃ s',
    run_Forward 10 (Examples.input_of Examples.converging_graph) false
                Examples.converging_graph = (Fatal ErrOutputPath, s') ∧
    ∀ n, n ∈ operators_ Examples.converging_graph → counter_zero (graph s') n.
Proof.
  eexists. split; [vm_compute; reflexivity|].
  apply (Forward_output_path_error_after_reset 10
           (Examples.input_of Examples.converging_graph) false Examples.converging_graph).
  vm_compute. reflexivity.
Defined.

(** ** Pass after pass *)

Lemma Forward_returns_reset fuel inputs debug g res s' :
  run_Forward fuel inputs debug g = (Ret res, s') →
  ∀ n, n ∈ operators_ g → counter_zero (graph s') n.
Proof.
  intros E. apply Forward_spec in E.
  destruct (decide _); [|by destruct E].
  destruct (StdMap.find (input_name_ g) _) as [i|]; [|by destruct E].
  destruct (StdMap.find (output_name_ g) _) as [o|]; [|by destruct E].
  destruct E as (r1 & s1 & _ & E). destruct r1; [|by destruct E..].
  rewrite liftG_eq in E.
  destruct (Forward_result (operators_ g) o (graph s1)) as [r2 g2] eqn:E2.
  simpl in E. injection E as -> <-. simpl.
  by apply Forward_result_spec in E2 as (Hz & _).
Qed.

(** X7. A pass that returns leaves a well-formed graph well-formed, when every
    node object belongs to the node list: names, edges and the input sentinel
    are as they were and every counter is zero again, so the next pass starts
    from the same footing. *)
Theorem Forward_keeps_well_formed fuel inputs debug g res s' :
  well_formed g →
  (∀ n, (n < length (operator_heap g))%nat → n ∈ operators_ g) →
  run_Forward fuel inputs debug g = (Ret res, s') →
  well_formed (graph s').
Proof.
  intros [Hc Hn He Hi] Hall E.
  pose proof (Forward_returns_reset _ _ _ _ _ _ E) as Hz.
  pose proof (Forward_skeleton fuel inputs debug g) as Hsk. rewrite E in Hsk. simpl in Hsk.
  pose proof (Forward_keeps_wiring fuel inputs debug g) as Hw. rewrite E in Hw. simpl in Hw.
  pose proof (f_equal (λ x, input_name_ x.1) Hsk) as Hname. simpl in Hname.
  pose proof (f_equal (λ x, input_operators_maps_ x.1) Hsk) as Hmap. simpl in Hmap.
  assert (Hlen : length (operator_heap (graph s')) = length (operator_heap g)).
  { apply (f_equal length) in Hw. by rewrite !length_fmap in Hw. }
  split.
  - apply Forall_lookup. intros n o' Ho'.
    destruct (Hz n) as (o'' & Ho'' & Hm).
    { apply Hall. rewrite <- Hlen. by eapply lookup_lt_Some. }
    congruence.
  - replace (name <$> operator_heap (graph s'))
      with (name <$> (with_meet_num 0 <$> operator_heap (graph s')))
      by (by rewrite <- list_fmap_compose).
    rewrite <- Hw, <- list_fmap_compose. done.
  - apply Forall_lookup. intros n o' Ho'.
    destruct (same_wiring_fields _ _ _ _ (same_wiring_sym _ _ Hw) Ho')
      as (o & Ho & _ & _ & Hout).
    rewrite <- Hout. eapply Forall_lookup in He; done.
  - intros i o' Hfind Ho'. rewrite Hname, Hmap in Hfind.
    destruct (same_wiring_fields _ _ _ _ (same_wiring_sym _ _ Hw) Ho')
      as (o & Ho & _ & Hin & _).
    rewrite <- Hin. by eapply Hi.
Qed.

(** ** [std::map]: order and first insertion *)

Lemma compare_OT a : ∀ b, String.compare a b = OrdersEx.String_as_OT.compare a b.
Proof. induction a as [|c a IH]; intros [|d b]; simpl; rewrite ?IH; done. Qed.

Lemma compare_trans a b c :
  String.compare a b = Lt → String.compare b c = Lt → String.compare a c = Lt.
Proof.
  rewrite !compare_OT.
  apply (@StrictOrder_Transitive _ _ OrdersEx.String_as_OT.lt_strorder).
Qed.

Lemma compare_Lt_ne a b : String.compare a b = Lt → a ≠ b.
Proof.
  intros H ->. rewrite compare_OT in H.
  by apply (@StrictOrder_Irreflexive _ _ OrdersEx.String_as_OT.lt_strorder b).
Qed.

Lemma compare_Gt_ne a b : String.compare a b = Gt → a ≠ b.
Proof.
  intros H ->. rewrite String.compare_antisym in H.
  destruct (String.compare b b) eqn:E; try done.
  - by apply compare_Lt_ne in E.
Qed.

Lemma compare_Gt_Lt a b : String.compare a b = Gt → String.compare b a = Lt.
Proof. intros H. rewrite String.compare_antisym, H. done. Qed.

Lemma find_None_keys {V} k (m : StdMap.t V) : StdMap.find k m = None ↔ k ∉ StdMap.keys m.
Proof.
  unfold StdMap.keys. induction m as [|[k' v'] m IH]; simpl.
  { split; [intros _; apply not_elem_of_nil|done]. }
  rewrite not_elem_of_cons. destruct (String.eqb_spec k k') as [->|Hne].
  - split; [done|]. by intros [? _].
  - rewrite IH. split; [done|]. by intros [_ ?].
Qed.

Lemma find_is_Some_keys {V} k (m : StdMap.t V) :
  is_Some (StdMap.find k m) ↔ k ∈ StdMap.keys m.
Proof.
  destruct (StdMap.find k m) as [v|] eqn:E.
  - split; [intros _; by eapply find_Some_keys|by eauto].
  - apply find_None_keys in E. split; [by intros [? ?]|done].
Qed.

Lemma keys_insert {V} k (v : V) m k2 :
  k2 ∈ StdMap.keys (StdMap.insert k v m) ↔ k2 = k ∨ k2 ∈ StdMap.keys m.
Proof.
  unfold StdMap.keys. induction m as [|[k' v'] m IH]; simpl.
  { rewrite list_elem_of_singleton. split; [by left|]. intros [?|?%elem_of_nil]; done. }
  destruct (String.compare k k') eqn:E; simpl.
  - apply String.compare_eq_iff in E as ->. rewrite !elem_of_cons. naive_solver.
  - rewrite !elem_of_cons. naive_solver.
  - rewrite !elem_of_cons, IH. naive_solver.
Qed.

Lemma values_insert {V} k (v : V) m x :
  x ∈ StdMap.values (StdMap.insert k v m) → x = v ∨ x ∈ StdMap.values m.
Proof.
  unfold StdMap.values. induction m as [|[k' v'] m IH]; simpl.
  { intros ->%list_elem_of_singleton. by left. }
  destruct (String.compare k k') eqn:E; simpl; rewrite ?elem_of_cons; naive_solver.
Qed.

Lemma entries_insert {V} k (v : V) m kv :
  kv ∈ StdMap.insert k v m → kv = (k, v) ∨ kv ∈ m.
Proof.
  induction m as [|[k' v'] m IH]; simpl.
  { intros ->%list_elem_of_singleton. by left. }
  destruct (String.compare k k') eqn:E; simpl; rewrite ?elem_of_cons; naive_solver.
Qed.

Lemma increasing_insert {V} k (v : V) m :
  increasing (StdMap.keys m) → increasing (StdMap.keys (StdMap.insert k v m)).
Proof.
  unfold StdMap.keys. induction m as [|[k' v'] m IH]; simpl.
  { intros _. split; [constructor|done]. }
  intros [Hlt Hm]. destruct (String.compare k k') eqn:E; simpl.
  - done.
  - split_and!; try done. constructor; [done|].
    eapply Forall_impl; [exact Hlt|]. intros x Hx. simpl in Hx. by eapply compare_trans.
  - split; [|by apply IH].
    apply Forall_forall. intros x Hx.
    apply (keys_insert k v m x) in Hx as [->|Hx].
    + by apply compare_Gt_Lt.
    + eapply Forall_forall in Hlt; done.
Qed.

Lemma increasing_NoDup ks : increasing ks → NoDup ks.
Proof.
  induction ks as [|k ks IH]; simpl; [constructor|]. intros [Hlt Hks].
  constructor; [|by apply IH]. intros Hin.
  eapply Forall_forall in Hlt; [|done]. by apply compare_Lt_ne in Hlt.
Qed.

Lemma find_insert_ne {V} k (v : V) m k2 :
  k2 ≠ k → StdMap.find k2 (StdMap.insert k v m) = StdMap.find k2 m.
Proof.
  intros Hne. induction m as [|[k' v'] m IH]; simpl.
  { by destruct (String.eqb_spec k2 k). }
  destruct (String.compare k k') eqn:E; simpl.
  - done.
  - by destruct (String.eqb_spec k2 k).
  - by rewrite IH.
Qed.

(** [insert] does not overwrite: a key that is present keeps its value. *)
Lemma find_insert_eq {V} k (v : V) m :
  increasing (StdMap.keys m) →
  StdMap.find k (StdMap.insert k v m) = Some (default v (StdMap.find k m)).
Proof.
  unfold StdMap.keys. induction m as [|[k' v'] m IH]; simpl.
  { by rewrite String.eqb_refl. }
  intros [Hlt Hm]. destruct (String.compare k k') eqn:E; simpl.
  - apply String.compare_eq_iff in E as ->. by rewrite String.eqb_refl.
  - rewrite String.eqb_refl. destruct (String.eqb_spec k k') as [->|Hne].
    { by apply compare_Lt_ne in E. }
    destruct (StdMap.find k m) as [v0|] eqn:Hf; [|done].
    apply find_Some_keys in Hf. eapply Forall_forall in Hlt; [|exact Hf].
    simpl in Hlt. pose proof (compare_trans _ _ _ E Hlt) as Hkk.
    by apply compare_Lt_ne in Hkk.
  - destruct (String.eqb_spec k k') as [->|Hne]; [by apply compare_Gt_ne in E|].
    by apply IH.
Qed.

Lemma insert_all_cons {V} k (v : V) kvs m :
  insert_all ((k, v) :: kvs) m = insert_all kvs (StdMap.insert k v m).
Proof. done. Qed.

Lemma increasing_insert_all {V} (kvs : list (string * V)) : ∀ m,
  increasing (StdMap.keys m) → increasing (StdMap.keys (insert_all kvs m)).
Proof.
  induction kvs as [|[k v] kvs IH]; intros m Hm; [done|].
  rewrite insert_all_cons. by apply IH, increasing_insert.
Qed.

Lemma keys_insert_all {V} (kvs : list (string * V)) : ∀ m k,
  k ∈ StdMap.keys (insert_all kvs m) ↔ k ∈ kvs.*1 ∨ k ∈ StdMap.keys m.
Proof.
  induction kvs as [|[k' v] kvs IH]; intros m k.
  { split; [by right|]. intros [?%elem_of_nil|?]; done. }
  rewrite insert_all_cons, IH, keys_insert, fmap_cons, elem_of_cons. simpl. naive_solver.
Qed.

(** The first value inserted under a key is the one the map keeps. *)
Lemma find_insert_all {V} (kvs : list (string * V)) : ∀ m k,
  increasing (StdMap.keys m) →
  StdMap.find k (insert_all kvs m) =
    match StdMap.find k m with
    | Some v => Some v
    | None => first_of k kvs
    end.
Proof.
  induction kvs as [|[k' v] kvs IH]; intros m k Hm.
  { simpl. by destruct (StdMap.find k m). }
  rewrite insert_all_cons, IH by (by apply increasing_insert). simpl.
  destruct (String.eqb_spec k k') as [->|Hne].
  - rewrite find_insert_eq by done. by destruct (StdMap.find k' m).
  - rewrite find_insert_ne by done. done.
Qed.

(** The size of a map filled from nothing is the number of distinct keys. *)
Lemma size_insert_all {V} (kvs : list (string * V)) :
  StdMap.size (insert_all kvs []) = length (remove_dups kvs.*1).
Proof.
  unfold StdMap.size. rewrite <- (length_fmap fst (insert_all kvs [])).
  apply Permutation_length, NoDup_Permutation.
  - apply increasing_NoDup. by apply (increasing_insert_all kvs []).
  - apply NoDup_remove_dups.
  - intros k. rewrite elem_of_remove_dups.
    pose proof (keys_insert_all kvs [] k) as H. unfold StdMap.keys in H. rewrite H.
    split; [intros [?|?%elem_of_nil]; done|by left].
Qed.

(** ** The builder: what is copied from a descriptor *)

Lemma update_operator_run p f g o :
  operator_heap g !! p = Some o →
  update_operator p f g = (Ret tt, with_operator_heap (<[p := f o]> (operator_heap g)) g).
Proof. intros H. unfold update_operator. by rewrite H. Qed.

Lemma lookup_updated {A} (h : list A) p o x :
  h !! p = Some o → <[p := x]> h !! p = Some x.
Proof. intros H. apply list_lookup_insert_eq. by eapply lookup_lt_Some. Qed.

Lemma consumer_loop p cs : ∀ g o,
  operator_heap g !! p = Some o →
  for_each cs (λ c, update_operator p (λ o, with_output_names (output_names o ++ [c]) o)) g
  = (Ret tt,
     with_operator_heap
       (<[p := with_output_names (output_names o ++ cs) o]> (operator_heap g)) g).
Proof.
  induction cs as [|c cs IH]; intros g o Hp; simpl.
  - rewrite app_nil_r. replace (with_output_names (output_names o) o) with o by (by destruct o).
    rewrite list_insert_id by done. by rewrite with_operator_heap_id.
  - rewrite (bind_Ret _ _ _ _ _ (update_operator_run _ _ _ _ Hp)).
    rewrite (IH _ (with_output_names (output_names o ++ [c]) o)).
    2:{ simpl. by eapply lookup_updated. }
    unfold with_operator_heap, with_output_names. simpl.
    by rewrite list_insert_insert_eq, <- app_assoc.
Qed.

Lemma InitOutputOperators_run outputs p : ∀ g o,
  operator_heap g !! p = Some o →
  InitOutputOperators outputs p g =
    (Ret tt,
     with_operator_heap
       (<[p := with_output_names
                 (output_names o ++ concat (consumer_names <$> non_null outputs)) o]>
          (operator_heap g)) g).
Proof.
  unfold InitOutputOperators.
  induction outputs as [|[output|] outputs IH]; intros g o Hp; simpl.
  - rewrite app_nil_r. replace (with_output_names (output_names o) o) with o by (by destruct o).
    rewrite list_insert_id by done. by rewrite with_operator_heap_id.
  - rewrite (bind_Ret _ _ _ _ _ (consumer_loop p (consumer_names output) g o Hp)).
    rewrite (IH _ (with_output_names (output_names o ++ consumer_names output) o)).
    2:{ simpl. by eapply lookup_updated. }
    unfold with_operator_heap, with_output_names. simpl.
    by rewrite list_insert_insert_eq, <- app_assoc.
  - rewrite (bind_Ret (mret tt) _ g tt g eq_refl). by apply IH.
Qed.

(** X8. [InitOutputOperators] on a live node returns and appends to the
    node's consumer names those of every non-null output reference, in order;
    nothing else of the node, and nothing else of the graph, changes. *)
Theorem InitOutputOperators_appends_consumer_names outputs p g o :
  operator_heap g !! p = Some o →
  let r := InitOutputOperators outputs p g in
  r.1 = Ret tt ∧
  ∃ o', r.2 = with_operator_heap (<[p := o']> (operator_heap g)) g ∧
        output_names o' = output_names o ++ concat (consumer_names <$> non_null outputs) ∧
        o' = with_output_names (output_names o') o.
Proof.
  intros Hp r. unfold r. rewrite (InitOutputOperators_run outputs p g o Hp). simpl.
  split; [done|]. eexists. split; [done|]. done.
Qed.

Lemma InitOutputOperators_appends_consumer_names_witness :
  ∃ o', operator_heap (InitOutputOperators
                         [Examples.edge "0" "I" ["A"%string; "B"%string]] 0
                         Examples.chain_initialised).2 !! 0%nat = Some o' ∧
        output_names o' = ["A"; "A"; "B"]%string.
Proof.
  destruct (InitOutputOperators_appends_consumer_names
              [Examples.edge "0" "I" ["A"%string; "B"%string]] 0 Examples.chain_initialised
              (mkRuntimeOperator "in" "pnnx.Input" None ["A"%string] None [] []
                 [("A"%string, 1%nat)] [] [] 0) eq_refl) as (_ & o' & E & Hn & _).
  exists o'. rewrite E. split; [reflexivity|exact Hn].
Defined.

Lemma input_step p input g o :
  operator_heap g !! p = Some o →
  pnnx_operand_type input = 1 →
  (new_operand (mkRuntimeOperand (producer_name input) (pnnx_operand_shape input) []
                                 kTypeUnknown) ≫= λ runtime_operand : nat,
   (if decide (pnnx_operand_type input = 1)
    then update_operand runtime_operand (with_operand_type kTypeFloat32)
    else fatal ErrOperandType);;
   update_operator p (λ o,
     with_input_operands_seq (input_operands_seq o ++ [runtime_operand])
       (with_input_operands
          (StdMap.insert (producer_name input) runtime_operand (input_operands o)) o))) g
  = (Ret tt,
     with_operator_heap
       (<[p := with_input_operands_seq (input_operands_seq o ++ [length (operand_heap g)])
                 (with_input_operands
                    (StdMap.insert (producer_name input) (length (operand_heap g))
                                   (input_operands o)) o)]> (operator_heap g))
       (with_operand_heap (operand_heap g ++ [operand_of input]) g)).
Proof.
  intros Hp Ht. unfold mbind, M_bind, new_operand. simpl.
  destruct (decide _) as [_|]; [|done].
  unfold update_operand. simpl. rewrite list_lookup_middle by done. simpl.
  unfold update_operator. simpl. rewrite Hp. simpl.
  rewrite insert_app_r_alt by lia. rewrite Nat.sub_diag. done.
Qed.

Lemma InitInputOperators_run inputs p : ∀ g o,
  operator_heap g !! p = Some o →
  Forall (λ i, pnnx_operand_type i = 1) (non_null inputs) →
  InitInputOperators inputs p g =
    (Ret tt,
     with_operator_heap
       (<[p := with_input_operands_seq
                 (input_operands_seq o ++
                  seq (length (operand_heap g)) (length (non_null inputs)))
                 (with_input_operands
                    (insert_all (zip (producer_name <$> non_null inputs)
                                     (seq (length (operand_heap g))
                                          (length (non_null inputs))))
                                (input_operands o)) o)]> (operator_heap g))
       (with_operand_heap (operand_heap g ++ (operand_of <$> non_null inputs)) g)).
Proof.
  unfold InitInputOperators.
  induction inputs as [|[input|] inputs IH]; intros g o Hp Hty.
  - simpl. rewrite !app_nil_r.
    replace (with_input_operands_seq _ _) with o by (by destruct o).
    rewrite list_insert_id by done. by destruct g.
  - change (non_null (Some input :: inputs)) with (input :: non_null inputs) in *.
    apply Forall_cons in Hty as [Ht Hty].
    cbn [for_each].
    rewrite (bind_Ret _ _ _ _ _ (input_step p input g o Hp Ht)).
    erewrite IH; [|simpl; by eapply lookup_updated|done].
    unfold with_operator_heap, with_operand_heap, with_input_operands_seq,
      with_input_operands. simpl.
    rewrite list_insert_insert_eq, length_app, <- !app_assoc. simpl.
    by rewrite Nat.add_1_r.
  - change (non_null (None :: inputs)) with (non_null inputs) in *.
    cbn [for_each]. rewrite (bind_Ret (mret tt) _ g tt g eq_refl). by apply IH.
Qed.

Lemma InitInputOperators_bad_type inputs p : ∀ g o,
  operator_heap g !! p = Some o →
  ¬ Forall (λ i, pnnx_operand_type i = 1) (non_null inputs) →
  (InitInputOperators inputs p g).1 = Fatal ErrOperandType.
Proof.
  unfold InitInputOperators.
  induction inputs as [|[input|] inputs IH]; intros g o Hp Hty.
  - destruct Hty. constructor.
  - change (non_null (Some input :: inputs)) with (input :: non_null inputs) in *.
    cbn [for_each].
    assert (pnnx_operand_type input = 1 ∨ pnnx_operand_type input ≠ 1) as [Ht|Ht] by lia.
    + rewrite (bind_Ret _ _ _ _ _ (input_step p input g o Hp Ht)).
      eapply IH; [simpl; by eapply lookup_updated|].
      intros H. apply Hty. by constructor.
    + unfold mbind, M_bind, new_operand. simpl. by destruct (decide _).
  - change (non_null (None :: inputs)) with (non_null inputs) in *.
    cbn [for_each]. rewrite (bind_Ret (mret tt) _ g tt g eq_refl). by eapply IH.
Qed.

(** X9. [InitInputOperators] on a live node. If every non-null input
    reference has element type 1, the call returns: one operand per non-null
    reference is created, in order, named after the producer, with the
    reference's shape, type float32 and no buffer; the node's ordered input
    sequence grows by these operands and its input map gets them inserted under
    the producers' names, one after the other; nothing else changes. If some
    non-null reference has another element type the call is fatal. *)
Theorem InitInputOperators_makes_operands inputs p g o :
  operator_heap g !! p = Some o →
  let ins := non_null inputs in
  let refs := seq (length (operand_heap g)) (length ins) in
  let r := InitInputOperators inputs p g in
  if decide (Forall (λ i, pnnx_operand_type i = 1) ins) then
    r.1 = Ret tt ∧
    ∃ o', r.2 = with_operator_heap (<[p := o']> (operator_heap g))
                  (with_operand_heap (operand_heap g ++ (operand_of <$> ins)) g) ∧
          input_operands_seq o' = input_operands_seq o ++ refs ∧
          input_operands o' =
            insert_all (zip (producer_name <$> ins) refs) (input_operands o) ∧
          o' = with_input_operands_seq (input_operands_seq o')
                 (with_input_operands (input_operands o') o)
  else r.1 = Fatal ErrOperandType.
Proof.
  intros Hp ins refs r. unfold r. destruct (decide _) as [Hty|Hty].
  - rewrite (InitInputOperators_run inputs p g o Hp Hty). simpl.
    split; [done|]. eexists. split; [done|]. done.
  - by eapply InitInputOperators_bad_type.
Qed.

Lemma InitInputOperators_makes_operands_witness :
  (InitInputOperators Cases.twice_inputs 0 Examples.chain_initialised).1 = Ret tt ∧
  (InitInputOperators [Cases.int_input] 0 Examples.chain_initialised).1
    = Fatal ErrOperandType.
Proof.
  split.
  - exact (proj1 (InitInputOperators_makes_operands Cases.twice_inputs 0
                    Examples.chain_initialised _ eq_refl)).
  - exact (InitInputOperators_makes_operands [Cases.int_input] 0
             Examples.chain_initialised _ eq_refl).
Defined.

Lemma first_of_zip_keys {V} (ks : list string) (vs : list V) k :
  length ks = length vs → is_Some (first_of k (zip ks vs)) ↔ k ∈ ks.
Proof.
  revert vs. induction ks as [|k' ks IH]; intros [|v vs] Hlen; simpl in *; try done.
  { split; [by intros [? ?]|by intros ?%elem_of_nil]. }
  rewrite elem_of_cons. destruct (String.eqb_spec k k') as [->|Hne].
  - split; [by left|by eauto].
  - rewrite IH by lia. split; [by right|by intros [?|?]].
Qed.

(** X10. The number of producers of a node counts names, not references. On
    a node without input operands, [InitInputOperators] leaves an input map
    with one entry per distinct producer name among the non-null references,
    holding the first operand made for that name, while the ordered sequence
    gets one operand per reference. *)
Theorem InitInputOperators_counts_distinct_producers inputs p g o :
  operator_heap g !! p = Some o →
  input_operands o = [] →
  Forall (λ i, pnnx_operand_type i = 1) (non_null inputs) →
  let ins := non_null inputs in
  let refs := seq (length (operand_heap g)) (length ins) in
  ∃ o', operator_heap (InitInputOperators inputs p g).2 !! p = Some o' ∧
        producers o' = Z.of_nat (length (remove_dups (producer_name <$> ins))) ∧
        length (input_operands_seq o')
          = (length (input_operands_seq o) + length ins)%nat ∧
        ∀ k, StdMap.find k (input_operands o')
             = first_of k (zip (producer_name <$> ins) refs).
Proof.
  intros Hp Hempty Hty ins refs.
  rewrite (InitInputOperators_run inputs p g o Hp Hty). simpl.
  eexists. split; [by eapply lookup_updated|]. unfold producers.
  cbn [input_operands input_operands_seq with_input_operands_seq with_input_operands].
  rewrite Hempty. fold ins. fold refs.
  assert (length (producer_name <$> ins) = length refs) as Hlen
    by (unfold refs; by rewrite length_fmap, length_seq).
  split_and!.
  - rewrite size_insert_all. do 3 f_equal. apply fst_zip. lia.
  - unfold refs. by rewrite length_app, length_seq.
  - intros k. by rewrite find_insert_all.
Qed.

Lemma InitInputOperators_counts_distinct_producers_witness :
  ∃ o', operator_heap (InitInputOperators Cases.twice_inputs 0
                         Examples.chain_initialised).2 !! 0%nat = Some o' ∧
        producers o' = 1 ∧ length (input_operands_seq o') = 2%nat.
Proof.
  destruct (InitInputOperators_counts_distinct_producers Cases.twice_inputs 0
              Examples.chain_initialised _ eq_refl eq_refl) as (o' & Ho' & Hp & Hs & _).
  - repeat constructor.
  - exists o'. split; [exact Ho'|]. split; [exact Hp|exact Hs].
Defined.

(** ** Parameters and weights *)

Lemma insert_all_cons' {V} (kv : string * V) kvs m :
  insert_all (kv :: kvs) m = insert_all kvs (StdMap.insert kv.1 kv.2 m).
Proof. done. Qed.

Lemma RuntimeParameter_of_known p : is_Some (RuntimeParameter_of p) ↔ known_parameter p.
Proof.
  unfold RuntimeParameter_of, known_parameter.
  repeat (destruct (decide _); [split; [lia|by eauto]|]).
  split; [by intros [? ?]|lia].
Qed.

Lemma InitGraphParams_run ps p : ∀ g o,
  operator_heap g !! p = Some o →
  Forall (λ kv, known_parameter kv.2) ps →
  InitGraphParams ps p g =
    (Ret tt,
     with_operator_heap
       (<[p := with_params (insert_all (parameter_entry <$> ps) (params o)) o]>
          (operator_heap g)) g).
Proof.
  unfold InitGraphParams.
  induction ps as [|[k v] ps IH]; intros g o Hp Hty.
  - simpl. replace (with_params (params o) o) with o by (by destruct o).
    rewrite list_insert_id by done. by rewrite with_operator_heap_id.
  - apply Forall_cons in Hty as [Ht Hty]. cbn [for_each fst snd]. simpl in Ht.
    apply RuntimeParameter_of_known in Ht as [rp Hrp]. rewrite Hrp.
    rewrite (bind_Ret _ _ _ _ _ (update_operator_run _ _ _ _ Hp)).
    erewrite IH; [|simpl; by eapply lookup_updated|done].
    assert (parameter_entry (k, v) = (k, rp)) as Hentry
      by (unfold parameter_entry; cbn [fst snd]; by rewrite Hrp).
    rewrite fmap_cons, Hentry, insert_all_cons.
    unfold with_operator_heap, with_params. cbn [operator_heap params].
    by rewrite list_insert_insert_eq.
Qed.

Lemma InitGraphParams_bad_type ps p : ∀ g o,
  operator_heap g !! p = Some o →
  ¬ Forall (λ kv, known_parameter kv.2) ps →
  (InitGraphParams ps p g).1 = Fatal ErrParameterType.
Proof.
  unfold InitGraphParams.
  induction ps as [|[k v] ps IH]; intros g o Hp Hty.
  - destruct Hty. constructor.
  - cbn [for_each fst snd].
    destruct (RuntimeParameter_of v) as [rp|] eqn:Hrp.
    + rewrite (bind_Ret _ _ _ _ _ (update_operator_run _ _ _ _ Hp)).
      eapply IH; [simpl; by eapply lookup_updated|].
      intros H. apply Hty. constructor; [|done]. simpl.
      apply RuntimeParameter_of_known. by eauto.
    + done.
Qed.

Lemma first_of_fmap {V W} (f : V → W) (kvs : list (string * V)) k :
  first_of k ((λ kv, (kv.1, f kv.2)) <$> kvs) = f <$> StdMap.find k kvs.
Proof.
  induction kvs as [|[k' v] kvs IH]; simpl; [done|].
  by destruct (String.eqb k k').
Qed.

(** X11. [InitGraphParams] on a live node returns exactly when the kind of
    every parameter of the descriptor is one of the eight known kinds, and is
    fatal otherwise. When it returns, only the node's parameter map has
    changed, and on a node that had no parameter the map then gives every name
    of the descriptor the parameter converted to its kind. *)
Theorem InitGraphParams_copies_known_kinds ps p g o :
  operator_heap g !! p = Some o →
  let r := InitGraphParams ps p g in
  if decide (Forall (λ kv, known_parameter kv.2) ps) then
    r.1 = Ret tt ∧
    ∃ o', r.2 = with_operator_heap (<[p := o']> (operator_heap g)) g ∧
          o' = with_params (params o') o ∧
          (params o = [] →
           ∀ k, StdMap.find k (params o') = StdMap.find k ps ≫= RuntimeParameter_of)
  else r.1 = Fatal ErrParameterType.
Proof.
  intros Hp r. unfold r. destruct (decide _) as [Hty|Hty].
  - rewrite (InitGraphParams_run ps p g o Hp Hty). simpl.
    split; [done|]. eexists. split; [done|]. split; [done|]. simpl.
    intros -> k. rewrite find_insert_all by done. simpl.
    unfold parameter_entry. rewrite (first_of_fmap (λ v, default _ (RuntimeParameter_of v))).
    destruct (StdMap.find k ps) as [v|] eqn:Hf; simpl; [|done].
    assert (known_parameter v) as [rp Hrp]%RuntimeParameter_of_known.
    { induction ps as [|[k' v'] ps IH]; simpl in Hf; [done|].
      apply Forall_cons in Hty as [Hv Hty]. destruct (String.eqb k k'); [|by apply IH].
      by injection Hf as <-. }
    by rewrite Hrp.
  - by eapply InitGraphParams_bad_type.
Qed.

Lemma InitGraphParams_copies_known_kinds_witness :
  (InitGraphParams [("stride"%string, Cases.stride)] 0 Examples.chain_initialised).1 = Ret tt ∧
  (InitGraphParams [("stride"%string, Cases.odd_parameter)] 0
                   Examples.chain_initialised).1 = Fatal ErrParameterType.
Proof.
  split.
  - exact (proj1 (InitGraphParams_copies_known_kinds [("stride"%string, Cases.stride)] 0
                    Examples.chain_initialised _ eq_refl)).
  - exact (InitGraphParams_copies_known_kinds [("stride"%string, Cases.odd_parameter)] 0
             Examples.chain_initialised _ eq_refl).
Defined.

Lemma InitGraphAttrs_run attrs p : ∀ g o,
  operator_heap g !! p = Some o →
  Forall (λ kv, a_type kv.2 = 1) attrs →
  InitGraphAttrs attrs p g =
    (Ret tt,
     with_operator_heap
       (<[p := with_attribute (insert_all (attribute_entry <$> attrs) (attribute o)) o]>
          (operator_heap g)) g).
Proof.
  unfold InitGraphAttrs.
  induction attrs as [|[k v] attrs IH]; intros g o Hp Hty.
  - simpl. replace (with_attribute (attribute o) o) with o by (by destruct o).
    rewrite list_insert_id by done. by rewrite with_operator_heap_id.
  - apply Forall_cons in Hty as [Ht Hty]. cbn [for_each]. simpl in Ht. simpl.
    destruct (decide _) as [_|]; [|done].
    rewrite (bind_Ret _ _ _ _ _ (update_operator_run _ _ _ _ Hp)).
    erewrite IH; [|simpl; by eapply lookup_updated|done].
    unfold with_operator_heap, with_attribute, attribute_entry, attribute_of. simpl.
    by rewrite list_insert_insert_eq.
Qed.

Lemma InitGraphAttrs_bad_type attrs p : ∀ g o,
  operator_heap g !! p = Some o →
  ¬ Forall (λ kv, a_type kv.2 = 1) attrs →
  (InitGraphAttrs attrs p g).1 = Fatal ErrAttributeType.
Proof.
  unfold InitGraphAttrs.
  induction attrs as [|[k v] attrs IH]; intros g o Hp Hty.
  - destruct Hty. constructor.
  - cbn [for_each]. simpl.
    assert (a_type v = 1 ∨ a_type v ≠ 1) as [Ht|Ht] by lia.
    + destruct (decide _) as [_|]; [|done].
      rewrite (bind_Ret _ _ _ _ _ (update_operator_run _ _ _ _ Hp)).
      eapply IH; [simpl; by eapply lookup_updated|].
      intros H. apply Hty. by constructor.
    + by destruct (decide _).
Qed.

(** X12. [InitGraphAttrs] on a live node returns exactly when every weight
    of the descriptor has element type 1, and is fatal otherwise. When it
    returns, only the node's weight map has changed, and on a node that had no
    weight the map then gives every name of the descriptor its data and shape,
    as float32. *)
Theorem InitGraphAttrs_copies_float_weights attrs p g o :
  operator_heap g !! p = Some o →
  let r := InitGraphAttrs attrs p g in
  if decide (Forall (λ kv, a_type kv.2 = 1) attrs) then
    r.1 = Ret tt ∧
    ∃ o', r.2 = with_operator_heap (<[p := o']> (operator_heap g)) g ∧
          o' = with_attribute (attribute o') o ∧
          (attribute o = [] →
           ∀ k, StdMap.find k (attribute o') = attribute_of <$> StdMap.find k attrs)
  else r.1 = Fatal ErrAttributeType.
Proof.
  intros Hp r. unfold r. destruct (decide _) as [Hty|Hty].
  - rewrite (InitGraphAttrs_run attrs p g o Hp Hty). simpl.
    split; [done|]. eexists. split; [done|]. split; [done|]. simpl.
    intros -> k. rewrite find_insert_all by done. simpl.
    unfold attribute_entry. by rewrite (first_of_fmap attribute_of).
  - by eapply InitGraphAttrs_bad_type.
Qed.

Lemma InitGraphAttrs_copies_float_weights_witness :
  (InitGraphAttrs [("weight"%string, Cases.weight)] 0 Examples.chain_initialised).1 = Ret tt ∧
  (InitGraphAttrs [("weight"%string, Cases.odd_weight)] 0
                  Examples.chain_initialised).1 = Fatal ErrAttributeType.
Proof.
  split.
  - exact (proj1 (InitGraphAttrs_copies_float_weights [("weight"%string, Cases.weight)] 0
                    Examples.chain_initialised _ eq_refl)).
  - exact (InitGraphAttrs_copies_float_weights [("weight"%string, Cases.odd_weight)] 0
             Examples.chain_initialised _ eq_refl).
Defined.

(** ** The builder: consumer edges *)

Lemma edges_of_ext h h' p names ops :
  (∀ q, q ≠ p → name <$> h !! q = name <$> h' !! q) →
  edges_of h p names ops = edges_of h' p names ops.
Proof.
  intros H. unfold edges_of. apply list_omap_ext, Forall2_same_length_lookup.
  split; [done|]. intros i q q' Hq Hq'. rewrite Hq in Hq'. injection Hq' as <-.
  destruct (decide (q = p)) as [|n]; [done|]. specialize (H q n).
  destruct (h !! q) as [oq|], (h' !! q) as [oq'|]; simpl in *; try done.
  by injection H as ->.
Qed.

Lemma edges_of_updated h p x names ops :
  edges_of (<[p := x]> h) p names ops = edges_of h p names ops.
Proof. apply edges_of_ext. intros q Hq. by rewrite list_lookup_insert_ne. Qed.

Lemma elem_of_edges_of h p names ops k q :
  (k, q) ∈ edges_of h p names ops ↔
  q ∈ ops ∧ q ≠ p ∧ k ∈ names ∧ name <$> h !! q = Some k.
Proof.
  unfold edges_of. rewrite list_elem_of_omap. split.
  - intros (q' & Hq' & H). destruct (decide (q' = p)); [done|].
    destruct (h !! q') as [oq|] eqn:Hoq; [|done]. simpl in H.
    destruct (bool_decide _) eqn:Hn; [|done]. injection H as <- <-.
    apply bool_decide_eq_true_1 in Hn. by rewrite Hoq.
  - intros (Hq & Hne & Hk & Hname). exists q. split; [done|].
    destruct (decide (q = p)); [done|].
    destruct (h !! q) as [oq|]; [|done]. simpl in *. injection Hname as <-.
    by rewrite bool_decide_eq_true_2.
Qed.

Lemma edges_of_cons_self h p names ops :
  edges_of h p names (p :: ops) = edges_of h p names ops.
Proof. unfold edges_of. simpl. by destruct (decide (p = p)). Qed.

Lemma edges_of_cons_other h p names q oq ops :
  q ≠ p → h !! q = Some oq →
  edges_of h p names (q :: ops) =
    if bool_decide (name oq ∈ names)
    then (name oq, q) :: edges_of h p names ops
    else edges_of h p names ops.
Proof.
  intros Hne Hq. unfold edges_of. simpl. destruct (decide (q = p)); [done|].
  rewrite Hq. simpl. by destruct (bool_decide _).
Qed.

Lemma wire_run ops p : ∀ g o,
  operator_heap g !! p = Some o →
  (∀ q, q ∈ ops → is_Some (operator_heap g !! q)) →
  wire_operator ops p g =
    (Ret tt,
     with_operator_heap
       (<[p := with_output_operators
                 (insert_all (edges_of (operator_heap g) p (output_names o) ops)
                             (output_operators o)) o]> (operator_heap g)) g).
Proof.
  unfold wire_operator.
  induction ops as [|q ops IH]; intros g o Hp Hval.
  - simpl. replace (with_output_operators (output_operators o) o) with o by (by destruct o).
    rewrite list_insert_id by done. by rewrite with_operator_heap_id.
  - cbn [for_each].
    destruct (decide (q = p)) as [->|Hne].
    { rewrite edges_of_cons_self.
      rewrite (bind_Ret (mret tt) _ g tt g eq_refl). apply IH; [done|].
      intros q Hq. apply Hval. by right. }
    destruct (Hval q) as [oq Hoq]; [left|].
    rewrite (edges_of_cons_other _ _ _ _ _ _ Hne Hoq).
    assert (E : (deref_operator p ≫= λ cur : RuntimeOperator,
                 deref_operator q ≫= λ nxt : RuntimeOperator,
                 if bool_decide (name nxt ∈ output_names cur)
                 then update_operator p (λ o0,
                        with_output_operators
                          (StdMap.insert (name nxt) q (output_operators o0)) o0)
                 else mret tt) g
              = (if bool_decide (name oq ∈ output_names o)
                 then update_operator p (λ o0,
                        with_output_operators
                          (StdMap.insert (name oq) q (output_operators o0)) o0)
                 else mret tt) g).
    { unfold mbind, M_bind, deref_operator. by rewrite Hp, Hoq. }
    destruct (bool_decide (name oq ∈ output_names o)) eqn:Hin.
    + rewrite (update_operator_run _ _ _ _ Hp) in E.
      rewrite (bind_Ret _ _ _ _ _ E).
      erewrite IH; [|simpl; by eapply lookup_updated|].
      2:{ intros q' Hq'. simpl. apply list_lookup_insert_is_Some. apply Hval. by right. }
      rewrite insert_all_cons.
      unfold with_operator_heap, with_output_operators. simpl.
      by rewrite list_insert_insert_eq, edges_of_updated.
    + rewrite (bind_Ret _ _ _ _ _ E). apply IH; [done|].
      intros q' Hq'. apply Hval. by right.
Qed.

Lemma entries_insert_all {V} (kvs : list (string * V)) : ∀ m kv,
  kv ∈ insert_all kvs m → kv ∈ kvs ∨ kv ∈ m.
Proof.
  induction kvs as [|[k v] kvs IH]; intros m kv H; [by right|].
  rewrite insert_all_cons in H. apply IH in H as [H|H]; [left; by right|].
  apply entries_insert in H as [->|H]; [left; left|by right].
Qed.

(** X13. [wire_operator] on a live node, with a list of live nodes, returns
    and changes nothing but the node's consumer edges. An edge it adds goes to a
    node of the list other than the node itself, under that node's name, which
    is one of the node's consumer names; and every such node is then reachable
    under its name. A node never gets an edge to itself. *)
Theorem wire_operator_edges ops p g o :
  operator_heap g !! p = Some o →
  (∀ q, q ∈ ops → is_Some (operator_heap g !! q)) →
  let r := wire_operator ops p g in
  r.1 = Ret tt ∧
  ∃ o', r.2 = with_operator_heap (<[p := o']> (operator_heap g)) g ∧
        o' = with_output_operators (output_operators o') o ∧
        (∀ k q, (k, q) ∈ output_operators o' →
           (k, q) ∈ output_operators o ∨
           (q ∈ ops ∧ q ≠ p ∧ k ∈ output_names o ∧
            name <$> operator_heap g !! q = Some k)) ∧
        (∀ q oq, q ∈ ops → q ≠ p → operator_heap g !! q = Some oq →
           name oq ∈ output_names o →
           is_Some (StdMap.find (name oq) (output_operators o'))).
Proof.
  intros Hp Hval r. unfold r. rewrite (wire_run ops p g o Hp Hval). simpl.
  split; [done|]. eexists. split; [done|]. split; [done|]. simpl. split.
  - intros k q [H|H]%entries_insert_all; [right|by left].
    by apply elem_of_edges_of in H.
  - intros q oq Hq Hne Hoq Hn. apply find_is_Some_keys, keys_insert_all. left.
    apply list_elem_of_fmap. exists (name oq, q). split; [done|].
    apply elem_of_edges_of. by rewrite Hoq.
Qed.

Lemma wire_operator_edges_witness :
  ∃ o', operator_heap (wire_operator [0; 1; 2; 3]%nat 1 Examples.chain_initialised).2 !! 1%nat
          = Some o' ∧
        ∀ k q, (k, q) ∈ output_operators o' → q ≠ 1%nat.
Proof.
  destruct (wire_operator_edges [0; 1; 2; 3]%nat 1 Examples.chain_initialised _ eq_refl)
    as (_ & o' & E & _ & Hsound & _).
  - intros q Hq. repeat (apply elem_of_cons in Hq as [->|Hq]; [vm_compute; eauto|]).
    by apply elem_of_nil in Hq.
  - exists o'. rewrite E. split; [reflexivity|].
    intros k q [H|H]%Hsound.
    + vm_compute in H. apply list_elem_of_singleton in H. by injection H as _ ->.
    + by destruct H as (_ & ? & _).
Defined.

(** ** The builder: [Init] *)

Lemma Init_unfold load g :
  Init load g =
    if String.eqb (bin_path_ g) "" || String.eqb (param_path_ g) "" then (Ret false, g)
    else
      let loaded := load (param_path_ g) (bin_path_ g) in
      let g1 := with_graph (Some loaded.2) g in
      if negb (loaded.1 =? 0) then (Ret false, g1)
      else if is_nil loaded.2 then (Ret false, g1)
      else init_operators loaded.2 g1.
Proof.
  unfold Init. rewrite (bind_Ret get _ g g g eq_refl).
  destruct (_ || _); [done|].
  rewrite (bind_Ret (modify _) _ g tt _ eq_refl). simpl.
  destruct (negb _); [done|]. by destruct (is_nil _).
Qed.

Lemma skip_if_nil {A} (l : list A) (f : list A → M RuntimeGraph unit) :
  f [] = mret tt → (if negb (is_nil l) then f l else mret tt) = f l.
Proof. intros H. by destruct l. Qed.

Lemma init_operator_run d g :
  descriptor_ok d →
  init_operator (Some d) g =
    (Ret tt,
     with_operators (operators_ g ++ [length (operator_heap g)])
       (with_operator_heap (operator_heap g ++ [node_of d (length (operand_heap g))])
          (with_operand_heap
             (operand_heap g ++ (operand_of <$> non_null (pnnx_inputs d))) g))).
Proof.
  intros (Hin & Hat & Hpa). unfold init_operator. destruct g as [i1 i2 i3 i4 i5 i6 i7 i8 i9 h oh th].
  cbn [operators_ operator_heap operand_heap].
  assert (Hattr : ∀ p, (if negb (StdMap.is_empty (pnnx_attrs d))
                        then InitGraphAttrs (pnnx_attrs d) p else mret tt)
                       = InitGraphAttrs (pnnx_attrs d) p)
    by (intros p; by destruct (pnnx_attrs d)).
  assert (Hpar : ∀ p, (if negb (StdMap.is_empty (pnnx_params d))
                       then InitGraphParams (pnnx_params d) p else mret tt)
                      = InitGraphParams (pnnx_params d) p)
    by (intros p; by destruct (pnnx_params d)).
  set (g := mkRuntimeGraph i1 i2 i3 i4 i5 i6 i7 i8 i9 h oh th). set (p := length h).
  rewrite (bind_Ret (new_operator _) _ g p
             (with_operator_heap (h ++ [RuntimeOperator_default]) g) eq_refl).
  rewrite (skip_if_nil (pnnx_inputs d) (λ l, InitInputOperators l p)) by done.
  rewrite (skip_if_nil (pnnx_outputs d) (λ l, InitOutputOperators l p)) by done.
  rewrite Hattr, Hpar.
  set (g1 := with_operator_heap (h ++ [RuntimeOperator_default]) g).
  assert (H1 : operator_heap g1 !! p = Some RuntimeOperator_default)
    by (by apply list_lookup_middle).
  pose proof (update_operator_run p (with_name_type (pnnx_name d) (pnnx_type d)) g1 _ H1) as E1.
  rewrite (bind_Ret _ _ _ _ _ E1). clear E1.
  set (o2 := with_name_type (pnnx_name d) (pnnx_type d) RuntimeOperator_default).
  set (g2 := with_operator_heap (<[p := o2]> (operator_heap g1)) g1).
  assert (H2 : operator_heap g2 !! p = Some o2) by (by eapply lookup_updated).
  pose proof (InitInputOperators_run (pnnx_inputs d) p g2 o2 H2 Hin) as E2.
  rewrite (bind_Ret _ _ _ _ _ E2). clear E2.
  match goal with |- (_ ≫= _) (with_operator_heap (<[p := ?o]> _) ?g) = _ =>
    set (o3 := o); set (g3' := g) end.
  set (g3 := with_operator_heap (<[p := o3]> (operator_heap g2)) g3').
  assert (H3 : operator_heap g3 !! p = Some o3) by (by eapply lookup_updated).
  pose proof (InitOutputOperators_run (pnnx_outputs d) p g3 o3 H3) as E3.
  rewrite (bind_Ret _ _ _ _ _ E3). clear E3.
  match goal with |- (_ ≫= _) (with_operator_heap (<[p := ?o]> _) _) = _ =>
    set (o4 := o) end.
  set (g4 := with_operator_heap (<[p := o4]> (operator_heap g3)) g3).
  assert (H4 : operator_heap g4 !! p = Some o4) by (by eapply lookup_updated).
  pose proof (InitGraphAttrs_run (pnnx_attrs d) p g4 o4 H4 Hat) as E4.
  rewrite (bind_Ret _ _ _ _ _ E4). clear E4.
  match goal with |- (_ ≫= _) (with_operator_heap (<[p := ?o]> _) _) = _ =>
    set (o5 := o) end.
  set (g5 := with_operator_heap (<[p := o5]> (operator_heap g4)) g4).
  assert (H5 : operator_heap g5 !! p = Some o5) by (by eapply lookup_updated).
  pose proof (InitGraphParams_run (pnnx_params d) p g5 o5 H5 Hpa) as E5.
  rewrite (bind_Ret _ _ _ _ _ E5). clear E5.
  unfold modify. f_equal.
  unfold g5, g4, g3, g3', g2, g1, g. simpl.
  rewrite !list_insert_insert_eq.
  rewrite insert_app_r_alt by (unfold p; lia). unfold p. rewrite Nat.sub_diag.
  simpl. done.
Qed.

Lemma bind_fst_Fatal {S A B} (m : M S A) (f : A → M S B) s e :
  (m s).1 = Fatal e → ((m ≫= f) s).1 = Fatal e.
Proof. unfold mbind, M_bind. destruct (m s) as [[a| |] s1]; simpl; by intros [= ->]. Qed.

Lemma init_operator_fails d g :
  ¬ descriptor_ok d → ∃ e, (init_operator (Some d) g).1 = Fatal e.
Proof.
  intros Hbad. unfold init_operator.
  destruct g as [i1 i2 i3 i4 i5 i6 i7 i8 i9 h oh th].
  assert (Hattr : ∀ p, (if negb (StdMap.is_empty (pnnx_attrs d))
                        then InitGraphAttrs (pnnx_attrs d) p else mret tt)
                       = InitGraphAttrs (pnnx_attrs d) p)
    by (intros p; by destruct (pnnx_attrs d)).
  assert (Hpar : ∀ p, (if negb (StdMap.is_empty (pnnx_params d))
                       then InitGraphParams (pnnx_params d) p else mret tt)
                      = InitGraphParams (pnnx_params d) p)
    by (intros p; by destruct (pnnx_params d)).
  set (g := mkRuntimeGraph i1 i2 i3 i4 i5 i6 i7 i8 i9 h oh th). set (p := length h).
  rewrite (bind_Ret (new_operator _) _ g p
             (with_operator_heap (h ++ [RuntimeOperator_default]) g) eq_refl).
  rewrite (skip_if_nil (pnnx_inputs d) (λ l, InitInputOperators l p)) by done.
  rewrite (skip_if_nil (pnnx_outputs d) (λ l, InitOutputOperators l p)) by done.
  rewrite Hattr, Hpar.
  set (g1 := with_operator_heap (h ++ [RuntimeOperator_default]) g).
  assert (H1 : operator_heap g1 !! p = Some RuntimeOperator_default)
    by (by apply list_lookup_middle).
  pose proof (update_operator_run p (with_name_type (pnnx_name d) (pnnx_type d)) g1 _ H1) as E1.
  rewrite (bind_Ret _ _ _ _ _ E1). clear E1.
  set (o2 := with_name_type (pnnx_name d) (pnnx_type d) RuntimeOperator_default).
  set (g2 := with_operator_heap (<[p := o2]> (operator_heap g1)) g1).
  assert (H2 : operator_heap g2 !! p = Some o2) by (by eapply lookup_updated).
  destruct (decide (Forall (λ i, pnnx_operand_type i = 1) (non_null (pnnx_inputs d))))
    as [Hin|Hin].
  2:{ exists ErrOperandType. apply bind_fst_Fatal. by eapply InitInputOperators_bad_type. }
  pose proof (InitInputOperators_run (pnnx_inputs d) p g2 o2 H2 Hin) as E2.
  rewrite (bind_Ret _ _ _ _ _ E2). clear E2.
  match goal with |- ∃ _, ((_ ≫= _) (with_operator_heap (<[p := ?o]> _) ?g)).1 = _ =>
    set (o3 := o); set (g3' := g) end.
  set (g3 := with_operator_heap (<[p := o3]> (operator_heap g2)) g3').
  assert (H3 : operator_heap g3 !! p = Some o3) by (by eapply lookup_updated).
  pose proof (InitOutputOperators_run (pnnx_outputs d) p g3 o3 H3) as E3.
  rewrite (bind_Ret _ _ _ _ _ E3). clear E3.
  match goal with |- ∃ _, ((_ ≫= _) (with_operator_heap (<[p := ?o]> _) _)).1 = _ =>
    set (o4 := o) end.
  set (g4 := with_operator_heap (<[p := o4]> (operator_heap g3)) g3).
  assert (H4 : operator_heap g4 !! p = Some o4) by (by eapply lookup_updated).
  destruct (decide (Forall (λ kv : string * PnnxAttribute, a_type kv.2 = 1) (pnnx_attrs d)))
    as [Hat|Hat].
  2:{ exists ErrAttributeType. apply bind_fst_Fatal. by eapply InitGraphAttrs_bad_type. }
  pose proof (InitGraphAttrs_run (pnnx_attrs d) p g4 o4 H4 Hat) as E4.
  rewrite (bind_Ret _ _ _ _ _ E4). clear E4.
  match goal with |- ∃ _, ((_ ≫= _) (with_operator_heap (<[p := ?o]> _) _)).1 = _ =>
    set (o5 := o) end.
  set (g5 := with_operator_heap (<[p := o5]> (operator_heap g4)) g4).
  assert (H5 : operator_heap g5 !! p = Some o5) by (by eapply lookup_updated).
  exists ErrParameterType. apply bind_fst_Fatal. eapply InitGraphParams_bad_type; [done|].
  intros Hpa. by apply Hbad.
Qed.

Lemma nodes_of_descriptors_length ds : ∀ n, length (nodes_of_descriptors ds n) = length ds.
Proof. induction ds as [|d ds IH]; intros n; simpl; by rewrite ?IH. Qed.

Lemma nodes_of_descriptors_lookup ds : ∀ n k d,
  ds !! k = Some d → ∃ n', nodes_of_descriptors ds n !! k = Some (node_of d n').
Proof.
  induction ds as [|d' ds IH]; intros n [|k] d H; simpl in *; try done.
  - injection H as ->. by eexists.
  - by eapply IH.
Qed.

(** The loop over the descriptors, run to its end. *)
Lemma init_loop_run ops : ∀ g g',
  for_each ops init_operator g = (Ret tt, g') →
  Forall descriptor_ok (non_null ops) ∧
  g' = with_operators
         (operators_ g ++ seq (length (operator_heap g)) (length (non_null ops)))
         (with_operator_heap
            (operator_heap g ++ nodes_of_descriptors (non_null ops) (length (operand_heap g)))
            (with_operand_heap
               (operand_heap g ++ operands_of_descriptors (non_null ops)) g)).
Proof.
  induction ops as [|[d|] ops IH]; intros g g' E.
  - simpl in E. injection E as <-. split; [constructor|].
    simpl. rewrite !app_nil_r. by destruct g.
  - change (non_null (Some d :: ops)) with (d :: non_null ops).
    cbn [for_each] in E.
    destruct (decide (descriptor_ok d)) as [Hd|Hd].
    2:{ destruct (init_operator_fails d g Hd) as [e He].
        apply (bind_fst_Fatal _ (λ _, for_each ops init_operator)) in He.
        by rewrite E in He. }
    pose proof (init_operator_run d g Hd) as E1.
    destruct g as [i1 i2 i3 i4 i5 i6 i7 i8 i9 h oh th].
    unfold with_operators, with_operator_heap, with_operand_heap in E1. simpl in E1.
    rewrite (bind_Ret _ _ _ _ _ E1) in E. clear E1.
    apply IH in E as [Hok ->]. split; [by constructor|].
    unfold with_operators, with_operator_heap, with_operand_heap. simpl.
    rewrite !length_app, length_fmap. simpl.
    rewrite <- !app_assoc. simpl. by rewrite Nat.add_1_r.
  - change (non_null (None :: ops)) with (non_null ops).
    cbn [for_each] in E. rewrite (bind_Ret (init_operator None) _ g tt g eq_refl) in E.
    by apply IH.
Qed.

Lemma name_wired h ops p o : name (wired h ops p o) = name o.
Proof. done. Qed.

(** The loop over the nodes that adds the consumer edges. *)
Lemma wiring_run ops l : ∀ g,
  NoDup l →
  (∀ q, q ∈ ops → is_Some (operator_heap g !! q)) →
  (∀ q, q ∈ l → q ∈ ops) →
  ∃ h', for_each l (wire_operator ops) g = (Ret tt, with_operator_heap h' g) ∧
        length h' = length (operator_heap g) ∧
        ∀ p o, operator_heap g !! p = Some o →
          h' !! p = Some (if bool_decide (p ∈ l) then wired (operator_heap g) ops p o else o).
Proof.
  induction l as [|p l IH]; intros g Hnd Hval Hsub.
  { exists (operator_heap g). simpl. rewrite with_operator_heap_id. split_and!; try done. }
  apply NoDup_cons in Hnd as [Hp Hnd].
  destruct (Hval p) as [o Ho]; [apply Hsub; left|].
  cbn [for_each]. rewrite (bind_Ret _ _ _ _ _ (wire_run ops p g o Ho Hval)).
  fold (wired (operator_heap g) ops p o).
  set (g1 := with_operator_heap (<[p := wired (operator_heap g) ops p o]> (operator_heap g)) g).
  destruct (IH g1) as (h' & E & Hlen & Hlook); [done| | |].
  { intros q Hq. simpl. apply list_lookup_insert_is_Some. by apply Hval. }
  { intros q Hq. apply Hsub. by right. }
  exists h'. rewrite E. split_and!.
  - by destruct g.
  - rewrite Hlen. simpl. by rewrite length_insert.
  - intros q oq Hq. destruct (decide (q = p)) as [->|Hne].
    + rewrite Ho in Hq. injection Hq as <-.
      rewrite (Hlook p (wired (operator_heap g) ops p o)) by (simpl; by eapply lookup_updated).
      rewrite bool_decide_eq_false_2 by done. by rewrite bool_decide_eq_true_2 by left.
    + rewrite (Hlook q oq) by (simpl; by rewrite list_lookup_insert_ne).
      assert (bool_decide (q ∈ p :: l) = bool_decide (q ∈ l)) as ->.
      { apply bool_decide_ext. rewrite elem_of_cons. split; [by intros [?|?]|by right]. }
      destruct (bool_decide (q ∈ l)); [|done]. f_equal. unfold wired. simpl. do 2 f_equal.
      apply edges_of_ext. intros q' _. destruct (decide (q' = p)) as [->|Hne'].
      * rewrite (lookup_updated _ _ _ _ Ho), Ho. done.
      * by rewrite list_lookup_insert_ne.
Qed.

Lemma init_operators_run ops g b g' :
  init_operators ops g = (Ret b, g') →
  let ds := non_null ops in
  let h1 := operator_heap g ++ nodes_of_descriptors ds (length (operand_heap g)) in
  let ops' := seq (length (operator_heap g)) (length ds) in
  b = true ∧ Forall descriptor_ok ds ∧
  ∃ h', g' = with_graph_state NeedBuild
               (with_operator_heap h'
                  (with_operators ops'
                     (with_operand_heap (operand_heap g ++ operands_of_descriptors ds) g))) ∧
        length h' = length h1 ∧
        ∀ p o, h1 !! p = Some o →
          h' !! p = Some (if bool_decide (p ∈ ops') then wired h1 ops' p o else o).
Proof.
  intros E ds h1 ops'. unfold init_operators in E.
  rewrite (bind_Ret (modify _) _ g tt (with_operators [] g) eq_refl) in E.
  apply bind_inv in E as [([] & g1 & E1 & E)|[(e & _ & ?)|[_ ?]]]; try discriminate.
  apply init_loop_run in E1 as [Hok ->].
  rewrite (bind_Ret get _ _ _ _ eq_refl) in E.
  destruct g as [i1 i2 i3 i4 i5 i6 i7 i8 i9 h oh th].
  unfold with_operators, with_operator_heap, with_operand_heap in E. simpl in E.
  fold ds in E. simpl in h1, ops'. fold h1 in E. fold ops' in E.
  match type of E with (_ ≫= _) ?g = _ => set (g1 := g) in * end.
  destruct (wiring_run ops' ops' g1) as (h' & E2 & Hlen & Hlook).
  { apply NoDup_seq. }
  { intros q Hq%elem_of_seq. simpl. apply lookup_lt_is_Some. unfold h1.
    rewrite length_app, nodes_of_descriptors_length. lia. }
  { done. }
  rewrite (bind_Ret _ _ _ _ _ E2) in E.
  rewrite (bind_Ret (modify _) _ _ tt _ eq_refl) in E.
  injection E as <- <-. split; [done|]. split; [done|].
  exists h'. split_and!; try done.
Qed.

Lemma Init_run load g g' :
  Init load g = (Ret true, g') →
  let loaded := load (param_path_ g) (bin_path_ g) in
  loaded.1 = 0 ∧ init_operators loaded.2 (with_graph (Some loaded.2) g) = (Ret true, g').
Proof.
  rewrite Init_unfold. destruct (_ || _); [done|]. simpl.
  destruct (_ =? 0) eqn:Hz; simpl; [|done]. apply Z.eqb_eq in Hz.
  by destruct (is_nil _).
Qed.

Lemma fresh_node_lookup h ds n k d :
  ds !! k = Some d →
  ∃ n', (h ++ nodes_of_descriptors ds n) !! (length h + k)%nat = Some (node_of d n').
Proof.
  intros Hk. destruct (nodes_of_descriptors_lookup ds n k d Hk) as [n' Hn'].
  exists n'. by rewrite lookup_app_r, Nat.add_comm, Nat.add_sub by lia.
Qed.

(** X14. When [Init] returns true, the loader has answered 0 and every
    descriptor is acceptable (float32 inputs and weights, parameters of a known
    kind). The node list then holds one fresh node per non-null descriptor, in
    order; each carries the descriptor's name and type, the consumer names of
    its output references, one input operand per input reference and one
    producer per distinct producer name, no handler, no output operand and a
    counter of zero. Nodes that existed before are untouched, the new operands
    follow the old ones, the state is [NeedBuild], the loaded descriptors are
    kept, and the buffers and the sentinel maps are as they were. *)
Theorem Init_builds_one_node_per_descriptor load g g' :
  Init load g = (Ret true, g') →
  let ops := (load (param_path_ g) (bin_path_ g)).2 in
  let ds := non_null ops in
  let n0 := length (operator_heap g) in
  (load (param_path_ g) (bin_path_ g)).1 = 0 ∧
  Forall descriptor_ok ds ∧
  operators_ g' = seq n0 (length ds) ∧
  length (operator_heap g') = (n0 + length ds)%nat ∧
  (∀ p o, operator_heap g !! p = Some o → operator_heap g' !! p = Some o) ∧
  (∀ k d, ds !! k = Some d →
     ∃ o, operator_heap g' !! (n0 + k)%nat = Some o ∧
          name o = pnnx_name d ∧ type o = pnnx_type d ∧
          output_names o = concat (consumer_names <$> non_null (pnnx_outputs d)) ∧
          producers o =
            Z.of_nat (length (remove_dups (producer_name <$> non_null (pnnx_inputs d)))) ∧
          length (input_operands_seq o) = length (non_null (pnnx_inputs d)) ∧
          layer o = None ∧ output_operands o = None ∧ meet_num o = 0) ∧
  operand_heap g' = operand_heap g ++ operands_of_descriptors ds ∧
  graph_state_ g' = NeedBuild ∧
  graph_ g' = Some ops ∧
  tensor_heap g' = tensor_heap g ∧
  input_operators_maps_ g' = input_operators_maps_ g ∧
  output_operators_maps_ g' = output_operators_maps_ g.
Proof.
  intros E ops ds n0. apply Init_run in E as [Hcode E]. fold ops in E.
  apply init_operators_run in E as (_ & Hok & h' & -> & Hlen & Hlook).
  fold ds in Hok, Hlen, Hlook. simpl in Hlen, Hlook. fold n0 in Hlook.
  rewrite length_app, nodes_of_descriptors_length in Hlen. fold n0 in Hlen.
  assert (Hheap : ∀ x y z w, operator_heap (with_graph_state NeedBuild
            (with_operator_heap h' (with_operators x (with_operand_heap y
               (with_graph z w))))) = h') by done.
  rewrite !Hheap.
  split_and!; try done.
  - intros p o Hp.
    rewrite (Hlook p o) by (by apply lookup_app_l_Some).
    rewrite bool_decide_eq_false_2; [done|].
    intros Hin%elem_of_seq. apply lookup_lt_Some in Hp. unfold n0 in Hin. lia.
  - intros k d Hk.
    destruct (fresh_node_lookup (operator_heap g) ds (length (operand_heap g)) k d Hk)
      as [n' Hn'].
    fold n0 in Hn'. eexists. split; [by apply Hlook|].
    rewrite bool_decide_eq_true_2 by (apply elem_of_seq; apply lookup_lt_Some in Hk; lia).
    split_and!; try done.
    + unfold producers. simpl. rewrite size_insert_all. do 3 f_equal.
      apply fst_zip. by rewrite length_fmap, length_seq.
    + simpl. by rewrite length_seq.
Qed.

(** X15. When [Init] returns true, the consumer edges of every node of the
    list are these: an edge goes to another node of the list (never to the node
    itself), it is kept under the name of that node, and this name is one of
    the node's consumer names; conversely every other node of the list whose
    name is one of the node's consumer names can be reached under its name. *)
Theorem Init_wires_consumer_names load g g' :
  Init load g = (Ret true, g') →
  ∀ p o, p ∈ operators_ g' → operator_heap g' !! p = Some o →
    (∀ k q, (k, q) ∈ output_operators o →
       q ∈ operators_ g' ∧ q ≠ p ∧ k ∈ output_names o ∧
       name <$> operator_heap g' !! q = Some k) ∧
    (∀ q oq, q ∈ operators_ g' → q ≠ p → operator_heap g' !! q = Some oq →
       name oq ∈ output_names o →
       is_Some (StdMap.find (name oq) (output_operators o))).
Proof.
  intros E. apply Init_run in E as [Hcode E].
  apply init_operators_run in E as (_ & Hok & h' & -> & Hlen & Hlook).
  set (ds := non_null (load (param_path_ g) (bin_path_ g)).2) in *.
  simpl in Hlen, Hlook.
  assert (Hheap : ∀ x y z w, operator_heap (with_graph_state NeedBuild
            (with_operator_heap h' (with_operators x (with_operand_heap y
               (with_graph z w))))) = h') by done.
  assert (Hops : ∀ x y z w, operators_ (with_graph_state NeedBuild
            (with_operator_heap h' (with_operators x (with_operand_heap y
               (with_graph z w))))) = x) by done.
  rewrite !Hheap, !Hops. clear Hheap Hops.
  set (n0 := length (operator_heap g)) in *.
  set (h1 := operator_heap g ++ nodes_of_descriptors ds (length (operand_heap g))) in *.
  set (ops' := seq n0 (length ds)) in *.
  assert (Hname : ∀ q, name <$> h' !! q = name <$> h1 !! q).
  { intros q. destruct (h1 !! q) as [oq|] eqn:Hq.
    - rewrite (Hlook q oq Hq). simpl. by destruct (bool_decide _).
    - apply lookup_ge_None in Hq. rewrite <- Hlen in Hq. apply lookup_ge_None in Hq.
      by rewrite Hq. }
  assert (Hnew : ∀ p, p ∈ ops' → ∃ d n', h1 !! p = Some (node_of d n')).
  { intros p Hp%elem_of_seq.
    destruct (lookup_lt_is_Some_2 ds (p - n0)) as [d Hd]; [lia|].
    destruct (fresh_node_lookup (operator_heap g) ds (length (operand_heap g)) _ d Hd)
      as [n' Hn'].
    exists d, n'. fold n0 in Hn'. by replace (n0 + (p - n0))%nat with p in Hn' by lia. }
  intros p o Hp Ho. destruct (Hnew p Hp) as (d & n' & Hp1).
  rewrite (Hlook p _ Hp1), bool_decide_eq_true_2 in Ho by done. injection Ho as <-.
  split.
  - intros k q [H|H]%entries_insert_all; [|by apply elem_of_nil in H].
    apply elem_of_edges_of in H as (Hq & Hne & Hk & Hn). by rewrite Hname.
  - intros q oq Hq Hne Hoq Hn. apply find_is_Some_keys, keys_insert_all. left.
    apply list_elem_of_fmap. exists (name oq, q). split; [done|].
    apply elem_of_edges_of. split_and!; try done. by rewrite <- Hname, Hoq.
Qed.

Lemma Init_builds_one_node_per_descriptor_witness :
  Init (Examples.load Examples.chain) Examples.fresh = (Ret true, Examples.chain_initialised) ∧
  operators_ Examples.chain_initialised = [0; 1; 2; 3]%nat.
Proof.
  assert (E : Init (Examples.load Examples.chain) Examples.fresh
              = (Ret true, Examples.chain_initialised)) by (vm_compute; reflexivity).
  split; [exact E|].
  exact (proj1 (proj2 (proj2 (Init_builds_one_node_per_descriptor
                                (Examples.load Examples.chain) Examples.fresh
                                Examples.chain_initialised E)))).
Defined.

Lemma Init_wires_consumer_names_witness :
  Init (Examples.load Examples.chain) Examples.fresh = (Ret true, Examples.chain_initialised) ∧
  ∀ k q, (k, q) ∈ [("A"%string, 1%nat)] → q ≠ 0%nat.
Proof.
  assert (E : Init (Examples.load Examples.chain) Examples.fresh
              = (Ret true, Examples.chain_initialised)) by (vm_compute; reflexivity).
  split; [exact E|]. intros k q H.
  destruct (Init_wires_consumer_names (Examples.load Examples.chain) Examples.fresh
              Examples.chain_initialised E 0%nat
              (mkRuntimeOperator "in" "pnnx.Input" None ["A"%string] None [] []
                 [("A"%string, 1%nat)] [] [] 0)) as [Hsound _].
  - vm_compute. left.
  - reflexivity.
  - by destruct (Hsound k q H) as (_ & ? & _).
Defined.

(** X16. [Init] returns false exactly when a path is empty, the loader
    answers something other than 0, or the loader leaves no descriptor; it then
    has built nothing: with an empty path the graph is untouched, otherwise only
    the loaded descriptors have been stored. *)
Theorem Init_returns_false load g :
  let loaded := load (param_path_ g) (bin_path_ g) in
  let r := Init load g in
  (r.1 = Ret false ↔
     bin_path_ g = ""%string ∨ param_path_ g = ""%string ∨ loaded.1 ≠ 0 ∨ loaded.2 = []) ∧
  (r.1 = Ret false →
     r.2 = if decide (bin_path_ g = ""%string ∨ param_path_ g = ""%string) then g
           else with_graph (Some loaded.2) g).
Proof.
  intros loaded r. unfold r. rewrite Init_unfold. fold loaded.
  destruct (String.eqb_spec (bin_path_ g) "") as [Hb|Hb]; simpl.
  { split; [split; [by left|done]|]. intros _. by rewrite decide_True by (by left). }
  destruct (String.eqb_spec (param_path_ g) "") as [Hp|Hp]; simpl.
  { split; [split; [by right; left|done]|]. intros _. by rewrite decide_True by (by right). }
  rewrite decide_False by (by intros [?|?]).
  destruct (Z.eqb_spec loaded.1 0) as [Hz|Hz]; simpl.
  2:{ split; [split; [by right; right; left|done]|done]. }
  destruct loaded.2 as [|op ops] eqn:Hops; simpl.
  { split; [split; [by right; right; right|done]|done]. }
  destruct (init_operators (op :: ops) (with_graph (Some (op :: ops)) g)) as [res g'] eqn:E.
  assert (res ≠ Ret false) as Hres.
  { intros ->. by apply init_operators_run in E as [? _]. }
  simpl. split; [|done]. split; [done|]. by intros [?|[?|[?|?]]].
Qed.

(** ** The builder: [Build] *)

(** X17. The guards of [Build]. A graph that is not initialised is rejected
    with the state error and left as it is; a graph to initialise whose [Init]
    returns false is fatal, in the state [Init] left; a graph that is
    initialised but has no node is fatal and left as it is. *)
Theorem Build_guards load factory input_name output_name g :
  match graph_state_ g with
  | Uninitialized =>
      Build load factory input_name output_name g = (Fatal ErrGraphState, g)
  | NeedInit =>
      (Init load g).1 = Ret false →
      Build load factory input_name output_name g = (Fatal ErrInitFailed, (Init load g).2)
  | _ =>
      operators_ g = [] →
      Build load factory input_name output_name g = (Fatal ErrNoOperators, g)
  end.
Proof.
  unfold Build. rewrite (bind_Ret get _ g g g eq_refl).
  destruct (graph_state_ g) eqn:Hs; simpl.
  - rewrite (bind_Ret (mret tt) _ g tt g eq_refl), (bind_Ret get _ g g g eq_refl).
    rewrite Hs. done.
  - intros Hi. destruct (Init load g) as [r g1] eqn:E. simpl in Hi. subst r.
    unfold mbind, M_bind. by rewrite E.
  - intros Hops.
    rewrite (bind_Ret (mret tt) _ g tt g eq_refl), (bind_Ret get _ g g g eq_refl).
    rewrite Hs, Hops. done.
  - intros Hops.
    rewrite (bind_Ret (mret tt) _ g tt g eq_refl), (bind_Ret get _ g g g eq_refl).
    rewrite Hs, Hops. done.
Qed.

Lemma Build_guards_witness :
  Build (Examples.load Examples.chain) Examples.factory "in" "out"
        (with_graph_state Uninitialized Examples.fresh)
    = (Fatal ErrGraphState, with_graph_state Uninitialized Examples.fresh).
Proof.
  exact (Build_guards (Examples.load Examples.chain) Examples.factory "in" "out"
           (with_graph_state Uninitialized Examples.fresh)).
Defined.

(** ** What the passes of [Build] leave alone *)

Ltac keeps_side := intros; first [done | match goal with H : _ |- _ => by apply H end].

Ltac frame_auto :=
  repeat (first
    [ match goal with
      | |- keeps _ _ => intros ?
      end
    | match goal with H : keeps _ _ |- _ => apply H end
    | match goal with H : ∀ _, keeps _ _ |- _ => apply H end
    | match goal with H : ∀ _ _, keeps _ _ |- _ => apply H end
    | apply keeps_deref_operator | apply keeps_deref_operand | apply keeps_deref_tensor
    | apply keeps_update_operator; keeps_side
    | apply keeps_update_operand; keeps_side
    | apply keeps_update_tensor; keeps_side
    | apply keeps_new_operator; keeps_side
    | apply keeps_new_operand; keeps_side
    | apply keeps_new_tensor; keeps_side
    | apply keeps_modify; keeps_side
    | preserves_step ]).

Section ShapeFrame.
Context {B : Type} (f : RuntimeGraph → B).
Hypothesis f_operands : ∀ h g, f (with_operand_heap h g) = f g.
Hypothesis f_tensors : ∀ h g, f (with_tensor_heap h g) = f g.
Hypothesis f_output_operand : ∀ g p o r,
  operator_heap g !! p = Some o →
  f (with_operator_heap (<[p := with_output_operands r o]> (operator_heap g)) g) = f g.

Lemma keeps_make_buffers n shp : keeps f (make_buffers n shp).
Proof. induction n; simpl; unfold make_buffer; frame_auto. Qed.

Lemma keeps_InitOperatorInputTensor ops : keeps f (InitOperatorInputTensor ops).
Proof.
  pose proof keeps_make_buffers.
  unfold InitOperatorInputTensor, init_input_operand, check_input_buffer, eq_at_u32,
    eq_at_const. frame_auto.
Qed.

Lemma keeps_InitOperatorOutputTensor pops ops : keeps f (InitOperatorOutputTensor pops ops).
Proof.
  pose proof keeps_make_buffers.
  unfold InitOperatorOutputTensor, init_output_operand, check_output_buffer, eq_at,
    eq_at_const. frame_auto.
Qed.

End ShapeFrame.

Lemma bindings_output_operand g p o r :
  operator_heap g !! p = Some o →
  bindings (with_operator_heap (<[p := with_output_operands r o]> (operator_heap g)) g)
    = bindings g.
Proof.
  intros Hp. unfold bindings. simpl. rewrite list_fmap_insert. simpl.
  apply list_insert_id. by rewrite list_lookup_fmap, Hp.
Qed.

Lemma bindings_lookup g g' p o :
  bindings g' = bindings g → operator_heap g !! p = Some o →
  ∃ o', operator_heap g' !! p = Some o' ∧ name o' = name o ∧ type o' = type o ∧
        layer o' = layer o.
Proof.
  intros H Hp. apply (f_equal (λ l, l !! p)) in H. unfold bindings in H.
  rewrite !list_lookup_fmap, Hp in H. destruct (operator_heap g' !! p) as [o'|]; [|done].
  simpl in H. injection H as ? ? ?. by exists o'.
Qed.

Lemma InitOperatorOutputTensor_count pops ops g g' :
  InitOperatorOutputTensor pops ops g = (Ret tt, g') → length pops = length ops.
Proof.
  unfold InitOperatorOutputTensor. intros E.
  apply bind_inv in E as [([] & g1 & E1 & E)|[(? & _ & ?)|[_ ?]]]; try discriminate.
  apply bind_inv in E as [([] & g2 & E2 & E)|[(? & _ & ?)|[_ ?]]]; try discriminate.
  apply CHECK_inv in E2 as [_ E2].
  destruct (length pops =? length ops)%nat eqn:Hlen; [|discriminate].
  by apply Nat.eqb_eq in Hlen.
Qed.

Lemma Build_run load factory input_name output_name g g' :
  Build load factory input_name output_name g = (Ret tt, g') →
  ∃ g1 g3 g4 g5 pops,
    (if decide (graph_state_ g = NeedInit) then Init load g = (Ret true, g1) else g1 = g) ∧
    operators_ g1 ≠ [] ∧
    for_each (operators_ g1) (bind_operator factory) (with_sentinel_maps [] [] g1)
      = (Ret tt, g3) ∧
    InitOperatorInputTensor (operators_ g1) g3 = (Ret tt, g4) ∧
    graph_ g1 = Some pops ∧
    InitOperatorOutputTensor pops (operators_ g1) g4 = (Ret tt, g5) ∧
    g' = with_names input_name output_name (with_graph_state Complete g5).
Proof.
  unfold Build. intros E. rewrite (bind_Ret get _ g g g eq_refl) in E.
  apply bind_inv in E as [([] & g1 & E1 & E)|[(? & _ & ?)|[_ ?]]]; try discriminate.
  rewrite (bind_Ret get _ g1 g1 g1 eq_refl) in E.
  apply bind_inv in E as [([] & g2 & E2 & E)|[(? & _ & ?)|[_ ?]]]; try discriminate.
  apply CHECK_inv in E2 as [-> _].
  apply bind_inv in E as [([] & g2 & E2 & E)|[(? & _ & ?)|[_ ?]]]; try discriminate.
  apply CHECK_inv in E2 as [-> E2].
  destruct (operators_ g1) as [|x l] eqn:Hops; [discriminate|]. rewrite <- Hops in *.
  rewrite (bind_Ret (modify _) _ g1 tt _ eq_refl) in E.
  apply bind_inv in E as [([] & g3 & E3 & E)|[(? & _ & ?)|[_ ?]]]; try discriminate.
  apply bind_inv in E as [([] & g4 & E4 & E)|[(? & _ & ?)|[_ ?]]]; try discriminate.
  apply bind_inv in E as [([] & g5 & E5 & E)|[(? & _ & ?)|[_ ?]]]; try discriminate.
  destruct (graph_ g1) as [pops|] eqn:Hg; [|discriminate].
  rewrite (bind_Ret (modify _) _ g5 tt _ eq_refl) in E.
  injection E as <-.
  exists g1, g3, g4, g5, pops. split_and!; try done.
  - destruct (decide _); [|by injection E1 as <-].
    apply bind_inv in E1 as [(b & g0 & E0 & E1)|[(? & _ & ?)|[_ ?]]]; try discriminate.
    apply CHECK_inv in E1 as [-> E1]. by destruct b.
  - rewrite Hops. done.
Qed.

Lemma for_each_Ret_inv {S A} (I : list A → S → Prop) (body : A → M S unit) l :
  (∀ done x s s', I done s → body x s = (Ret tt, s') → I (done ++ [x]) s') →
  ∀ done s s', I done s → for_each l body s = (Ret tt, s') → I (done ++ l) s'.
Proof.
  intros Hstep. induction l as [|x l IH]; intros done s s' HI E.
  - injection E as <-. by rewrite app_nil_r.
  - cbn [for_each] in E.
    apply bind_inv in E as [([] & s1 & E1 & E)|[(? & _ & ?)|[_ ?]]]; try discriminate.
    rewrite cons_middle, app_assoc. eapply IH; [|done]. by eapply Hstep.
Qed.

Lemma find_insert_is_Some {V} k (v : V) m k2 :
  is_Some (StdMap.find k2 (StdMap.insert k v m)) ↔ k2 = k ∨ is_Some (StdMap.find k2 m).
Proof. by rewrite !find_is_Some_keys, keys_insert. Qed.

Lemma bound_step factory done x g g' :
  bound done g → bind_operator factory x g = (Ret tt, g') →
  bound (done ++ [x]) g' ∧ operators_ g' = operators_ g ∧ graph_ g' = graph_ g.
Proof.
  intros [Hl Hi Ho Hai Hao] E. unfold bind_operator in E.
  apply bind_inv in E as [(o & g1 & E1 & E)|[(? & _ & ?)|[_ ?]]]; try discriminate.
  unfold deref_operator in E1. destruct (operator_heap g !! x) as [o'|] eqn:Hx; [|discriminate].
  injection E1 as -> <-.
  destruct (String.eqb_spec (type o) "pnnx.Input") as [Hin|Hin].
  { injection E as <-. split; [|done]. split; simpl.
    - intros p nd [Hp| ->%list_elem_of_singleton]%elem_of_app Hnd; [by eapply Hl|].
      rewrite Hx in Hnd. injection Hnd as <-. done.
    - intros k p [[= -> ->]|H]%entries_insert.
      + split; [apply elem_of_app; right; left|]. by exists o.
      + destruct (Hi k p H) as [? ?]. split; [apply elem_of_app; by left|done].
    - intros k p H. destruct (Ho k p H) as [? ?]. split; [apply elem_of_app; by left|done].
    - intros p nd [Hp| ->%list_elem_of_singleton]%elem_of_app Hnd Ht;
        apply find_insert_is_Some.
      + right. by eapply Hai.
      + left. rewrite Hx in Hnd. by injection Hnd as <-.
    - intros p nd [Hp| ->%list_elem_of_singleton]%elem_of_app Hnd Ht; [by eapply Hao|].
      rewrite Hx in Hnd. injection Hnd as <-. congruence. }
  destruct (String.eqb_spec (type o) "pnnx.Output") as [Hout|Hout].
  { injection E as <-. split; [|done]. split; simpl.
    - intros p nd [Hp| ->%list_elem_of_singleton]%elem_of_app Hnd; [by eapply Hl|].
      rewrite Hx in Hnd. injection Hnd as <-. done.
    - intros k p H. destruct (Hi k p H) as [? ?]. split; [apply elem_of_app; by left|done].
    - intros k p [[= -> ->]|H]%entries_insert.
      + split; [apply elem_of_app; right; left|]. by exists o.
      + destruct (Ho k p H) as [? ?]. split; [apply elem_of_app; by left|done].
    - intros p nd [Hp| ->%list_elem_of_singleton]%elem_of_app Hnd Ht; [by eapply Hai|].
      rewrite Hx in Hnd. injection Hnd as <-. congruence.
    - intros p nd [Hp| ->%list_elem_of_singleton]%elem_of_app Hnd Ht;
        apply find_insert_is_Some.
      + right. by eapply Hao.
      + left. rewrite Hx in Hnd. by injection Hnd as <-. }
  apply bind_inv in E as [(l & g1 & E1 & E)|[(? & _ & ?)|[_ ?]]]; try discriminate.
  unfold CreateLayer, mbind, M_bind, deref_operator in E1. rewrite Hx in E1.
  destruct (factory o) as [l'|]; [|discriminate]. injection E1 as -> <-.
  rewrite (update_operator_run _ _ _ _ Hx) in E. injection E as <-.
  split; [|done].
  assert (Hsame : ∀ p nd, p ≠ x →
            <[x := with_layer (Some l) o]> (operator_heap g) !! p = Some nd →
            operator_heap g !! p = Some nd)
    by (intros p nd Hne; by rewrite list_lookup_insert_ne).
  assert (Hnode : ∀ p nd,
            <[x := with_layer (Some l) o]> (operator_heap g) !! p = Some nd →
            ∃ nd0, operator_heap g !! p = Some nd0 ∧ type nd0 = type nd ∧ name nd0 = name nd).
  { intros p nd Hnd. destruct (decide (p = x)) as [->|Hne].
    - rewrite (lookup_updated _ _ _ _ Hx) in Hnd. injection Hnd as <-. by exists o.
    - exists nd. by rewrite list_lookup_insert_ne in Hnd. }
  assert (Hkeep : ∀ p nd, operator_heap g !! p = Some nd → type nd ≠ type o →
            <[x := with_layer (Some l) o]> (operator_heap g) !! p = Some nd).
  { intros p nd Hnd Ht. rewrite list_lookup_insert_ne; [done|]. intros ->.
    rewrite Hx in Hnd. by injection Hnd as <-. }
  split; simpl.
  - intros p nd Hp Hnd. destruct (decide (p = x)) as [->|Hne].
    + rewrite (lookup_updated _ _ _ _ Hx) in Hnd. injection Hnd as <-. simpl. by eauto.
    + apply elem_of_app in Hp as [Hp| ->%list_elem_of_singleton]; [|done].
      eapply Hl; [done|]. by apply Hsame.
  - intros k p H. destruct (Hi k p H) as (Hp & nd & Hnd & Ht & Hn).
    split; [apply elem_of_app; by left|]. exists nd. split; [|done].
    apply Hkeep; [done|congruence].
  - intros k p H. destruct (Ho k p H) as (Hp & nd & Hnd & Ht & Hn).
    split; [apply elem_of_app; by left|]. exists nd. split; [|done].
    apply Hkeep; [done|congruence].
  - intros p nd Hp Hnd Ht. destruct (Hnode p nd Hnd) as (nd0 & Hnd0 & Ht0 & <-).
    apply elem_of_app in Hp as [Hp| ->%list_elem_of_singleton].
    + eapply Hai; [done..|congruence].
    + rewrite Hx in Hnd0. injection Hnd0 as <-. congruence.
  - intros p nd Hp Hnd Ht. destruct (Hnode p nd Hnd) as (nd0 & Hnd0 & Ht0 & <-).
    apply elem_of_app in Hp as [Hp| ->%list_elem_of_singleton].
    + eapply Hao; [done..|congruence].
    + rewrite Hx in Hnd0. injection Hnd0 as <-. congruence.
Qed.

Lemma bound_start g : bound [] (with_sentinel_maps [] [] g).
Proof.
  split; simpl.
  - intros p nd Hp. by apply elem_of_nil in Hp.
  - intros k p H. by apply elem_of_nil in H.
  - intros k p H. by apply elem_of_nil in H.
  - intros p nd Hp. by apply elem_of_nil in Hp.
  - intros p nd Hp. by apply elem_of_nil in Hp.
Qed.

Lemma bound_ext done g g' :
  bindings g' = bindings g →
  input_operators_maps_ g' = input_operators_maps_ g →
  output_operators_maps_ g' = output_operators_maps_ g →
  bound done g → bound done g'.
Proof.
  intros Hb Hi Ho [H1 H2 H3 H4 H5].
  assert (Hback : ∀ p nd', operator_heap g' !! p = Some nd' →
            ∃ nd, operator_heap g !! p = Some nd ∧ name nd = name nd' ∧
                  type nd = type nd' ∧ layer nd = layer nd').
  { intros p nd' Hp. by eapply bindings_lookup. }
  split; rewrite ?Hi, ?Ho.
  - intros p nd' Hp Hnd' Ht1 Ht2. destruct (Hback p nd' Hnd') as (nd & Hnd & ? & Ht & <-).
    eapply H1; [done..|congruence|congruence].
  - intros k p H. destruct (H2 k p H) as (Hp & nd & Hnd & Ht & Hn). split; [done|].
    destruct (bindings_lookup g g' p nd Hb Hnd) as (nd' & ? & ? & ? & _).
    exists nd'. split_and!; [done|congruence..].
  - intros k p H. destruct (H3 k p H) as (Hp & nd & Hnd & Ht & Hn). split; [done|].
    destruct (bindings_lookup g g' p nd Hb Hnd) as (nd' & ? & ? & ? & _).
    exists nd'. split_and!; [done|congruence..].
  - intros p nd' Hp Hnd' Ht. destruct (Hback p nd' Hnd') as (nd & Hnd & <- & Ht' & _).
    eapply H4; [done..|congruence].
  - intros p nd' Hp Hnd' Ht. destruct (Hback p nd' Hnd') as (nd & Hnd & <- & Ht' & _).
    eapply H5; [done..|congruence].
Qed.

Lemma bind_loop factory ops g g' :
  for_each ops (bind_operator factory) (with_sentinel_maps [] [] g) = (Ret tt, g') →
  bound ops g' ∧ operators_ g' = operators_ g ∧ graph_ g' = graph_ g.
Proof.
  intros E.
  apply (for_each_Ret_inv
           (λ done g0, bound done g0 ∧ operators_ g0 = operators_ g ∧ graph_ g0 = graph_ g)
           _ ops) with (done := []) in E; [done| |].
  - intros done x s s' (Hb & Hops & Hg) Es.
    destruct (bound_step _ _ _ _ _ Hb Es) as (? & ? & ?). split_and!; congruence.
  - split; [apply bound_start|done].
Qed.

Lemma Build_post load factory input_name output_name g g' :
  Build load factory input_name output_name g = (Ret tt, g') →
  ∃ g1 pops,
    (if decide (graph_state_ g = NeedInit) then Init load g = (Ret true, g1) else g1 = g) ∧
    operators_ g' = operators_ g1 ∧ operators_ g1 ≠ [] ∧
    graph_ g' = Some pops ∧ graph_ g1 = Some pops ∧ length pops = length (operators_ g1) ∧
    bound (operators_ g') g' ∧
    graph_state_ g' = Complete ∧ input_name_ g' = input_name ∧ output_name_ g' = output_name.
Proof.
  intros E. apply Build_run in E as (g1 & g3 & g4 & g5 & pops & Hinit & Hne & E3 & E4 & Hg & E5 & ->).
  apply bind_loop in E3 as (Hb & Hops3 & Hg3).
  pose proof (InitOperatorOutputTensor_count _ _ _ _ E5) as Hlen.
  assert (∀ {B} (f : RuntimeGraph → B),
            (∀ h g, f (with_operand_heap h g) = f g) →
            (∀ h g, f (with_tensor_heap h g) = f g) →
            (∀ g p o r, operator_heap g !! p = Some o →
               f (with_operator_heap (<[p := with_output_operands r o]> (operator_heap g)) g)
                 = f g) →
            f g5 = f g3) as Hframe.
  { intros B f H1 H2 H3.
    pose proof (keeps_InitOperatorInputTensor f H1 H2 (operators_ g1) (f g3) g3 eq_refl) as K4.
    rewrite E4 in K4. simpl in K4.
    pose proof (keeps_InitOperatorOutputTensor f H1 H2 H3 pops (operators_ g1) (f g3) g4 K4)
      as K5.
    by rewrite E5 in K5. }
  exists g1, pops. split_and!; try done.
  - simpl. rewrite (Hframe _ operators_) by done. done.
  - simpl. rewrite (Hframe _ graph_) by done. congruence.
  - simpl. rewrite (Hframe _ operators_) by done. rewrite Hops3.
    apply (bound_ext _ g5).
    + done.
    + done.
    + done.
    + apply (bound_ext _ g3); [|by apply (Hframe _ input_operators_maps_)|
                                 by apply (Hframe _ output_operators_maps_)|done].
      apply (Hframe _ bindings); [done|done|]. intros. by apply bindings_output_operand.
Qed.

(** X18. When [Build] returns, from whatever state it started, the state is
    [Complete] and the two names are recorded; every node of the list that is
    neither sentinel has a handler; the input map holds exactly the nodes of
    the list of type [pnnx.Input], each under its name, and the output map
    those of type [pnnx.Output]: an entry of a map is such a node, and every
    such node's name is a key of the map. *)
Theorem Build_binds_handlers_and_sentinels load factory input_name output_name g g' :
  Build load factory input_name output_name g = (Ret tt, g') →
  graph_state_ g' = Complete ∧ input_name_ g' = input_name ∧ output_name_ g' = output_name ∧
  (∀ p nd, p ∈ operators_ g' → operator_heap g' !! p = Some nd →
     type nd ≠ "pnnx.Input"%string → type nd ≠ "pnnx.Output"%string → is_Some (layer nd)) ∧
  (∀ k p, (k, p) ∈ input_operators_maps_ g' →
     p ∈ operators_ g' ∧
     ∃ nd, operator_heap g' !! p = Some nd ∧ type nd = "pnnx.Input"%string ∧ name nd = k) ∧
  (∀ k p, (k, p) ∈ output_operators_maps_ g' →
     p ∈ operators_ g' ∧
     ∃ nd, operator_heap g' !! p = Some nd ∧ type nd = "pnnx.Output"%string ∧ name nd = k) ∧
  (∀ p nd, p ∈ operators_ g' → operator_heap g' !! p = Some nd →
     type nd = "pnnx.Input"%string →
     is_Some (StdMap.find (name nd) (input_operators_maps_ g'))) ∧
  (∀ p nd, p ∈ operators_ g' → operator_heap g' !! p = Some nd →
     type nd = "pnnx.Output"%string →
     is_Some (StdMap.find (name nd) (output_operators_maps_ g'))).
Proof.
  intros E. apply Build_post in E
    as (g1 & pops & _ & _ & _ & _ & _ & _ & [H1 H2 H3 H4 H5] & Hs & Hi & Ho).
  by split_and!.
Qed.

Lemma Build_binds_handlers_and_sentinels_witness :
  Build (Examples.load Examples.chain) Examples.factory "in" "out" Examples.fresh
    = (Ret tt, Examples.chain_built) ∧
  graph_state_ Examples.chain_built = Complete.
Proof.
  assert (E : Build (Examples.load Examples.chain) Examples.factory "in" "out" Examples.fresh
              = (Ret tt, Examples.chain_built)) by (vm_compute; reflexivity).
  split; [exact E|].
  exact (proj1 (Build_binds_handlers_and_sentinels _ _ _ _ _ _ E)).
Defined.

Lemma non_null_length {A} (l : list (option A)) :
  (length (non_null l) ≤ length l)%nat ∧
  (length (non_null l) = length l → Forall is_Some l).
Proof.
  unfold non_null. induction l as [|[x|] l [IH1 IH2]].
  - split; [done|constructor].
  - change (omap id (Some x :: l)) with (x :: omap id l). rewrite !length_cons.
    split; [lia|]. intros H. constructor; [by eauto|]. apply IH2. lia.
  - change (omap id (None :: l)) with (omap id l). rewrite length_cons.
    split; [lia|]. intros H. lia.
Qed.

(** X19. [Build] on a graph to initialise returns only if no descriptor of
    the loaded graph is null: [Init] skips a null descriptor, the node list is
    then shorter than the descriptor list, and the output pass refuses lists
    of different lengths. When it returns there is one node per descriptor. *)
Theorem Build_needs_every_descriptor load factory input_name output_name g g' :
  graph_state_ g = NeedInit →
  Build load factory input_name output_name g = (Ret tt, g') →
  let ops := (load (param_path_ g) (bin_path_ g)).2 in
  Forall is_Some ops ∧ length (operators_ g') = length ops ∧ graph_ g' = Some ops.
Proof.
  intros Hs E ops. apply Build_post in E
    as (g1 & pops & Hinit & Hops & _ & Hg' & Hg1 & Hlen & _).
  rewrite decide_True in Hinit by done.
  apply Init_run in Hinit as [_ Hinit]. fold ops in Hinit.
  apply init_operators_run in Hinit as (_ & _ & h' & -> & _).
  simpl in *. injection Hg1 as <-. rewrite length_seq in Hlen.
  destruct (non_null_length ops) as [_ Hall].
  split_and!; [by apply Hall|by rewrite Hops, length_seq|done].
Qed.

Lemma Build_needs_every_descriptor_witness :
  graph_state_ Examples.fresh = NeedInit ∧
  Build (Examples.load Examples.chain) Examples.factory "in" "out" Examples.fresh
    = (Ret tt, Examples.chain_built) ∧
  length (operators_ Examples.chain_built) = 4%nat.
Proof.
  assert (E : Build (Examples.load Examples.chain) Examples.factory "in" "out" Examples.fresh
              = (Ret tt, Examples.chain_built)) by (vm_compute; reflexivity).
  split; [reflexivity|]. split; [exact E|].
  exact (proj1 (proj2 (Build_needs_every_descriptor
                         (Examples.load Examples.chain) Examples.factory "in" "out"
                         Examples.fresh Examples.chain_built eq_refl E))).
Defined.

(** ** The output pass on an operand that exists *)

(** Once the count, the type and the shape of an existing output operand have
    been found to agree, what is left is the loop of lines 101-109. *)
Lemma existing_output_operand pnnx_operators operators i g pnnx_op operand runtime_op rop
    p out :
  pnnx_operators !! i = Some (Some pnnx_op) →
  pnnx_outputs pnnx_op = [Some operand] →
  operators !! i = Some runtime_op →
  operator_heap g !! runtime_op = Some rop →
  output_operands rop = Some p →
  operand_heap g !! p = Some out →
  Forall int32 (pnnx_operand_shape operand) →
  rank_ok (pnnx_operand_shape operand) →
  agrees out (pnnx_operand_shape operand) →
  init_output_operand pnnx_operators operators i g =
    for_each (datas out)
      (λ _, check_output_buffer (pnnx_operand_shape operand) (pnnx_operand_shape operand)) g.
Proof.
  intros Hi Hout Hop Hrop Hp Ho H32 Hr (batch & Hb & Hlen & Hty & Hsh).
  unfold init_output_operand.
  rewrite (bind_Ret (at_ pnnx_operators i) _ g (Some pnnx_op) g)
    by (unfold at_; by rewrite Hi).
  rewrite Hout. change (length [Some operand] <=? 1)%nat with true.
  rewrite (bind_Ret (CHECK true _) _ g tt g eq_refl).
  rewrite (bind_Ret (at_ operators i) _ g runtime_op g) by (unfold at_; by rewrite Hop).
  rewrite (bind_Ret (deref_operator runtime_op) _ g rop g)
    by (unfold deref_operator; by rewrite Hrop).
  set (shape := pnnx_operand_shape operand) in *.
  rewrite (bind_Ret (at_ _ _) _ g batch g) by (unfold at_; by rewrite Hb).
  assert (0 ≤ batch) as Hge by lia.
  destruct (Z.leb_spec 0 batch) as [_|]; [|lia].
  rewrite (bind_Ret (CHECK true _) _ g tt g eq_refl).
  unfold rank_ok in Hr. rewrite (bool_decide_eq_true_2 _ Hr).
  rewrite (bind_Ret (CHECK true _) _ g tt g eq_refl).
  assert (H32b : int32 batch).
  { eapply Forall_forall in H32; [done|]. by eapply list_elem_of_lookup_2. }
  rewrite Hp.
  rewrite (bind_Ret (deref_operand p) _ g out g) by (unfold deref_operand; by rewrite Ho).
  rewrite usize_int32 by done.
  destruct (Z.eqb_spec batch (Z.of_nat (length (datas out)))) as [_|]; [|lia].
  rewrite (bind_Ret (CHECK true _) _ g tt g eq_refl).
  rewrite (bool_decide_eq_true_2 _ Hty).
  rewrite (bind_Ret (CHECK true _) _ g tt g eq_refl).
  rewrite (bool_decide_eq_true_2 _ Hsh).
  rewrite (bind_Ret (CHECK true _) _ g tt g eq_refl).
  by rewrite Hsh.
Qed.

Lemma check_output_buffer_rank4 shape g :
  length shape = 4%nat → check_output_buffer shape shape g = (Ret tt, g).
Proof.
  intros Hlen. destruct shape as [|b [|c [|h [|w [|]]]]]; try done.
  unfold check_output_buffer. simpl. unfold and_then, eq_at, at_, mbind, M_bind. simpl.
  by rewrite !Z.eqb_refl.
Qed.

Lemma check_output_buffer_rank2 shape g :
  length shape = 2%nat →
  ∃ e, (e = ErrBufferShape ∨ e = ErrOutOfRange) ∧
       check_output_buffer shape shape g = (Fatal e, g).
Proof.
  intros Hlen. destruct shape as [|b [|f [|]]]; try done.
  unfold check_output_buffer. simpl.
  unfold and_then, eq_at, eq_at_const, at_, mbind, M_bind. simpl.
  destruct (b =? 1); simpl.
  - rewrite Z.eqb_refl. simpl. exists ErrOutOfRange. split; [by right|done].
  - exists ErrBufferShape. split; [by left|done].
Qed.

(** X20. An existing output operand of rank 4 that agrees with the
    descriptor in count, type and shape is accepted whatever its buffers are:
    the loop of lines 101-109 compares the operand's shape vector with the
    descriptor's, which the check before it has found equal, and never looks at
    a buffer. The graph is left as it is. *)
Theorem existing_output_operand_rank4_is_accepted pnnx_operators operators i g pnnx_op
    operand runtime_op rop p out :
  pnnx_operators !! i = Some (Some pnnx_op) →
  pnnx_outputs pnnx_op = [Some operand] →
  operators !! i = Some runtime_op →
  operator_heap g !! runtime_op = Some rop →
  output_operands rop = Some p →
  operand_heap g !! p = Some out →
  Forall int32 (pnnx_operand_shape operand) →
  length (pnnx_operand_shape operand) = 4%nat →
  agrees out (pnnx_operand_shape operand) →
  init_output_operand pnnx_operators operators i g = (Ret tt, g).
Proof.
  intros Hi Hout Hop Hrop Hp Ho H32 Hlen Hag.
  rewrite (existing_output_operand _ _ _ _ _ _ _ _ _ _ Hi Hout Hop Hrop Hp Ho H32)
    by (done || by right).
  induction (datas out) as [|t ts IH]; [done|].
  cbn [for_each]. by rewrite (bind_Ret _ _ _ _ _ (check_output_buffer_rank4 _ g Hlen)).
Qed.

(** X21. An existing output operand of rank 2 that agrees with the
    descriptor and has a buffer is fatal: for rank 2 the same loop asks the
    two-element shape vector for a third element, or finds its batch different
    from 1. *)
Theorem existing_output_operand_rank2_is_fatal pnnx_operators operators i g pnnx_op
    operand runtime_op rop p out :
  pnnx_operators !! i = Some (Some pnnx_op) →
  pnnx_outputs pnnx_op = [Some operand] →
  operators !! i = Some runtime_op →
  operator_heap g !! runtime_op = Some rop →
  output_operands rop = Some p →
  operand_heap g !! p = Some out →
  Forall int32 (pnnx_operand_shape operand) →
  length (pnnx_operand_shape operand) = 2%nat →
  agrees out (pnnx_operand_shape operand) →
  datas out ≠ [] →
  ∃ e, (e = ErrBufferShape ∨ e = ErrOutOfRange) ∧
       init_output_operand pnnx_operators operators i g = (Fatal e, g).
Proof.
  intros Hi Hout Hop Hrop Hp Ho H32 Hlen Hag Hds.
  rewrite (existing_output_operand _ _ _ _ _ _ _ _ _ _ Hi Hout Hop Hrop Hp Ho H32)
    by (done || by left).
  destruct (datas out) as [|t ts]; [done|].
  destruct (check_output_buffer_rank2 _ g Hlen) as (e & He & E).
  exists e. split; [done|]. cbn [for_each]. unfold mbind, M_bind. by rewrite E.
Qed.

Lemma existing_output_operand_rank4_is_accepted_witness :
  init_output_operand Examples.chain [0; 1; 2; 3]%nat 1 Examples.chain_built
    = (Ret tt, Examples.chain_built).
Proof.
  eapply (existing_output_operand_rank4_is_accepted Examples.chain [0; 1; 2; 3]%nat 1
            Examples.chain_built);
    [reflexivity|reflexivity|reflexivity|reflexivity|reflexivity|reflexivity| |reflexivity|].
  - repeat constructor; vm_compute; discriminate.
  - exists 1. split_and!; reflexivity.
Defined.

Lemma existing_output_operand_rank2_is_fatal_witness :
  ∃ e, (e = ErrBufferShape ∨ e = ErrOutOfRange) ∧
       init_output_operand Examples.flat_chain [0; 1; 2; 3]%nat 1 Examples.flat_chain_built
         = (Fatal e, Examples.flat_chain_built).
Proof.
  eapply (existing_output_operand_rank2_is_fatal Examples.flat_chain [0; 1; 2; 3]%nat 1
            Examples.flat_chain_built);
    [reflexivity|reflexivity|reflexivity|reflexivity|reflexivity|reflexivity| |reflexivity| |].
  - repeat constructor; vm_compute; discriminate.
  - exists 1. split_and!; reflexivity.
  - discriminate.
Defined.

(** ** The input pass: what it writes *)

(** The input pass on one operand either leaves the graph as it is, or gives
    an operand without buffers its [batch] fresh buffers. *)
Lemma init_input_operand_cases p g r g' :
  init_input_operand p g = (r, g') →
  (g' = g ∧ (r = Ret tt → ∃ opd, operand_heap g !! p = Some opd ∧ datas opd ≠ [])) ∨
  (∃ opd batch,
     r = Ret tt ∧ operand_heap g !! p = Some opd ∧ datas opd = [] ∧
     shapes opd !! 0%nat = Some batch ∧ 0 ≤ batch ∧ rank_ok (shapes opd) ∧
     operand_type opd = kTypeFloat32 ∧
     g' = with_operand_heap
            (<[p := with_datas (seq (length (tensor_heap g)) (Z.to_nat batch)) opd]>
               (operand_heap g))
            (with_tensor_heap
               (tensor_heap g ++ replicate (Z.to_nat batch) (fresh_buffer (shapes opd))) g)).
Proof.
  unfold init_input_operand. intros E.
  destruct (operand_heap g !! p) as [opd|] eqn:Hopd.
  2:{ left. unfold mbind, M_bind, deref_operand in E. rewrite Hopd in E.
      injection E as <- <-. done. }
  rewrite (bind_Ret (deref_operand p) _ g opd g) in E
    by (unfold deref_operand; by rewrite Hopd).
  destruct (decide (operand_type opd = kTypeFloat32)) as [Hty|Hty].
  2:{ rewrite (bool_decide_eq_false_2 (operand_type opd = kTypeFloat32)) in E by done.
      left. injection E as <- <-. done. }
  rewrite (bool_decide_eq_true_2 (operand_type opd = kTypeFloat32)) in E by done.
  rewrite (bind_Ret (CHECK true _) _ g tt g eq_refl) in E.
  destruct (shapes opd !! 0%nat) as [batch|] eqn:Hb.
  2:{ left. unfold at_, mbind, M_bind in E. rewrite Hb in E. injection E as <- <-. done. }
  rewrite (bind_Ret (at_ _ _) _ g batch g) in E by (unfold at_; by rewrite Hb).
  destruct (Z.leb_spec 0 batch) as [Hge|Hlt].
  2:{ left. injection E as <- <-. done. }
  rewrite (bind_Ret (CHECK true _) _ g tt g eq_refl) in E.
  destruct (decide (rank_ok (shapes opd))) as [Hr|Hr].
  2:{ unfold rank_ok in Hr. rewrite (bool_decide_eq_false_2 _ Hr) in E.
      left. injection E as <- <-. done. }
  pose proof Hr as Hr'. unfold rank_ok in Hr'. rewrite (bool_decide_eq_true_2 _ Hr') in E.
  rewrite (bind_Ret (CHECK true _) _ g tt g eq_refl) in E.
  destruct (datas opd) as [|t ds] eqn:Hds; cbn [is_nil negb] in E.
  - right. rewrite (bind_Ret _ _ _ _ _ (make_buffers_spec _ _ g Hr)) in E.
    unfold update_operand in E. simpl in E. rewrite Hopd in E. injection E as <- <-.
    exists opd, batch. by rewrite Hds.
  - left. apply bind_inv in E as [([] & g1 & E1 & E)|[(? & E1 & ->)|[E1 ->]]];
      apply CHECK_inv in E1 as [-> _]; [|done..].
    pose proof (for_each_pure (seq 0 (Z.to_nat batch))
                  (check_input_buffer (shapes opd) (t :: ds)) g
                  (pure_check_input_buffer _ _)) as [E2 _].
    rewrite E in E2. simpl in E2. subst g'. split; [done|]. intros _. exists opd. by rewrite Hds.
Qed.

(** X22. What the input pass allocates, it accepts. If the pass has
    accepted an operand, running it again on the same operand returns and
    changes nothing: buffers made for a declared shape pass the check of that
    shape. *)
Theorem init_input_operand_twice p g g' opd :
  operand_heap g !! p = Some opd →
  Forall int32 (shapes opd) →
  init_input_operand p g = (Ret tt, g') →
  init_input_operand p g' = (Ret tt, g').
Proof.
  intros Hopd H32 E.
  destruct (init_input_operand_cases _ _ _ _ E)
    as [[-> _]|(opd' & batch & _ & Hopd' & Hds & Hb & Hge & Hr & Hty & ->)]; [done|].
  rewrite Hopd in Hopd'. injection Hopd' as <-.
  set (n := length (tensor_heap g)).
  set (opd1 := with_datas (seq n (Z.to_nat batch)) opd).
  set (g1 := with_operand_heap _ _).
  assert (Hopd1 : operand_heap g1 !! p = Some opd1) by (simpl; by eapply lookup_updated).
  assert (H32b : int32 batch).
  { eapply Forall_forall in H32; [done|]. by eapply list_elem_of_lookup_2. }
  unfold init_input_operand.
  rewrite (bind_Ret (deref_operand p) _ g1 opd1 g1)
    by (unfold deref_operand; by rewrite Hopd1).
  change (operand_type opd1) with (operand_type opd).
  change (shapes opd1) with (shapes opd). change (datas opd1) with (seq n (Z.to_nat batch)).
  rewrite (bool_decide_eq_true_2 (operand_type opd = kTypeFloat32)) by done.
  rewrite (bind_Ret (CHECK true _) _ g1 tt g1 eq_refl).
  rewrite (bind_Ret (at_ _ _) _ g1 batch g1) by (unfold at_; by rewrite Hb).
  destruct (Z.leb_spec 0 batch) as [_|]; [|lia].
  rewrite (bind_Ret (CHECK true _) _ g1 tt g1 eq_refl).
  pose proof Hr as Hr'. unfold rank_ok in Hr'. rewrite (bool_decide_eq_true_2 _ Hr').
  rewrite (bind_Ret (CHECK true _) _ g1 tt g1 eq_refl).
  destruct (decide (batch = 0)) as [->|Hpos].
  - change (Z.to_nat 0) with 0%nat. cbn [seq is_nil negb].
    rewrite (bind_Ret _ _ _ _ _ (make_buffers_spec _ _ g1 Hr)).
    unfold update_operand. simpl. rewrite (lookup_updated _ _ _ _ Hopd). simpl.
    unfold g1, opd1, with_operand_heap, with_tensor_heap, with_datas. simpl.
    by rewrite list_insert_insert_eq, !app_nil_r.
  - assert (is_nil (seq n (Z.to_nat batch)) = false) as ->.
    { destruct (Z.to_nat batch) eqn:HB; [lia|done]. }
    cbn [negb]. rewrite length_seq, usize_int32 by done.
    rewrite Z2Nat.id, Z.eqb_refl by done.
    rewrite (bind_Ret (CHECK true _) _ g1 tt g1 eq_refl).
    destruct (for_each_pure (seq 0 (Z.to_nat batch))
                (check_input_buffer (shapes opd) (seq n (Z.to_nat batch))) g1
                (pure_check_input_buffer _ _)) as [E2 E1].
    destruct (for_each _ _ g1) as [r2 g2]. simpl in *. subst g2. f_equal.
    apply E1. intros i Hi%elem_of_seq. apply check_input_buffer_spec; [done|].
    exists (n + i)%nat. split; [apply lookup_seq_lt; lia|].
    exists (fresh_buffer (shapes opd)). split; [|by apply fresh_buffer_dims].
    unfold g1. simpl. rewrite lookup_app_r by (fold n; lia). fold n.
    apply lookup_replicate. split; [done|]. lia.
Qed.

Lemma init_input_operand_twice_witness :
  let g' := (init_input_operand 0 Examples.one_operand).2 in
  init_input_operand 0 g' = (Ret tt, g').
Proof.
  apply (init_input_operand_twice 0 Examples.one_operand _ Examples.flat_operand).
  - reflexivity.
  - repeat constructor; vm_compute; discriminate.
  - vm_compute. reflexivity.
Defined.

Lemma given_buffers_trans o1 o2 o3 :
  given_buffers o1 o2 → given_buffers o2 o3 → given_buffers o1 o3.
Proof.
  intros [->|[H1 H2]] [->|[H3 H4]]; [by left|by right|by right|].
  right. split; [done|]. rewrite H4. rewrite <- H2 in *.
  destruct o2. simpl in *. by subst.
Qed.

Lemma allocated_refl g : allocated g g.
Proof.
  split_and!; [done..|]. apply Forall2_same_length_lookup. split; [done|].
  intros i x y Hx Hy. rewrite Hx in Hy. injection Hy as <-. by left.
Qed.

Lemma allocated_trans g1 g2 g3 : allocated g1 g2 → allocated g2 g3 → allocated g1 g3.
Proof.
  intros (H1 & H2 & H3) (H4 & H5 & H6). split_and!.
  - congruence.
  - by etrans.
  - assert (Transitive given_buffers) by (intros ???; apply given_buffers_trans).
    by etrans.
Qed.

Lemma init_input_operand_allocated p g : allocated g (init_input_operand p g).2.
Proof.
  destruct (init_input_operand p g) as [r g'] eqn:E. simpl.
  apply init_input_operand_cases in E
    as [[-> _]|(opd & batch & _ & Hopd & Hds & _ & _ & _ & _ & ->)];
    [apply allocated_refl|].
  split_and!; simpl.
  - by destruct g.
  - by apply prefix_app_r.
  - apply Forall2_same_length_lookup. split; [by rewrite length_insert|].
    intros i x y Hx Hy. destruct (decide (i = p)) as [->|Hne].
    + rewrite (lookup_updated _ _ _ _ Hopd) in Hy. rewrite Hopd in Hx.
      injection Hx as <-. injection Hy as <-. right. split; [done|].
      destruct opd. simpl in *. by subst.
    + rewrite list_lookup_insert_ne in Hy by done. rewrite Hx in Hy. injection Hy as <-.
      by left.
Qed.

(** X23. Whatever its outcome, the input pass only allocates: a buffer that
    existed is still there with its contents, an operand that had buffers is
    untouched, an operand that had none differs at most by the buffers it has
    been given, and the nodes, the node list, the sentinel maps, the state and
    the names are as they were. *)
Theorem InitOperatorInputTensor_only_allocates ops g :
  allocated g (InitOperatorInputTensor ops g).2.
Proof.
  assert (Hstep : ∀ g0 p, preserves (allocated g0) (init_input_operand p)).
  { intros g0 p g1 H1. eapply allocated_trans; [done|]. apply init_input_operand_allocated. }
  assert (Hall : preserves (allocated g) (InitOperatorInputTensor ops)).
  { unfold InitOperatorInputTensor. destruct (is_nil ops); [by intros ?|].
    apply preserves_for_each. intros op. apply preserves_bind.
    - intros g1 H1. unfold deref_operator. by destruct (_ !! _).
    - intros o. destruct (StdMap.is_empty _); [by intros ?|].
      apply preserves_for_each. intros p. apply Hstep. }
  apply Hall, allocated_refl.
Qed.

(** ** The counter never overruns in a well-formed graph *)

Lemma avoids_SetOpInputData src dest : avoids ErrMeetNum (SetOpInputData src dest).
Proof.
  assert (∀ p f, avoids ErrMeetNum (update_tensor p f))
    by (intros; by apply avoids_update_tensor).
  unfold SetOpInputData. no_state_error.
Qed.

(** A delivery fails the check of [CheckOperatorReady] only if the consumer
    lists the producer and has already been delivered to by all its
    producers. *)
Lemma deliver_overflow cur src next s s' :
  deliver cur src next s = (Fatal ErrMeetNum, s') →
  ∃ c nxt, operator_heap (graph s) !! cur = Some c ∧
           operator_heap (graph s) !! next = Some nxt ∧
           is_Some (StdMap.find (name c) (input_operands nxt)) ∧
           (producers nxt < meet_num nxt + 1 ∨ meet_num nxt + 1 < 0).
Proof.
  intros H. unfold deliver in H.
  apply bind_inv in H as [(c & s1 & E1 & H)|[(e & E1 & [= <-])|[_ ?]]]; [| |done];
    apply liftG_deref_operator in E1 as [-> E1];
    destruct (operator_heap (graph s) !! cur) as [c'|] eqn:Hcur; try discriminate.
  injection E1 as <-.
  apply bind_inv in H as [(nxt & s1 & E2 & H)|[(e & E2 & [= <-])|[_ ?]]]; [| |done];
    apply liftG_deref_operator in E2 as [-> E2];
    destruct (operator_heap (graph s) !! next) as [nxt'|] eqn:Hnext; try discriminate.
  injection E2 as <-.
  destruct (StdMap.find _ _) as [operand|] eqn:Hfind; [|discriminate].
  apply bind_inv in H as [(dest & s1 & E3 & H)|[(e & E3 & [= <-])|[_ ?]]]; [| |done];
    apply liftG_deref_operand in E3 as [-> E3];
    destruct (operand_heap _ !! operand) as [dest'|] eqn:Hdest; try discriminate.
  injection E3 as <-.
  apply bind_inv in H as [([] & s1 & E4 & H)|[(e & E4 & [= <-])|[_ ?]]]; [| |done].
  2:{ pose proof (avoids_liftG ErrMeetNum _ (avoids_SetOpInputData src (datas dest)) s) as Ha.
      by rewrite E4 in Ha. }
  apply liftG_reads in E4 as (Eh & Eq & Et); [|apply SetOpInputData_reads].
  rewrite (bind_Ret get _ s1 s1 s1 eq_refl) in H.
  exists c, nxt. split_and!; [done..|by eauto|].
  apply bind_inv in H as [(pushed & s2 & E6 & H)|[(e & E6 & [= <-])|[_ ?]]]; [| |done].
  { apply bind_inv in H as [([] & s4 & E7 & H)|[(e & E7 & [= <-])|[_ ?]]]; [done| |done].
    apply liftG_update_operator in E7.
    by destruct (operator_heap (graph s2) !! next); destruct E7. }
  destruct (bool_decide (next ∉ operator_queue s1)); [|discriminate].
  apply bind_inv in E6 as [([] & s4 & E7 & E6)|[(e & E7 & [= <-])|[_ ?]]]; [| |done];
    apply liftG_update_operator in E7; rewrite Eh, Hnext in E7; destruct E7 as [? E7];
    try discriminate.
  subst s4.
  apply bind_inv in E6 as [(ready & s5 & E8 & E6)|[(e & E8 & [= <-])|[_ ?]]]; [| |done].
  - apply bind_inv in E6 as [([] & s6 & E9 & E6)|[(e & E9 & [= <-])|[_ ?]]];
      [| by destruct ready|done].
    apply bind_inv in E6 as [([] & s7 & E10 & E6)|[(e & E10 & [= <-])|[_ ?]]]; [done| |done].
    apply liftG_update_operator in E10.
    by destruct (operator_heap (graph s6) !! next); destruct E10.
  - apply liftG_CheckOperatorReady in E8 as [_ E8]. simpl in E8.
    rewrite (lookup_updated _ _ _ _ Hnext) in E8.
    unfold producers in *. simpl in E8.
    destruct (meet_num nxt + 1 <=? _) eqn:Hle; [|left; by apply Z.leb_gt in Hle].
    destruct (0 <=? meet_num nxt + 1) eqn:Hnn; [discriminate|].
    right. by apply Z.leb_gt in Hnn.
Qed.

Lemma for_each_deliver_no_overflow p src l :
  NoDup l → ∀ s,
  (∀ c o, c ∈ l → operator_heap (graph s) !! c = Some o →
     listed (operator_heap (graph s)) p c = true →
     0 ≤ meet_num o ∧ meet_num o + 1 ≤ producers o) →
  (for_each l (deliver p src) s).1 ≠ Fatal ErrMeetNum.
Proof.
  induction 1 as [|x l Hx Hl IH]; intros s Hroom; [done|].
  cbn [for_each]. unfold mbind, M_bind.
  destruct (deliver p src x s) as [[[]|e|] s1] eqn:E; simpl; [| |done].
  - apply IH. intros c o Hc Ho Hlisted.
    assert (c ≠ x) as Hne by (intros ->; done).
    apply deliver_spec in E as [(Eh & _)|[(? & ? & ? & _)|
      (po & nxt & operand & _ & Hp & Hn & Hf & Eh & _)]]; try discriminate.
    + rewrite Eh in *. apply (Hroom c o); [by right|done..].
    + rewrite Eh in Ho, Hlisted. rewrite list_lookup_insert_ne in Ho by done.
      apply (Hroom c o); [by right|done|].
      rewrite <- Hlisted. by apply listed_same_wiring, same_wiring_bump.
  - intros [= ->]. apply deliver_overflow in E as (c & nxt & Hc & Hn & Hf & Hover).
    assert (0 ≤ meet_num nxt ∧ meet_num nxt + 1 ≤ producers nxt); [|lia].
    apply (Hroom x nxt); [left|done|].
    unfold listed. rewrite Hc, Hn. by apply bool_decide_eq_true_2.
Qed.

Lemma ProbeNextLayer_no_overflow h0 done p src s :
  same_wiring h0 (operator_heap (graph s)) →
  NoDup (name <$> h0) →
  NoDup (targets h0 p) →
  NoDup (done ++ [p]) →
  (∀ c o, operator_heap (graph s) !! c = Some o →
     meet_num o = Z.of_nat (deliveries h0 done c)) →
  (ProbeNextLayer p src s).1 ≠ Fatal ErrMeetNum.
Proof.
  intros Hw Hnames Hedges Hdone Hcount. unfold ProbeNextLayer, mbind, M_bind.
  destruct (liftG (deref_operator p) s) as [r s1] eqn:E.
  apply liftG_deref_operator in E as [-> E].
  destruct (operator_heap (graph s) !! p) as [po|] eqn:Hp; subst r; [|done].
  assert (targets h0 p = StdMap.values (output_operators po)) as Ht.
  { rewrite (targets_same_wiring _ _ _ Hw). unfold targets. by rewrite Hp. }
  rewrite Ht in Hedges.
  apply for_each_deliver_no_overflow; [done|].
  intros c o Hc Ho Hlisted.
  destruct (same_wiring_fields _ _ _ _ (same_wiring_sym _ _ Hw) Ho)
    as (o0 & Ho0 & _ & Hin & _).
  pose proof (deliveries_bound h0 (done ++ [p]) c o0 Hnames Hdone Ho0) as Hb.
  rewrite deliveries_snoc in Hb.
  assert (delivers h0 p c = true) as Hd.
  { unfold delivers. rewrite Ht, (listed_same_wiring _ _ _ _ Hw), Hlisted.
    by rewrite bool_decide_eq_true_2. }
  rewrite Hd in Hb. rewrite (Hcount _ _ Ho). unfold producers. rewrite <- Hin. lia.
Qed.

Lemma avoids_ErrMeetNum_gather l : avoids ErrMeetNum (gather_inputs l).
Proof. by apply avoids_gather_inputs. Qed.

Lemma avoids_ErrMeetNum_run_layer l ins outs : avoids ErrMeetNum (run_layer l ins outs).
Proof.
  assert (∀ l, avoids ErrMeetNum (read_tensors l)) by (intros; by apply avoids_read_tensors).
  assert (∀ p f, avoids ErrMeetNum (update_tensor p f))
    by (intros; by apply avoids_update_tensor).
  unfold run_layer. no_state_error.
Qed.

(** An iteration fails that check only at the node it has taken from the
    queue, or in the propagation from that node. *)
Lemma iteration_overflow i o inputs s s' :
  iteration i o inputs s = (Fatal ErrMeetNum, s') →
  ∃ cur rest, operator_queue s = cur :: rest ∧
    ((cur ≠ i ∧ ∃ c, operator_heap (graph s) !! cur = Some c ∧
                     (producers c < meet_num c ∨ meet_num c < 0)) ∨
     ∃ src s1, operator_heap (graph s1) = operator_heap (graph s) ∧
               (ProbeNextLayer cur src s1).1 = Fatal ErrMeetNum).
Proof.
  intros E. unfold iteration in E. rewrite (bind_Ret get _ s s s eq_refl) in E.
  destruct (operator_queue s) as [|cur rest] eqn:Hq; [discriminate|].
  exists cur, rest. split; [done|].
  set (g := graph s) in *. set (s1 := mkSched g rest (trace s)).
  rewrite (bind_Ret (set_queue rest) _ s tt s1 eq_refl) in E.
  destruct (decide (cur = o)) as [_|_]; [discriminate|].
  destruct (decide (cur = i)) as [_|Hne].
  { right. exists inputs, s1. split; [done|].
    apply go_on_after_bind in E as (r1 & E & Hr). rewrite E. destruct r1; simpl in *; congruence. }
  apply bind_inv in E as [(c & s2 & E1 & E)|[(e & E1 & [= <-])|[_ ?]]]; [| |done];
    apply liftG_deref_operator in E1 as [-> E1]; simpl in E1; fold g in E1;
    destruct (operator_heap g !! cur) as [c'|] eqn:Hc; try discriminate.
  injection E1 as <-.
  set (s2 := mkSched g rest (trace s ++ [EvDequeue cur g])).
  rewrite (bind_Ret (emit (EvDequeue cur)) _ s1 tt s2 eq_refl) in E.
  apply bind_inv in E as [(has_ready & s3 & E1 & E)|[(e & E1 & [= <-])|[_ ?]]]; [| |done];
    apply liftG_CheckOperatorReady in E1 as [-> E1]; simpl in E1; fold g in E1;
    rewrite Hc in E1; destruct (meet_num c <=? producers c) eqn:Hle;
    destruct (0 <=? meet_num c) eqn:Hnn; try discriminate.
  2:{ left. split; [done|]. exists c. split; [done|]. right. by apply Z.leb_gt in Hnn. }
  2,3: left; split; [done|]; exists c; (split; [done|]); left; by apply Z.leb_gt in Hle.
  injection E1 as ->.
  destruct (meet_num c =? producers c); simpl in E; [|discriminate].
  apply bind_inv in E as [(layer_input_datas & s3 & E3 & E)|[(e & E3 & [= <-])|[_ ?]]];
    [| |done].
  2:{ pose proof (avoids_liftG ErrMeetNum _
                   (avoids_ErrMeetNum_gather (input_operands_seq c)) s2) as Ha.
      by rewrite E3 in Ha. }
  apply liftG_pure in E3 as ->; [|apply pure_gather_inputs].
  apply bind_inv in E as [([] & s4 & E4 & E)|[(e & E4 & [= <-])|[_ ?]]]; [| |done];
    apply CHECK_inv in E4 as [-> E4];
    [|destruct (negb (is_nil layer_input_datas)); discriminate].
  destruct (output_operands c) as [out|]; [|discriminate].
  apply bind_inv in E as [(dest & s4 & E5 & E)|[(e & E5 & [= <-])|[_ ?]]]; [| |done];
    apply liftG_deref_operand in E5 as [-> E5];
    [|destruct (operand_heap (graph s2) !! out); discriminate].
  destruct (layer c) as [l|]; [|discriminate].
  set (s4 := mkSched g rest ((trace s ++ [EvDequeue cur g]) ++ [EvLayerForward cur g])).
  rewrite (bind_Ret (emit (EvLayerForward cur)) _ s2 tt s4 eq_refl) in E.
  apply bind_inv in E as [(status & s5 & E6 & E)|[(e & E6 & [= <-])|[_ ?]]]; [| |done].
  2:{ pose proof (avoids_liftG ErrMeetNum _
                   (avoids_ErrMeetNum_run_layer l layer_input_datas (datas dest)) s4) as Ha.
      by rewrite E6 in Ha. }
  apply liftG_reads in E6 as (Eh5 & _ & _); [|apply run_layer_reads].
  destruct status; [|discriminate].
  right. exists (datas dest), s5. split; [done|].
  apply go_on_after_bind in E as (r1 & E & Hr). rewrite E. destruct r1; simpl in *; congruence.
Qed.

Lemma iteration_no_overflow h0 i o inputs s :
  NoDup (name <$> h0) →
  Forall (λ o, NoDup (StdMap.values (output_operators o))) h0 →
  no_inputs h0 i →
  sched_inv s → wf_inv h0 i s →
  (iteration i o inputs s).1 ≠ Fatal ErrMeetNum.
Proof.
  intros Hnames Hedges Hi Hs Hwf.
  destruct (iteration i o inputs s) as [r s'] eqn:E. simpl. intros ->.
  apply iteration_overflow in E as (cur & rest & Hq & E).
  destruct (pop_inv s cur rest Hs Hq) as (_ & Hreached & _ & Hfresh).
  pose proof Hwf as ((Hw & Hqi & _ & _) & Hni & Hcount).
  assert (cur ≠ i) as Hne.
  { intros ->. apply Hqi. rewrite Hq. left. }
  destruct E as [(_ & c & Hc & Hover)|(src & s1 & Eh & E)].
  - assert (ready_in (graph s) cur) as (c' & Hc' & Hm).
    { apply (wf_ready h0 i); try done. by destruct Hs. }
    rewrite Hc in Hc'. injection Hc' as <-. unfold producers in *. lia.
  - revert E. apply (ProbeNextLayer_no_overflow h0 (i :: invoked (trace s))).
    + by rewrite Eh.
    + done.
    + by apply targets_NoDup.
    + apply NoDup_app. split_and!.
      * apply NoDup_cons. split; [done|]. by destruct Hs.
      * intros x [->|Hx]%elem_of_cons ->%list_elem_of_singleton; done.
      * apply NoDup_singleton.
    + intros c o' Ho'. apply Hcount. by rewrite <- Eh.
Qed.

Lemma schedule_no_overflow h0 i o inputs fuel : ∀ s,
  NoDup (name <$> h0) →
  Forall (λ o, NoDup (StdMap.values (output_operators o))) h0 →
  no_inputs h0 i →
  sched_inv s → wf_inv h0 i s →
  (schedule fuel i o inputs s).1 ≠ Fatal ErrMeetNum.
Proof.
  induction fuel as [|fuel IH]; intros s Hnames Hedges Hi Hs Hwf; [done|].
  simpl. unfold mbind, M_bind.
  pose proof (iteration_no_overflow h0 i o inputs s Hnames Hedges Hi Hs Hwf) as Hit.
  destruct (iteration i o inputs s) as [[[]|e|] s1] eqn:E; simpl in *; try done.
  - pose proof (iteration_inv _ _ _ _ _ _ Hs E) as [Hs1 _].
    apply (iteration_wf h0) in E as [_ Hwf1]; try done.
    apply IH; try done. by apply Hwf1.
  - congruence.
Qed.

Lemma schedule_start_no_overflow i o inputs fuel g :
  NoDup (name <$> operator_heap g) →
  Forall (λ o, NoDup (StdMap.values (output_operators o))) (operator_heap g) →
  Forall (λ o, meet_num o = 0) (operator_heap g) →
  no_inputs (operator_heap g) i →
  (schedule fuel i o inputs (mkSched g [i] [])).1 ≠ Fatal ErrMeetNum.
Proof.
  intros Hnames Hedges Hzero Hi. destruct fuel as [|fuel]; [done|].
  set (h0 := operator_heap g) in *.
  assert (Hf0 : delivery_frame h0 i [] (mkSched g [] [])).
  { split_and!; simpl; [done|apply not_elem_of_nil|done|constructor]. }
  assert (Hc0 : ∀ c co, operator_heap (graph (mkSched g [] [])) !! c = Some co →
                 meet_num co = Z.of_nat (deliveries h0 [] c)).
  { intros c co Ho. simpl in Ho. eapply Forall_forall in Hzero; [|by eapply list_elem_of_lookup_2].
    by rewrite Hzero. }
  simpl. unfold mbind, M_bind.
  destruct (iteration i o inputs (mkSched g [i] [])) as [r1 s1] eqn:E1.
  apply first_iteration in E1 as [[-> ->]|(r2 & E1 & ->)]; [done|].
  assert (r2 ≠ Fatal ErrMeetNum) as Hr2.
  { pose proof (ProbeNextLayer_no_overflow h0 [] i inputs (mkSched g [] [])) as H.
    rewrite E1 in H. apply H; try done.
    - by apply targets_NoDup.
    - apply NoDup_singleton. }
  pose proof (probe_step _ _ _ _ _ (sched_inv_start g) E1) as [Hs1 _].
  eapply (probe_counts_step h0 i [] []) in E1 as [Hf1 Hc1]; try done.
  pose proof Hf1 as (_ & _ & Hv1 & Ht1).
  destruct r2 as [[]|e|]; simpl; [|congruence|done].
  apply (schedule_no_overflow h0); try done.
  split_and!.
  - by rewrite Hv1.
  - rewrite Hv1. apply not_elem_of_nil.
  - intros c o' Ho'. rewrite Hv1. by apply Hc1.
Qed.

(** X24. In a pass over a well-formed graph the check of
    [CheckOperatorReady], that a counter is not above the number of producers,
    never fails: a node is delivered to at most once by each of its distinct
    producers. *)
Theorem well_formed_pass_never_overruns fuel inputs debug g :
  well_formed g →
  (run_Forward fuel inputs debug g).1 ≠ Fatal ErrMeetNum.
Proof.
  intros [Hzero Hnames Hedges Hin].
  destruct (run_Forward fuel inputs debug g) as [r s'] eqn:E. simpl.
  apply Forward_spec in E. destruct (decide _); [|by destruct E as [-> _]].
  destruct (StdMap.find (input_name_ g) _) as [i|] eqn:Hi; [|by destruct E as [-> _]].
  destruct (StdMap.find (output_name_ g) _) as [o|]; [|by destruct E as [-> _]].
  destruct E as (r1 & s1 & E1 & E).
  pose proof (schedule_start_no_overflow i o inputs fuel g Hnames Hedges Hzero) as Hsch.
  rewrite E1 in Hsch. simpl in Hsch.
  destruct r1 as [[]|e1|]; [| |by destruct E as [-> _]].
  - assert (avoids ErrMeetNum (liftG (Forward_result (operators_ g) o))) as Ha.
    { apply avoids_liftG. unfold Forward_result. no_state_error. }
    specialize (Ha s1). by rewrite E in Ha.
  - destruct E as [-> _]. intros [= ->]. apply Hsch; [|done].
    intros o' Ho'. by eapply Hin.
Qed.

Lemma well_formed_pass_never_overruns_witness :
  well_formed Examples.diamond_graph ∧
  (run_Forward 10 Examples.diamond_input false Examples.diamond_graph).1 ≠ Fatal ErrMeetNum.
Proof.
  split; [apply diamond_well_formed|].
  apply (well_formed_pass_never_overruns 10 Examples.diamond_input false
           Examples.diamond_graph).
  apply diamond_well_formed.
Defined.

Lemma Forward_keeps_well_formed_witness :
  well_formed (graph (run_Forward 10 Examples.diamond_input false Examples.diamond_graph).2).
Proof.
  eapply (Forward_keeps_well_formed 10 Examples.diamond_input false Examples.diamond_graph).
  - apply diamond_well_formed.
  - intros n Hn. simpl in Hn.
    repeat (destruct n as [|n]; [compute_done|]). lia.
  - vm_compute. reflexivity.
Defined.

(** X25. Whatever its outcome, a Build on a Complete graph duplicates no node
    and no edge: the node list is the one it was and every node keeps its name,
    type, input operands, consumer names, consumer edges, parameters, weights
    and counter (only its handler and its output operand may be set). The call
    never ends in the state error; when it returns, the state is Complete and
    the given input and output names are recorded. *)
Theorem Build_again_keeps_nodes pnnx_load factory input_name output_name g :
  graph_state_ g = Complete →
  let r := Build pnnx_load factory input_name output_name g in
  nodes_of r.2 = nodes_of g ∧
  r.1 ≠ Fatal ErrGraphState ∧
  (r.1 = Ret tt →
   graph_state_ r.2 = Complete ∧ input_name_ r.2 = input_name ∧
   output_name_ r.2 = output_name).
Proof.
  intros Hc. unfold Build. rewrite (bind_Ret get _ g g g eq_refl). rewrite Hc.
  destruct (decide (Complete = NeedInit)); [discriminate|].
  rewrite (bind_Ret (mret tt) _ g tt g eq_refl). rewrite (bind_Ret get _ g g g eq_refl).
  rewrite Hc. change (GraphState_rank NeedBuild <=? GraphState_rank Complete) with true.
  rewrite (bind_Ret (CHECK true _) _ g tt g eq_refl).
  cbv zeta. split_and!.
  - match goal with
    | |- nodes_of (?m g).2 = _ => enough (keeps_nodes m) as H by exact (H _ g eq_refl)
    end.
    unfold bind_operator, CreateLayer.
    pose proof keeps_nodes_InitOperatorInputTensor.
    pose proof keeps_nodes_InitOperatorOutputTensor.
    nodes_auto.
  - match goal with
    | |- (?m g).1 ≠ _ => enough (avoids ErrGraphState m) as H by exact (H g)
    end.
    unfold bind_operator, CreateLayer.
    pose proof avoids_InitOperatorInputTensor.
    pose proof avoids_InitOperatorOutputTensor.
    no_state_error.
  - match goal with |- (?m g).1 = _ → _ => destruct (m g) as [r g'] eqn:E end.
    simpl. intros ->.
    do 5 (apply bind_inv in E as [(? & ? & _ & E)|[(? & _ & ?)|[_ ?]]];
          try discriminate).
    by inversion E.
Qed.

Lemma Build_again_keeps_nodes_witness :
  graph_state_ Examples.chain_built = Complete ∧
  (let r := Build (Examples.load Examples.chain) Examples.factory "elsewhere" "out"
                  Examples.chain_built in
   nodes_of r.2 = nodes_of Examples.chain_built ∧
   r.1 ≠ Fatal ErrGraphState ∧
   (r.1 = Ret tt →
    graph_state_ r.2 = Complete ∧ input_name_ r.2 = "elsewhere"%string ∧
    output_name_ r.2 = "out"%string)).
Proof.
  split; [reflexivity|].
  apply (Build_again_keeps_nodes (Examples.load Examples.chain) Examples.factory "elsewhere" "out"
           Examples.chain_built).
  reflexivity.
Defined.

(** * The shape passes as a whole *)

(** ** The input pass as a whole *)












Example chain_input_pass :
  (InitOperatorInputTensor [0; 1; 2; 3]%nat Examples.chain_initialised).1 = Ret tt ∧
  visited_operands Examples.chain_initialised [0; 1; 2; 3]%nat = [0; 1; 2]%nat ∧
  (datas <$> operand_heap (InitOperatorInputTensor [0; 1; 2; 3]%nat
                             Examples.chain_initialised).2)
    = [[0%nat]; [1%nat]; [2%nat]].
Proof. vm_compute. split_and!; reflexivity. Qed.

(** ** The output pass as a whole *)
















Example chain_output_pass :
  let r := InitOperatorOutputTensor Examples.chain [0; 1; 2; 3]%nat
             Examples.chain_initialised in
  r.1 = Ret tt ∧
  (output_operands <$> operator_heap r.2) = [Some 3%nat; Some 4%nat; Some 5%nat; None] ∧
  operand_heap r.2 !! 4%nat
    = Some (mkRuntimeOperand "1_output" [1; 1; 1; 3] [1%nat] kTypeFloat32).
Proof. vm_compute. split_and!; reflexivity. Qed.

(** A descriptor with two output operands. *)
Example two_outputs_are_fatal :
  InitOperatorOutputTensor
    [Some (mkPnnxOperator "A" "nn.Identity" []
             [Examples.edge "1" "A" []; Examples.edge "2" "A" []] [] [])]
    [0%nat] Examples.chain_initialised
  = (Fatal ErrMultiOutput, Examples.chain_initialised).
Proof. vm_compute. reflexivity. Qed.
